(** * courierkit: slot engine and entitlement queries

    A shallow embedding of the TypeScript sources of the two packages
    (availability: [intervals.ts], [schedule.ts], [helpers.ts], [slots.ts];
    entitlements: [time.ts], [limits.ts], [policy.ts], [entitlements.ts])
    and the properties stated for them.

    Conventions.
    - A JavaScript [Date] is its time value: milliseconds since the epoch,
      an integer of [Z].  A [Duration] (a TypeScript [number] of
      milliseconds) is a [Z] as well, so negative values stay expressible;
      fractions of a millisecond, [NaN] and invalid dates are not held.
      Where a statement depends on it, the whole numbers on which the
      arithmetic of the model is that of the doubles and dates of the
      code are named by a hypothesis ([hostInDomain], [countsInRange],
      [resetValid]).
    - [Record<string, T>] objects and [Map<string, number>] are [gmap]s.
      A [gmap] holds the own properties of a record.  A read
      [record[key]] of the code also finds the members of
      [Object.prototype]: policy.ts is modelled with them ([recordHas]);
      for the other reads the keys concerned are named by a hypothesis
      ([ownOrPlain]).
    - [Array.prototype.sort] is the stable sort of ECMAScript 2019.
    - The loop of [generateCandidateSlots] ends only for a positive step:
      it carries fuel and gives [None] when the fuel runs out.  The two
      day-by-day loops always end; their fuel is computed from the range
      and shown to be enough. *)

From Stdlib Require Import ZArith List Lia Bool String Sorting.Sorted Permutation.
From stdpp Require Import gmap strings.

Local Open Scope Z_scope.

(** ** ECMAScript Date built-ins *)

Module JsDate.

Definition msPerDay : Z := 86400000.
Definition msPerHour : Z := 3600000.
Definition msPerMinute : Z := 60000.

(** Day number of a time value ([Day(t)] of ECMA-262). *)
Definition dayOf (t : Z) : Z := t / msPerDay.

(** Proleptic Gregorian date of a day number: (year, month 1..12, day). *)
Definition civilFromDays (z0 : Z) : Z * Z * Z :=
  let z := z0 + 719468 in
  let era := z / 146097 in
  let doe := z - era * 146097 in
  let yoe := (doe - doe / 1460 + doe / 36524 - doe / 146096) / 365 in
  let y := yoe + era * 400 in
  let doy := doe - (365 * yoe + yoe / 4 - yoe / 100) in
  let mp := (5 * doy + 2) / 153 in
  let d := doy - (153 * mp + 2) / 5 + 1 in
  let m := if mp <? 10 then mp + 3 else mp - 9 in
  (if m <=? 2 then y + 1 else y, m, d).

(** Day number of a Gregorian date; months outside 1..12 carry into the
    year as [Date.UTC] does. *)
Definition daysFromCivil (y0 m0 d : Z) : Z :=
  let y1 := y0 + (m0 - 1) / 12 in
  let m := (m0 - 1) mod 12 + 1 in
  let y := if m <=? 2 then y1 - 1 else y1 in
  let era := y / 400 in
  let yoe := y - era * 400 in
  let doy := (153 * (if 2 <? m then m - 3 else m + 9) + 2) / 5 + d - 1 in
  let doe := yoe * 365 + yoe / 4 - yoe / 100 + doy in
  era * 146097 + doe - 719468.

(** [MakeDate(MakeDay(year, month0, day), MakeTime(hours, minutes,
    seconds, 0))] of ECMA-262, with the zero-based month of JavaScript: the
    time value of a date given by its fields, as the parse of an ISO date
    string and the setters of a [Date] compute it. *)
Definition makeDate (year month0 day hours minutes seconds : Z) : Z :=
  daysFromCivil year (month0 + 1) day * msPerDay
  + hours * msPerHour + minutes * msPerMinute + seconds * 1000.

(** [MakeFullYear]: a year from 0 to 99 stands for 1900 to 1999. *)
Definition makeFullYear (year : Z) : Z :=
  if (0 <=? year) && (year <=? 99) then 1900 + year else year.

(** [Date.UTC(year, month0, day, hours, minutes, seconds)]. *)
Definition UTC (year month0 day hours minutes seconds : Z) : Z :=
  makeDate (makeFullYear year) month0 day hours minutes seconds.

(** The largest time value of a [Date] ([TimeClip]): a hundred million
    days. *)
Definition maxTime : Z := 8640000000000000.

Definition getUTCFullYear (t : Z) : Z := fst (fst (civilFromDays (dayOf t))).
(** zero-based month *)
Definition getUTCMonth (t : Z) : Z := snd (fst (civilFromDays (dayOf t))) - 1.
Definition getUTCDate (t : Z) : Z := snd (civilFromDays (dayOf t)).
(** 0 = Sunday .. 6 = Saturday; the epoch was a Thursday. *)
Definition getUTCDay (t : Z) : Z := (dayOf t + 4) mod 7.
Definition timeInDay (t : Z) : Z := t mod msPerDay.

(** [d.setUTCDate(d.getUTCDate() + n)]: the time value moves by [n] whole
    days ([MakeDay] carries the day of month into the neighbouring
    months). *)
Definition addUTCDays (t n : Z) : Z := t + n * msPerDay.

(** [d.setUTCHours(0, 0, 0, 0)]. *)
Definition setUTCMidnight (t : Z) : Z := dayOf t * msPerDay.

End JsDate.

(** ** The host environment: zone database and collation

    [Intl.DateTimeFormat] and [String.prototype.localeCompare] are supplied
    by the JavaScript runtime.  [tzOffset zone t] is the offset of local
    time from UTC, in milliseconds, that the zone database gives for [zone]
    at the instant [t]. *)

Class Intl := {
  tzOffset : string -> Z -> Z;
  localeCompare : string -> string -> Z
}.

(** ** Array.prototype.sort: stable, by a comparator *)

Section ArraySort.
Context {A : Type} (cmp : A -> A -> Z).

Fixpoint sort_insert (x : A) (l : list A) : list A :=
  match l with
  | [] => [x]
  | y :: l' => if 0 <? cmp x y then y :: sort_insert x l' else x :: l
  end.

Definition array_sort (l : list A) : list A := fold_right sort_insert [] l.
End ArraySort.

(** ** intervals.ts *)

Record Interval := mkInterval { istart : Z; iend : Z }.

Definition cloneInterval (i : Interval) : Interval :=
  {| istart := istart i; iend := iend i |}.

Definition intervalsOverlap (a b : Interval) : bool :=
  (istart a <? iend b) && (istart b <? iend a).

(** The comparator of [validIntervals.sort]: by start, then by end. *)
Definition cmpStartEnd (a b : Interval) : Z :=
  let startDiff := istart a - istart b in
  if negb (startDiff =? 0) then startDiff else iend a - iend b.

(** The [for] loop of [mergeIntervals]; [lastMerged] is the last element
    of [merged], which the loop extends in place, and the result is the
    rest of [merged] from [lastMerged] on. *)
Fixpoint mergeSweep (lastMerged : Interval) (rest : list Interval) : list Interval :=
  match rest with
  | [] => [lastMerged]
  | current :: rest' =>
      if istart current <=? iend lastMerged then
        if iend lastMerged <? iend current
        then mergeSweep {| istart := istart lastMerged; iend := iend current |} rest'
        else mergeSweep lastMerged rest'
      else lastMerged :: mergeSweep (cloneInterval current) rest'
  end.

Definition mergeIntervals (intervals : list Interval) : list Interval :=
  match intervals with
  | [] => []
  | _ =>
      let validIntervals :=
        array_sort cmpStartEnd
          (map cloneInterval (List.filter (fun i => istart i <? iend i) intervals)) in
      match validIntervals with
      | [] => []
      | first :: rest => mergeSweep (cloneInterval first) rest
      end
  end.

(** One pass of the innermost loop of [subtractIntervals]: what is left of
    [rem] once [sub] is taken out. *)
Definition subtractOne (sub rem : Interval) : list Interval :=
  if negb (intervalsOverlap rem sub) then [rem]
  else
    (if istart rem <? istart sub
     then [{| istart := istart rem; iend := istart sub |}] else [])
    ++ (if iend sub <? iend rem
        then [{| istart := iend sub; iend := iend rem |}] else []).

Definition subtractAll (mergedSubtract : list Interval) (interval : Interval)
  : list Interval :=
  fold_left (fun remaining sub => flat_map (subtractOne sub) remaining)
    mergedSubtract [cloneInterval interval].

Definition cmpStart (a b : Interval) : Z := istart a - istart b.

Definition subtractIntervals (from subtract : list Interval) : list Interval :=
  match from, subtract with
  | [], _ => []
  | _, [] => mergeIntervals from
  | _, _ =>
      let mergedFrom := mergeIntervals from in
      let mergedSubtract := mergeIntervals subtract in
      array_sort cmpStart (flat_map (subtractAll mergedSubtract) mergedFrom)
  end.

(** The two-pointer loop of [intersectIntervals], on the parts of
    [mergedA] and [mergedB] from [i] and [j] on. *)
Fixpoint intersectWalk (mergedA mergedB : list Interval) : list Interval :=
  match mergedA with
  | [] => []
  | intervalA :: restA =>
      (fix walkB (mergedB : list Interval) : list Interval :=
         match mergedB with
         | [] => []
         | intervalB :: restB =>
             let start := Z.max (istart intervalA) (istart intervalB) in
             let end_ := Z.min (iend intervalA) (iend intervalB) in
             (if start <? end_ then [{| istart := start; iend := end_ |}] else [])
             ++ (if iend intervalA <=? iend intervalB
                 then intersectWalk restA mergedB
                 else walkB restB)
         end) mergedB
  end.

Definition intersectIntervals (a b : list Interval) : list Interval :=
  match a, b with
  | [], _ => []
  | _, [] => []
  | _, _ => intersectWalk (mergeIntervals a) (mergeIntervals b)
  end.

(** The instants covered by a list of intervals. *)
Definition covers (l : list Interval) (t : Z) : Prop :=
  exists i, In i l /\ istart i <= t < iend i.

(** ** types.ts (availability) *)

Inductive DayOfWeek :=
  sunday | monday | tuesday | wednesday | thursday | friday | saturday.

Definition DayOfWeek_eqb (a b : DayOfWeek) : bool :=
  match a, b with
  | sunday, sunday | monday, monday | tuesday, tuesday | wednesday, wednesday
  | thursday, thursday | friday, friday | saturday, saturday => true
  | _, _ => false
  end.

(** [days.includes(dayOfWeek)] *)
Definition includesDay (days : list DayOfWeek) (d : DayOfWeek) : bool :=
  existsb (DayOfWeek_eqb d) days.

(** A [LocalTime] is the string [HH:MM]; every use in the sources starts
    with [time.split(':').map(Number)], and the record holds that pair. *)
Record LocalTime := mkLocalTime { lt_hours : Z; lt_minutes : Z }.

(** [string | Date] of the date-valued fields: a [Date], or the string
    [YYYY-MM-DD] (held as its three numbers). *)
Inductive DateOrString :=
| DateValue (t : Z)
| DateString (year month day : Z).

(** [DateRange] has the two fields of [Interval]. *)
Abbreviation DateRange := Interval (only parsing).

Record ScheduleRule := mkScheduleRule {
  sr_days : list DayOfWeek;
  sr_startTime : LocalTime;
  sr_endTime : LocalTime;
  sr_timezone : string;
  sr_effectiveFrom : option DateOrString;
  sr_effectiveUntil : option DateOrString
}.

Record ScheduleOverride := mkScheduleOverride {
  so_date : DateOrString;
  so_available : bool;
  so_startTime : option LocalTime;
  so_endTime : option LocalTime
}.

Record Schedule := mkSchedule {
  sch_id : string;
  sch_rules : list ScheduleRule;
  sch_overrides : option (list ScheduleOverride)
}.

(** ** schedule.ts *)

Section ScheduleExpansion.
Context {intl : Intl}.

Definition normalizeDate (date : DateOrString) : Z :=
  match date with
  | DateValue t => t
  | DateString year month day => JsDate.UTC year (month - 1) day 0 0 0
  end.

(** The wall-clock reading of the instant [t] in [timezone], as the time
    value whose UTC fields are the local fields. *)
Definition zonedTime (t : Z) (timezone : string) : Z := t + tzOffset timezone t.

(** The [en-CA] rendering [YYYY-MM-DD] of the local date, as the triple
    (year, month, day). *)
Definition getDateStringInTimezone (date : Z) (timezone : string) : Z * Z * Z :=
  JsDate.civilFromDays (JsDate.dayOf (zonedTime date timezone)).

(** [<] on two [YYYY-MM-DD] strings: the dates in lexicographic order. *)
Definition dateStr_ltb (a b : Z * Z * Z) : bool :=
  let '(ya, ma, da) := a in
  let '(yb, mb, db) := b in
  (ya <? yb) || ((ya =? yb) && ((ma <? mb) || ((ma =? mb) && (da <? db)))).

Definition dateStr_eqb (a b : Z * Z * Z) : bool :=
  let '(ya, ma, da) := a in
  let '(yb, mb, db) := b in
  (ya =? yb) && (ma =? mb) && (da =? db).

Definition dayOfIndex (n : Z) : DayOfWeek :=
  match n with
  | 0 => sunday | 1 => monday | 2 => tuesday | 3 => wednesday
  | 4 => thursday | 5 => friday | _ => saturday
  end.

Definition getDayOfWeekInTimezone (date : Z) (timezone : string) : DayOfWeek :=
  dayOfIndex (JsDate.getUTCDay (zonedTime date timezone)).

(** [formatToParts] gives the local year, month, day, hour, minute and
    second; [Date.UTC] puts them back together, which drops the
    milliseconds. *)
Definition getTimezoneOffset (utcDate : Z) (timezone : string) : Z :=
  let loc := zonedTime utcDate timezone in
  let '(localYear, localMonth, localDay) := JsDate.civilFromDays (JsDate.dayOf loc) in
  let localHour := JsDate.timeInDay loc / JsDate.msPerHour in
  let localMinute := (JsDate.timeInDay loc mod JsDate.msPerHour) / JsDate.msPerMinute in
  let localSecond := (JsDate.timeInDay loc mod JsDate.msPerMinute) / 1000 in
  let localAsUTC :=
    JsDate.UTC localYear (localMonth - 1) localDay localHour localMinute localSecond in
  localAsUTC - utcDate.

Definition localTimeToUTC (date : Z) (time : LocalTime) (timezone : string) : Z :=
  let '(year, month, day) := getDateStringInTimezone date timezone in
  let roughEstimate :=
    JsDate.UTC year (month - 1) day (lt_hours time) (lt_minutes time) 0 in
  let offsetMs := getTimezoneOffset roughEstimate timezone in
  let utcTime := roughEstimate - offsetMs in
  let verifyOffset := getTimezoneOffset utcTime timezone in
  if negb (verifyOffset =? offsetMs) then roughEstimate - verifyOffset
  else utcTime.

Definition isRuleEffective (rule : ScheduleRule) (date : Z) : bool :=
  let fromOk :=
    match sr_effectiveFrom rule with
    | Some ef =>
        let effectiveFrom := normalizeDate ef in
        let dateStr := getDateStringInTimezone date (sr_timezone rule) in
        let fromStr := getDateStringInTimezone effectiveFrom (sr_timezone rule) in
        negb (dateStr_ltb dateStr fromStr)
    | None => true
    end in
  let untilOk :=
    match sr_effectiveUntil rule with
    | Some eu =>
        let effectiveUntil := normalizeDate eu in
        let dateStr := getDateStringInTimezone date (sr_timezone rule) in
        let untilStr := getDateStringInTimezone effectiveUntil (sr_timezone rule) in
        dateStr_ltb dateStr untilStr
    | None => true
    end in
  fromOk && untilOk.

Definition doesOverrideApply (override : ScheduleOverride) (date : Z)
    (timezone : string) : bool :=
  let overrideDate := normalizeDate (so_date override) in
  dateStr_eqb (getDateStringInTimezone overrideDate timezone)
              (getDateStringInTimezone date timezone).

Definition generateIntervalFromRule (rule : ScheduleRule) (date : Z) : Interval :=
  {| istart := localTimeToUTC date (sr_startTime rule) (sr_timezone rule);
     iend := localTimeToUTC date (sr_endTime rule) (sr_timezone rule) |}.

(** The generator [iterateDays]: the days yielded from [current] on. *)
Fixpoint iterateDaysFrom (fuel : nat) (current end_ : Z) : list Z :=
  match fuel with
  | O => []
  | S fuel' =>
      if current <? end_
      then current :: iterateDaysFrom fuel' (JsDate.addUTCDays current 1) end_
      else []
  end.

(** The loop runs once per day between the first midnight and [end]. *)
Definition iterateDays (range : DateRange) : list Z :=
  let current := JsDate.setUTCMidnight (istart range) in
  iterateDaysFrom (Z.to_nat ((iend range - current) / JsDate.msPerDay + 1))
    current (iend range).

(** What one day pushes onto [intervals]. *)
Definition dayRuleIntervals (schedule : Schedule) (day : Z) : list Interval :=
  flat_map (fun rule =>
    let dayOfWeek := getDayOfWeekInTimezone day (sr_timezone rule) in
    if negb (includesDay (sr_days rule) dayOfWeek) then []
    else if negb (isRuleEffective rule day) then []
    else
      let interval := generateIntervalFromRule rule day in
      if istart interval <? iend interval then [interval] else [])
    (sch_rules schedule).

Definition applicableOverrides (schedule : Schedule) (defaultTimezone : string)
    (day : Z) : list ScheduleOverride :=
  match sch_overrides schedule with
  | Some overrides =>
      List.filter (fun override => doesOverrideApply override day defaultTimezone)
        overrides
  | None => []
  end.

(** What one day pushes onto [overridesToRemove]. *)
Definition dayOverridesToRemove (schedule : Schedule) (defaultTimezone : string)
    (day : Z) : list Interval :=
  flat_map (fun override =>
    if negb (so_available override) then
      match so_startTime override, so_endTime override with
      | Some startTime, Some endTime =>
          [{| istart := localTimeToUTC day startTime defaultTimezone;
              iend := localTimeToUTC day endTime defaultTimezone |}]
      | _, _ =>
          let dayStart := JsDate.setUTCMidnight day in
          let dayEnd := JsDate.setUTCMidnight (JsDate.addUTCDays day 1) in
          [{| istart := dayStart; iend := dayEnd |}]
      end
    else [])
    (applicableOverrides schedule defaultTimezone day).

(** What one day pushes onto [overridesToAdd]. *)
Definition dayOverridesToAdd (schedule : Schedule) (defaultTimezone : string)
    (day : Z) : list Interval :=
  flat_map (fun override =>
    if negb (so_available override) then []
    else
      match so_startTime override, so_endTime override with
      | Some startTime, Some endTime =>
          let addStart := localTimeToUTC day startTime defaultTimezone in
          let addEnd := localTimeToUTC day endTime defaultTimezone in
          if addStart <? addEnd then [{| istart := addStart; iend := addEnd |}] else []
      | _, _ => []
      end)
    (applicableOverrides schedule defaultTimezone day).

(** The final [map]/[filter] of [expandSchedule]. *)
Definition clipToRange (range : DateRange) (result : list Interval) : list Interval :=
  List.filter (fun interval => istart interval <? iend interval)
    (map (fun interval =>
            {| istart := Z.max (istart interval) (istart range);
               iend := Z.min (iend interval) (iend range) |})
         result).

Definition expandSchedule (schedule : Schedule) (range : DateRange) : list Interval :=
  let defaultTimezone :=
    match sch_rules schedule with
    | rule0 :: _ => sr_timezone rule0
    | [] => "UTC"%string
    end in
  let days := iterateDays range in
  let intervals := flat_map (dayRuleIntervals schedule) days in
  let overridesToRemove :=
    flat_map (dayOverridesToRemove schedule defaultTimezone) days in
  let overridesToAdd :=
    flat_map (dayOverridesToAdd schedule defaultTimezone) days in
  let result := mergeIntervals intervals in
  let result :=
    match overridesToRemove with
    | [] => result
    | _ => subtractIntervals result overridesToRemove
    end in
  let result :=
    match overridesToAdd with
    | [] => result
    | _ => mergeIntervals (result ++ overridesToAdd)
    end in
  clipToRange range result.

End ScheduleExpansion.

(** A runtime in which every zone keeps UTC time and strings compare by
    code unit; it is what the runtime gives for the zone ["UTC"]. *)
Definition utcIntl : Intl :=
  {| tzOffset := fun _ _ => 0;
     localeCompare := fun a b =>
       if String.eqb a b then 0 else if String.ltb a b then -1 else 1 |}.

(** ** types.ts (availability), continued *)

Record HostSchedules := mkHostSchedules {
  hs_hostId : string;
  hs_schedules : gmap string Schedule
}.

(** [Partial<Omit<EventType, 'id' | 'hostOverrides'>>]: [None] is a key the
    override does not have. *)
Record HostOverride := mkHostOverride {
  ho_length : option Z;
  ho_scheduleKey : option string;
  ho_bufferBefore : option Z;
  ho_bufferAfter : option Z;
  ho_slotInterval : option Z;
  ho_minimumNotice : option Z;
  ho_maximumLeadTime : option Z;
  ho_maxPerDay : option Z;
  ho_maxPerWeek : option Z
}.

Record EventType := mkEventType {
  et_id : string;
  et_length : Z;
  et_scheduleKey : option string;
  et_bufferBefore : option Z;
  et_bufferAfter : option Z;
  et_slotInterval : option Z;
  et_minimumNotice : option Z;
  et_maximumLeadTime : option Z;
  et_maxPerDay : option Z;
  et_maxPerWeek : option Z;
  et_hostOverrides : option (gmap string HostOverride)
}.

Record EventTypeBufferConfig := mkEventTypeBufferConfig {
  bc_bufferBefore : option Z;
  bc_bufferAfter : option Z
}.

Record Booking := mkBooking {
  bk_id : option string;
  bk_hostId : string;
  bk_start : Z;
  bk_end : Z;
  bk_eventTypeId : option string
}.

Record Block := mkBlock {
  bl_hostId : string;
  bl_start : Z;
  bl_end : Z
}.

Record Slot := mkSlot {
  slot_hostId : string;
  slot_start : Z;
  slot_end : Z;
  slot_bufferBefore : option Interval;
  slot_bufferAfter : option Interval
}.

Record GetAvailableSlotsInput := mkGetAvailableSlotsInput {
  in_eventType : EventType;
  in_hosts : list HostSchedules;
  in_bookings : list Booking;
  in_blocks : option (list Block);
  in_range : DateRange;
  in_eventTypes : option (gmap string EventTypeBufferConfig)
}.

(** ** slots.ts *)

(** The thursday of the ISO week of [date], at midnight UTC. *)
Definition nearestThursday (date : Z) : Z :=
  let d := JsDate.UTC (JsDate.getUTCFullYear date) (JsDate.getUTCMonth date)
             (JsDate.getUTCDate date) 0 0 0 in
  let dayNum := if JsDate.getUTCDay d =? 0 then 7 else JsDate.getUTCDay d in
  JsDate.addUTCDays d (4 - dayNum).

(** [Math.ceil (a / b)] for an integer [a] and a positive integer [b]. *)
Definition ceilDiv (a b : Z) : Z := - ((- a) / b).

Definition getISOWeek (date : Z) : Z :=
  let d := nearestThursday date in
  let yearStart := JsDate.UTC (JsDate.getUTCFullYear d) 0 1 0 0 0 in
  ceilDiv ((d - yearStart) / 86400000 + 1) 7.

Definition getISOWeekYear (date : Z) : Z :=
  JsDate.getUTCFullYear (nearestThursday date).

(** The key [YYYY-MM-DD] of [toISOString], as (year, month, day); two keys
    are the same string exactly when the triples are equal. *)
Definition getDateKey (date : Z) : Z * Z * Z :=
  JsDate.civilFromDays (JsDate.dayOf date).

(** The key [YYYY-Www], as (ISO week-year, ISO week). *)
Definition getWeekKey (date : Z) : Z * Z :=
  (getISOWeekYear date, getISOWeek date).

(** [a ?? b] on an optional field *)
Definition orElse {A : Type} (a b : option A) : option A :=
  match a with Some _ => a | None => b end.

(** The spread [{ ...eventType, ...hostOverride }].  Under a host id that
    names a member of [Object.prototype] and has no override,
    [hostOverrides?.[hostId]] is that member, whose spread adds nothing:
    the configuration is that of [eventType], as here. *)
Definition resolveHostConfig (eventType : EventType) (hostId : string) : EventType :=
  match et_hostOverrides eventType ≫= (fun overrides => overrides !! hostId) with
  | None => eventType
  | Some hostOverride =>
      {| et_id := et_id eventType;
         et_length := default (et_length eventType) (ho_length hostOverride);
         et_scheduleKey := orElse (ho_scheduleKey hostOverride) (et_scheduleKey eventType);
         et_bufferBefore := orElse (ho_bufferBefore hostOverride) (et_bufferBefore eventType);
         et_bufferAfter := orElse (ho_bufferAfter hostOverride) (et_bufferAfter eventType);
         et_slotInterval := orElse (ho_slotInterval hostOverride) (et_slotInterval eventType);
         et_minimumNotice := orElse (ho_minimumNotice hostOverride) (et_minimumNotice eventType);
         et_maximumLeadTime :=
           orElse (ho_maximumLeadTime hostOverride) (et_maximumLeadTime eventType);
         et_maxPerDay := orElse (ho_maxPerDay hostOverride) (et_maxPerDay eventType);
         et_maxPerWeek := orElse (ho_maxPerWeek hostOverride) (et_maxPerWeek eventType);
         et_hostOverrides := et_hostOverrides eventType |}
  end.

Definition inflateInterval (interval : Interval) (bufferBefore bufferAfter : Z)
  : Interval :=
  {| istart := istart interval - bufferBefore;
     iend := iend interval + bufferAfter |}.

(** [(m.get(k) ?? 0)] *)
Definition getCount `{Countable K} (m : gmap K Z) (k : K) : Z := default 0 (m !! k).

(** [m.set(k, (m.get(k) ?? 0) + 1)] *)
Definition bumpCount `{Countable K} (m : gmap K Z) (k : K) : gmap K Z :=
  <[k := getCount m k + 1]> m.

Definition countBookings (bookings : list Booking) (hostId eventTypeId : string)
  : gmap (Z * Z * Z) Z * gmap (Z * Z) Z :=
  fold_left (fun '(dayCount, weekCount) booking =>
      if negb (String.eqb (bk_hostId booking) hostId)
         || negb (bool_decide (bk_eventTypeId booking = Some eventTypeId))
      then (dayCount, weekCount)
      else
        let dayKey := getDateKey (bk_start booking) in
        let weekKey := getWeekKey (bk_start booking) in
        (bumpCount dayCount dayKey, bumpCount weekCount weekKey))
    bookings (∅, ∅).

(** The [while] loop of [generateCandidateSlots] on one free interval;
    [None] when the fuel is used up before the loop condition fails. *)
Fixpoint placeSlots (fuel : nat) (slotStart intervalEnd : Z)
    (slotLength slotInterval : Z) (hostId : string) (bufferBefore bufferAfter : Z)
  : option (list Slot) :=
  match fuel with
  | O => None
  | S fuel' =>
      if slotStart + slotLength + bufferAfter <=? intervalEnd then
        let slotEnd := slotStart + slotLength in
        let slot :=
          {| slot_hostId := hostId;
             slot_start := slotStart;
             slot_end := slotEnd;
             slot_bufferBefore :=
               if 0 <? bufferBefore
               then Some {| istart := slotStart - bufferBefore; iend := slotStart |}
               else None;
             slot_bufferAfter :=
               if 0 <? bufferAfter
               then Some {| istart := slotEnd; iend := slotEnd + bufferAfter |}
               else None |} in
        match placeSlots fuel' (slotStart + slotInterval) intervalEnd
                slotLength slotInterval hostId bufferBefore bufferAfter with
        | Some slots => Some (slot :: slots)
        | None => None
        end
      else Some []
  end.

Fixpoint generateCandidateSlots (fuel : nat) (freeIntervals : list Interval)
    (slotLength slotInterval : Z) (hostId : string) (bufferBefore bufferAfter : Z)
  : option (list Slot) :=
  match freeIntervals with
  | [] => Some []
  | interval :: rest =>
      match placeSlots fuel (istart interval + bufferBefore) (iend interval)
              slotLength slotInterval hostId bufferBefore bufferAfter with
      | None => None
      | Some slots =>
          match generateCandidateSlots fuel rest slotLength slotInterval hostId
                  bufferBefore bufferAfter with
          | None => None
          | Some slots' => Some (slots ++ slots')
          end
      end
  end.

(** [cap !== undefined && existing + candidate >= cap] *)
Definition atCapacity (cap : option Z) (existing candidate : Z) : bool :=
  match cap with
  | Some c => c <=? existing + candidate
  | None => false
  end.

(** The loop of step 6 over the candidate slots: the slots it pushes onto
    [allSlots], with the two candidate counters threaded through. *)
Fixpoint applyCaps (maxPerDay maxPerWeek : option Z)
    (dayCount : gmap (Z * Z * Z) Z) (weekCount : gmap (Z * Z) Z)
    (candidateDayCount : gmap (Z * Z * Z) Z) (candidateWeekCount : gmap (Z * Z) Z)
    (candidateSlots : list Slot) : list Slot :=
  match candidateSlots with
  | [] => []
  | slot :: rest =>
      let dayKey := getDateKey (slot_start slot) in
      let weekKey := getWeekKey (slot_start slot) in
      if atCapacity maxPerDay (getCount dayCount dayKey)
           (getCount candidateDayCount dayKey)
      then applyCaps maxPerDay maxPerWeek dayCount weekCount
             candidateDayCount candidateWeekCount rest
      else if atCapacity maxPerWeek (getCount weekCount weekKey)
                (getCount candidateWeekCount weekKey)
      then applyCaps maxPerDay maxPerWeek dayCount weekCount
             candidateDayCount candidateWeekCount rest
      else slot :: applyCaps maxPerDay maxPerWeek dayCount weekCount
                     (bumpCount candidateDayCount dayKey)
                     (bumpCount candidateWeekCount weekKey) rest
  end.

Section SlotEngine.
Context {intl : Intl}.

(** The buffers a booking is inflated by: those of its own event type.
    Under an id that names a member of [Object.prototype] and no event
    type, [eventTypes?.[id]] is that member, which has no buffers: they
    are 0, as here. *)
Definition bookingBusyInterval (input : GetAvailableSlotsInput) (booking : Booking)
  : Interval :=
  let bookingEventTypeConfig :=
    match bk_eventTypeId booking with
    | Some id =>
        if String.eqb id "" then None
        else in_eventTypes input ≫= (fun eventTypes => eventTypes !! id)
    | None => None
    end in
  let bookingBufferBefore :=
    default 0 (bookingEventTypeConfig ≫= bc_bufferBefore) in
  let bookingBufferAfter :=
    default 0 (bookingEventTypeConfig ≫= bc_bufferAfter) in
  inflateInterval {| istart := bk_start booking; iend := bk_end booking |}
    bookingBufferBefore bookingBufferAfter.

Definition busyIntervals (input : GetAvailableSlotsInput) (hostId : string)
  : list Interval :=
  let hostBookings :=
    List.filter (fun b => String.eqb (bk_hostId b) hostId) (in_bookings input) in
  let hostBlocks :=
    List.filter (fun b => String.eqb (bl_hostId b) hostId)
      (default [] (in_blocks input)) in
  map (bookingBusyInterval input) hostBookings
  ++ map (fun block => {| istart := bl_start block; iend := bl_end block |}) hostBlocks.

(** Steps 1 to 4 for one host whose schedule was found: the free
    intervals handed to [generateCandidateSlots]. *)
Definition freeIntervalsFor (input : GetAvailableSlotsInput) (currentTime : Z)
    (hostId : string) (schedule : Schedule) : list Interval :=
  let config := resolveHostConfig (in_eventType input) hostId in
  let minimumNotice := default 0 (et_minimumNotice config) in
  let maximumLeadTime := et_maximumLeadTime config in
  let freeIntervals := expandSchedule schedule (in_range input) in
  let busy := busyIntervals input hostId in
  let freeIntervals :=
    match busy with
    | [] => freeIntervals
    | _ => subtractIntervals freeIntervals busy
    end in
  let earliestStart := currentTime + minimumNotice in
  let freeIntervals :=
    List.filter (fun interval => istart interval <? iend interval)
      (map (fun interval =>
              {| istart := Z.max (istart interval) earliestStart;
                 iend := iend interval |})
           freeIntervals) in
  match maximumLeadTime with
  | Some lead =>
      let latestEnd := currentTime + lead in
      List.filter (fun interval => istart interval <? iend interval)
        (map (fun interval =>
                {| istart := istart interval;
                   iend := Z.min (iend interval) latestEnd |})
             freeIntervals)
  | None => freeIntervals
  end.

(** The body of the loop over [hosts]: what one host adds to [allSlots].
    [schedules[scheduleKey]] is read as an own property; under a key that
    names a member of [Object.prototype] and no schedule of the host the
    code finds that member and throws in [expandSchedule]
    ([plainScheduleKey] names the other keys). *)
Definition hostSlots (fuel : nat) (input : GetAvailableSlotsInput) (currentTime : Z)
    (hostSchedules : HostSchedules) : option (list Slot) :=
  let hostId := hs_hostId hostSchedules in
  let config := resolveHostConfig (in_eventType input) hostId in
  let scheduleKey := default "default"%string (et_scheduleKey config) in
  let slotLength := et_length config in
  let slotInterval := default slotLength (et_slotInterval config) in
  let bufferBefore := default 0 (et_bufferBefore config) in
  let bufferAfter := default 0 (et_bufferAfter config) in
  let maxPerDay := et_maxPerDay config in
  let maxPerWeek := et_maxPerWeek config in
  match hs_schedules hostSchedules !! scheduleKey with
  | None => Some []
  | Some schedule =>
      let freeIntervals := freeIntervalsFor input currentTime hostId schedule in
      match generateCandidateSlots fuel freeIntervals slotLength slotInterval
              hostId bufferBefore bufferAfter with
      | None => None
      | Some candidateSlots =>
          match maxPerDay, maxPerWeek with
          | None, None => Some candidateSlots
          | _, _ =>
              let '(dayCount, weekCount) :=
                countBookings (in_bookings input) hostId (et_id (in_eventType input)) in
              Some (applyCaps maxPerDay maxPerWeek dayCount weekCount ∅ ∅
                      candidateSlots)
          end
      end
  end.

Fixpoint collectSlots (fuel : nat) (input : GetAvailableSlotsInput) (currentTime : Z)
    (hosts : list HostSchedules) : option (list Slot) :=
  match hosts with
  | [] => Some []
  | hostSchedules :: rest =>
      match hostSlots fuel input currentTime hostSchedules with
      | None => None
      | Some slots =>
          match collectSlots fuel input currentTime rest with
          | None => None
          | Some slots' => Some (slots ++ slots')
          end
      end
  end.

Definition cmpSlots (a b : Slot) : Z :=
  let startDiff := slot_start a - slot_start b in
  if negb (startDiff =? 0) then startDiff
  else localeCompare (slot_hostId a) (slot_hostId b).

(** [now] is always supplied here; the default [new Date()] is the
    caller's clock. *)
Definition getAvailableSlots (fuel : nat) (input : GetAvailableSlotsInput) (now : Z)
  : option (list Slot) :=
  match collectSlots fuel input now (in_hosts input) with
  | None => None
  | Some allSlots => Some (array_sort cmpSlots allSlots)
  end.

End SlotEngine.

(** *** Counts used to state the caps *)

(** The slots of [slots] for [hostId] that start on the UTC day [dayKey]. *)
Definition slotsOnDay (slots : list Slot) (hostId : string) (dayKey : Z * Z * Z) : Z :=
Z.of_nat (length (List.filter
  (fun s => String.eqb (slot_hostId s) hostId
            && bool_decide (getDateKey (slot_start s) = dayKey)) slots)).

(** The slots of [slots] for [hostId] that start in the ISO week [weekKey]. *)
Definition slotsInWeek (slots : list Slot) (hostId : string) (weekKey : Z * Z) : Z :=
Z.of_nat (length (List.filter
  (fun s => String.eqb (slot_hostId s) hostId
            && bool_decide (getWeekKey (slot_start s) = weekKey)) slots)).

(** The supplied bookings of [hostId] and [eventTypeId] that start on the
    UTC day [dayKey]. *)
Definition bookingsOnDay (bookings : list Booking) (hostId eventTypeId : string)
  (dayKey : Z * Z * Z) : Z :=
Z.of_nat (length (List.filter
  (fun b => String.eqb (bk_hostId b) hostId
            && bool_decide (bk_eventTypeId b = Some eventTypeId)
            && bool_decide (getDateKey (bk_start b) = dayKey)) bookings)).

(** The supplied bookings of [hostId] and [eventTypeId] that start in the
    ISO week [weekKey]. *)
Definition bookingsInWeek (bookings : list Booking) (hostId eventTypeId : string)
  (weekKey : Z * Z) : Z :=
Z.of_nat (length (List.filter
  (fun b => String.eqb (bk_hostId b) hostId
            && bool_decide (bk_eventTypeId b = Some eventTypeId)
            && bool_decide (getWeekKey (bk_start b) = weekKey)) bookings)).

(** ** helpers.ts *)

Inductive RecurrenceFrequency := daily | weekly | biweekly | monthly.

Record RecurrenceRule := mkRecurrenceRule {
  rr_frequency : RecurrenceFrequency;
  rr_days : option (list DayOfWeek);
  rr_dayOfMonth : option Z;
  rr_startTime : LocalTime;
  rr_endTime : LocalTime;
  rr_timezone : string;
  rr_start : option Z;
  rr_until : option Z;
  rr_count : option Z;
  rr_exclude : option (list Z)
}.

(** [getWeekNumber] of helpers.ts has the body of [getISOWeek]. *)
Definition getWeekNumber (date : Z) : Z :=
  let d := JsDate.UTC (JsDate.getUTCFullYear date) (JsDate.getUTCMonth date)
             (JsDate.getUTCDate date) 0 0 0 in
  let dayNum := if JsDate.getUTCDay d =? 0 then 7 else JsDate.getUTCDay d in
  let d := JsDate.addUTCDays d (4 - dayNum) in
  let yearStart := JsDate.UTC (JsDate.getUTCFullYear d) 0 1 0 0 0 in
  ceilDiv ((d - yearStart) / 86400000 + 1) 7.

(** [%] of JavaScript truncates towards zero: [Z.rem]. *)
Definition isInBiweeklyCycle (date anchorDate : Z) : bool :=
  let anchorWeek := getWeekNumber anchorDate in
  let dateWeek := getWeekNumber date in
  let anchorYear := JsDate.getUTCFullYear anchorDate in
  let dateYear := JsDate.getUTCFullYear date in
  let anchorTotalWeeks := anchorYear * 52 + anchorWeek in
  let dateTotalWeeks := dateYear * 52 + dateWeek in
  Z.rem (dateTotalWeeks - anchorTotalWeeks) 2 =? 0.

(** The ISO week distance of the design: the number of weeks between the
    mondays of the weeks of the two dates. *)
Definition mondayOfWeek (date : Z) : Z :=
  JsDate.dayOf date - (JsDate.getUTCDay date + 6) mod 7.

Definition isoWeekDistance (date anchorDate : Z) : Z :=
  (mondayOfWeek date - mondayOfWeek anchorDate) / 7.

Section Recurrence.
Context {intl : Intl}.

Definition localTimeToUtc (date : Z) (localTime : LocalTime) (timezone : string) : Z :=
  let hours := lt_hours localTime in
  let minutes := lt_minutes localTime in
  let '(year, month, day) := getDateStringInTimezone date timezone in
  (* new Date(`${localIso}Z`), the parse of an ISO string *)
  let tempDate := JsDate.makeDate year (month - 1) day hours minutes 0 in
  let loc := zonedTime tempDate timezone in
  let '(tzYear, tzMonth, tzDay) := JsDate.civilFromDays (JsDate.dayOf loc) in
  let hourPart := JsDate.timeInDay loc / JsDate.msPerHour in
  let tzHour := if hourPart =? 24 then 0 else hourPart in
  let tzMinute := (JsDate.timeInDay loc mod JsDate.msPerHour) / JsDate.msPerMinute in
  let tzDate := JsDate.UTC tzYear (tzMonth - 1) tzDay tzHour tzMinute 0 in
  let offset := tzDate - tempDate in
  let localTimestamp := JsDate.UTC year (month - 1) day hours minutes 0 in
  localTimestamp - offset.

Definition getDayOfMonthInTimezone (date : Z) (timezone : string) : Z :=
  snd (getDateStringInTimezone date timezone).

Definition addDays (date days : Z) : Z := JsDate.addUTCDays date days.

Definition isExcluded (date : Z) (excludeDates : option (list Z)) (timezone : string)
  : bool :=
  match excludeDates with
  | None => false
  | Some excludeDates =>
      let dateStr := getDateStringInTimezone date timezone in
      existsb (fun excludeDate =>
                 dateStr_eqb dateStr (getDateStringInTimezone excludeDate timezone))
        excludeDates
  end.

(** The [switch] on the frequency. *)
Definition shouldInclude (rule : RecurrenceRule) (range : DateRange) (currentDate : Z)
  : bool :=
  let dayOfWeek := getDayOfWeekInTimezone currentDate (rr_timezone rule) in
  let dayOfMonth := getDayOfMonthInTimezone currentDate (rr_timezone rule) in
  match rr_frequency rule with
  | daily =>
      match rr_days rule with
      | None => true
      | Some days => includesDay days dayOfWeek
      end
  | weekly =>
      match rr_days rule with
      | None => false
      | Some days => includesDay days dayOfWeek
      end
  | biweekly =>
      match rr_days rule with
      | Some days =>
          if includesDay days dayOfWeek then
            let anchorDate := default (istart range) (rr_start rule) in
            isInBiweeklyCycle currentDate anchorDate
          else false
      | None => false
      end
  | monthly =>
      match rr_dayOfMonth rule with
      | Some dom => dom =? dayOfMonth
      | None => false
      end
  end.

(** The occurrence one day pushes onto [intervals], if any. *)
Definition occurrence (rule : RecurrenceRule) (range : DateRange) (currentDate : Z)
  : option Interval :=
  if shouldInclude rule range currentDate then
    if negb (isExcluded currentDate (rr_exclude rule) (rr_timezone rule)) then
      let start := localTimeToUtc currentDate (rr_startTime rule) (rr_timezone rule) in
      let end_ := localTimeToUtc currentDate (rr_endTime rule) (rr_timezone rule) in
      if (istart range <=? start) && (end_ <=? iend range)
      then Some {| istart := start; iend := end_ |}
      else if (istart range <=? start) && (start <? iend range)
      then Some {| istart := start; iend := end_ |}
      else None
    else None
  else None.

(** The [while] loop; [maxCount] is [None] for [Infinity]. *)
Fixpoint expandLoop (fuel : nat) (rule : RecurrenceRule) (range : DateRange)
    (effectiveEnd : Z) (maxCount : option Z) (currentDate count : Z)
  : list Interval :=
  match fuel with
  | O => []
  | S fuel' =>
      if (currentDate <? effectiveEnd)
         && match maxCount with Some m => count <? m | None => true end
      then
        match occurrence rule range currentDate with
        | Some interval =>
            interval :: expandLoop fuel' rule range effectiveEnd maxCount
                          (addDays currentDate 1) (count + 1)
        | None =>
            expandLoop fuel' rule range effectiveEnd maxCount
              (addDays currentDate 1) count
        end
      else []
  end.

(** The loop advances by a day at a time and stops at [effectiveEnd], so
    one unit of fuel per day in between is enough. *)
Definition expandRecurrence (rule : RecurrenceRule) (range : DateRange)
  : list Interval :=
  let maxCount := rr_count rule in
  let effectiveStart := istart range - 24 * 60 * 60 * 1000 in
  let rangeEndExtended := iend range + 24 * 60 * 60 * 1000 in
  let effectiveEnd :=
    match rr_until rule with
    | Some until => Z.min rangeEndExtended until
    | None => rangeEndExtended
    end in
  expandLoop (Z.to_nat ((effectiveEnd - effectiveStart) / JsDate.msPerDay + 1))
    rule range effectiveEnd maxCount effectiveStart 0.

End Recurrence.

(** ** types.ts (entitlements) *)

Inductive CalendarUnit := Hour | Day | Week | Month | Year.

Inductive Duration :=
| DurationMs (ms : Z)
| DurationParts (hours days weeks months : option Z).

Inductive WindowSpec :=
| Calendar (unit : CalendarUnit) (timezone : option string)
| Sliding (duration : Duration)
| Lifetime
| Fixed (start end_ : Z).

(** The [params] of the one obligation the engine builds itself,
    [{ amount }]. *)
Record Obligation := mkObligation { ob_type : string; ob_amount : Z }.

Inductive Outcome := allow | deny | skip.

Record RuleResult := mkRuleResult {
  rs_outcome : Outcome;
  rs_explanation : string;
  rs_obligations : option (list Obligation)
}.

Record Entitlement := mkEntitlement {
  ent_limit : option Z;
  ent_window : option WindowSpec
}.

Record LimitCheckResult := mkLimitCheckResult {
  lc_allowed : bool;
  lc_remaining : option Z;
  lc_obligation : option Obligation
}.

(** ** time.ts *)

(** The functions of [date-fns] and [date-fns-tz] that time.ts imports;
    they work on the fields of a date in the zone of the process. *)
Class DateFns := {
  startOfHour : Z -> Z;
  startOfDay : Z -> Z;
  startOfWeekMonday : Z -> Z;
  startOfMonth : Z -> Z;
  startOfYear : Z -> Z;
  endOfHour : Z -> Z;
  endOfDay : Z -> Z;
  endOfWeekMonday : Z -> Z;
  endOfMonth : Z -> Z;
  endOfYear : Z -> Z;
  toZonedTime : Z -> string -> Z;
  fromZonedTime : Z -> string -> Z
}.

Definition durationToMs (duration : Duration) : Z :=
  match duration with
  | DurationMs ms => ms
  | DurationParts hours days weeks months =>
      let ms := 0 in
      let ms := match hours with Some h => ms + h * 60 * 60 * 1000 | None => ms end in
      let ms := match days with Some d => ms + d * 24 * 60 * 60 * 1000 | None => ms end in
      let ms := match weeks with Some w => ms + w * 7 * 24 * 60 * 60 * 1000 | None => ms end in
      let ms := match months with Some m => ms + m * 30 * 24 * 60 * 60 * 1000 | None => ms end in
      ms
  end.

Definition FAR_FUTURE : Z := JsDate.makeDate 9999 11 31 23 59 59 + 999.
Definition EPOCH : Z := 0.

Section TimeWindows.
Context {fns : DateFns}.

Definition getStartOfUnit (date : Z) (unit : CalendarUnit) (timezone : option string)
  : Z :=
  let workingDate :=
    match timezone with Some tz => toZonedTime date tz | None => date end in
  let result :=
    match unit with
    | Hour => startOfHour workingDate
    | Day => startOfDay workingDate
    | Week => startOfWeekMonday workingDate
    | Month => startOfMonth workingDate
    | Year => startOfYear workingDate
    end in
  match timezone with Some tz => fromZonedTime result tz | None => result end.

Definition getEndOfUnit (date : Z) (unit : CalendarUnit) (timezone : option string)
  : Z :=
  let workingDate :=
    match timezone with Some tz => toZonedTime date tz | None => date end in
  let result :=
    match unit with
    | Hour => endOfHour workingDate + 1
    | Day => endOfDay workingDate + 1
    | Week => endOfWeekMonday workingDate + 1
    | Month => endOfMonth workingDate + 1
    | Year => endOfYear workingDate + 1
    end in
  match timezone with Some tz => fromZonedTime result tz | None => result end.

(** [at] is always passed here: the default [new Date()] of the source
    is read by the caller. *)
Definition resolveWindow (spec : WindowSpec) (at_ : Z) : Interval :=
  match spec with
  | Calendar unit timezone =>
      {| istart := getStartOfUnit at_ unit timezone;
         iend := getEndOfUnit at_ unit timezone |}
  | Sliding duration =>
      let ms := durationToMs duration in
      {| istart := at_ - ms; iend := at_ |}
  | Lifetime => {| istart := EPOCH; iend := FAR_FUTURE |}
  | Fixed start end_ => {| istart := start; iend := end_ |}
  end.

End TimeWindows.

(** [date-fns] in a process whose zone is UTC, for the zone ["UTC"]. *)
Definition utcDateFns : DateFns :=
  let monthStart t :=
    JsDate.makeDate (JsDate.getUTCFullYear t) (JsDate.getUTCMonth t) 1 0 0 0 in
  let yearStart t := JsDate.makeDate (JsDate.getUTCFullYear t) 0 1 0 0 0 in
  let weekStart t :=
    JsDate.addUTCDays (JsDate.setUTCMidnight t) (- ((JsDate.getUTCDay t + 6) mod 7)) in
  {| startOfHour := fun t => t - t mod JsDate.msPerHour;
     startOfDay := JsDate.setUTCMidnight;
     startOfWeekMonday := weekStart;
     startOfMonth := monthStart;
     startOfYear := yearStart;
     endOfHour := fun t => t - t mod JsDate.msPerHour + JsDate.msPerHour - 1;
     endOfDay := fun t => JsDate.setUTCMidnight t + JsDate.msPerDay - 1;
     endOfWeekMonday := fun t => JsDate.addUTCDays (weekStart t) 7 - 1;
     endOfMonth := fun t =>
       JsDate.makeDate (JsDate.getUTCFullYear t) (JsDate.getUTCMonth t + 1) 1 0 0 0 - 1;
     endOfYear := fun t => JsDate.makeDate (JsDate.getUTCFullYear t + 1) 0 1 0 0 0 - 1;
     toZonedTime := fun t _ => t;
     fromZonedTime := fun t _ => t |}.

(** ** JavaScript numbers

    The limits, usages and amounts of limits.ts are JavaScript numbers,
    IEEE 754 doubles.  The whole numbers among them are held as integers; a
    sum or a difference is the exact result rounded to the nearest double,
    ties going to the even significand.  Every whole number up to [2 ^ 53]
    in magnitude is a double; beyond, the doubles are [ulp] apart.
    Fractions, [NaN] and the overflow to [Infinity] are not held. *)

Module JsNumber.

Definition round (x : Z) : Z :=
  if Z.abs x <=? 2 ^ 53 then x
  else
    let ulp := 2 ^ (Z.log2 (Z.abs x) - 52) in
    let below := x / ulp * ulp in
    let rest := x - below in
    if 2 * rest <? ulp then below
    else if ulp <? 2 * rest then below + ulp
    else if Z.even (x / ulp) then below
    else below + ulp.

Definition add (x y : Z) : Z := round (x + y).
Definition sub (x y : Z) : Z := round (x - y).

End JsNumber.

(** ** limits.ts *)

(** [consume] is [None] when the caller leaves it out. *)
Definition checkLimit (limit : option Z) (used : Z) (consume : option Z)
  : LimitCheckResult :=
  let consume := default 1 consume in
  match limit with
  | None => {| lc_allowed := true; lc_remaining := None; lc_obligation := None |}
  | Some limit =>
      let remaining := JsNumber.sub limit used in
      let wouldExceed := limit <? JsNumber.add used consume in
      if wouldExceed then
        {| lc_allowed := false;
           lc_remaining := Some (Z.max 0 remaining);
           lc_obligation := None |}
      else
        let obligation := {| ob_type := "consume"; ob_amount := consume |} in
        {| lc_allowed := true;
           lc_remaining := Some (JsNumber.sub remaining consume);
           lc_obligation := Some obligation |}
  end.

Definition remainingQuota (limit : option Z) (used : Z) : option Z :=
  match limit with
  | None => None
  | Some limit => Some (Z.max 0 (JsNumber.sub limit used))
  end.

(** ** policy.ts *)

Record Score := mkScore { score : Z }.

(** The resolver takes [results], [_input] and [_facts] and reads only
    [results]. *)
Definition createWeightedResolver (weights : gmap string Z)
  : list RuleResult -> Score :=
  fun results =>
    {| score :=
         fold_left (fun score result =>
                      match rs_outcome result with
                      | allow => score + 1
                      | _ => score
                      end)
           results 0 |}.

(** The score of the design: the weight of each rule that allowed, the
    rules being paired with their results in rule order; a rule without an
    entry in the table weighs nothing. *)
Definition weightedScore (weights : gmap string Z) (ruleIds : list string)
    (results : list RuleResult) : Z :=
  fold_left (fun acc '(ruleId, result) =>
               match rs_outcome result with
               | allow => acc + default 0 (weights !! ruleId)
               | _ => acc
               end)
    (combine ruleIds results) 0.

(** ** entitlements.ts *)

Record Adapter := mkAdapter {
  getEntitlements : string -> gmap string Entitlement;
  getUsage : string -> string -> Interval -> Z
}.

(** [at] is what callers pass as the override instant; the interface
    [CheckInput] of the source has the first three fields only. *)
Record CheckInput := mkCheckInput {
  ci_actorId : string;
  ci_action : string;
  ci_consume : option Z;
  ci_at : option Z
}.

(** The template strings of the explanations, by their parameters. *)
Inductive Explanation :=
| NoEntitlementDefined (action : string)
| ActionAllowed (remaining : option Z)
| LimitExceeded (used : Z) (limit : option Z).

Record Reason := mkReason {
  rn_rule : string;
  rn_outcome : Outcome;
  rn_explanation : Explanation
}.

Record Trace := mkTrace {
  tr_evaluatedAt : Z;
  tr_durationMs : Z;
  tr_entitlements : gmap string Entitlement;
  tr_usage : option (string * Z)
}.

Record Decision := mkDecision {
  dc_allowed : bool;
  dc_reasons : list Reason;
  dc_obligations : list Obligation;
  dc_trace : Trace
}.

(** The effects of a query: the calls made on the adapter, in order, and
    the readings of the clock ([new Date()]). *)
Inductive AdapterCall :=
| GetEntitlementsCall (actorId : string)
| GetUsageCall (actorId action : string) (interval : Interval).

Record World := mkWorld {
  w_clock : Z;
  w_adapter : Adapter;
  w_calls : list AdapterCall
}.

Definition Query (A : Type) : Type := World -> A * World.

#[export] Instance query_ret : MRet Query := fun A (a : A) w => (a, w).
#[export] Instance query_bind : MBind Query :=
  fun A B (k : A -> Query B) (m : Query A) w => let '(a, w') := m w in k a w'.

Definition newDate : Query Z := fun w => (w_clock w, w).

Definition callGetEntitlements (actorId : string) : Query (gmap string Entitlement) :=
  fun w =>
    (getEntitlements (w_adapter w) actorId,
     {| w_clock := w_clock w; w_adapter := w_adapter w;
        w_calls := w_calls w ++ [GetEntitlementsCall actorId] |}).

Definition callGetUsage (actorId action : string) (interval : Interval) : Query Z :=
  fun w =>
    (getUsage (w_adapter w) actorId action interval,
     {| w_clock := w_clock w; w_adapter := w_adapter w;
        w_calls := w_calls w ++ [GetUsageCall actorId action interval] |}).

Section EntitlementQueries.
Context {fns : DateFns}.

(** The queries read [entitlements[action]] as an own property; an
    action that names a member of [Object.prototype] and no entitlement
    of the actor finds that member in the code ([knownAction] names the
    other actions). *)

(** [resolveWindow(spec)] with [at] left to its default. *)
Definition resolveWindowNow (spec : WindowSpec) : Query Interval :=
  at_ ← newDate; mret (resolveWindow spec at_).

Definition check (input : CheckInput) : Query Decision :=
  let actorId := ci_actorId input in
  let action := ci_action input in
  let consume := default 1 (ci_consume input) in
  entitlements ← callGetEntitlements actorId;
  match entitlements !! action with
  | None =>
      evaluatedAt ← newDate;
      mret {| dc_allowed := false;
              dc_reasons :=
                [ {| rn_rule := "entitlement-exists";
                     rn_outcome := deny;
                     rn_explanation := NoEntitlementDefined action |} ];
              dc_obligations := [];
              dc_trace :=
                {| tr_evaluatedAt := evaluatedAt; tr_durationMs := 0;
                   tr_entitlements := entitlements; tr_usage := None |} |}
  | Some entitlement =>
      used ←
        match ent_limit entitlement, ent_window entitlement with
        | Some _, Some window =>
            interval ← resolveWindowNow window;
            callGetUsage actorId action interval
        | Some _, None =>
            interval ← resolveWindowNow Lifetime;
            callGetUsage actorId action interval
        | None, _ => mret 0
        end;
      let result := checkLimit (ent_limit entitlement) used (Some consume) in
      let obligations :=
        match lc_obligation result with
        | Some obligation => [obligation]
        | None => []
        end in
      evaluatedAt ← newDate;
      mret {| dc_allowed := lc_allowed result;
              dc_reasons :=
                [ {| rn_rule := "limit-check";
                     rn_outcome := if lc_allowed result then allow else deny;
                     rn_explanation :=
                       if lc_allowed result
                       then ActionAllowed (lc_remaining result)
                       else LimitExceeded used (ent_limit entitlement) |} ];
              dc_obligations := obligations;
              dc_trace :=
                {| tr_evaluatedAt := evaluatedAt; tr_durationMs := 0;
                   tr_entitlements := entitlements;
                   tr_usage := Some (action, used) |} |}
  end.

(** The [getUsage] calls of a run, in order. *)
Definition usageCalls (w : World) : list Interval :=
  flat_map (fun c => match c with
                     | GetUsageCall _ _ interval => [interval]
                     | GetEntitlementsCall _ => []
                     end)
    (w_calls w).

End EntitlementQueries.

(** ** Concrete inputs used in the examples below *)

Module Examples.

Definition minutes (n : Z) : Z := n * 60 * 1000.
Definition hours (n : Z) : Z := n * 60 * 60 * 1000.

(** 2024-01-01T00:00:00Z, a monday. *)
Definition jan1 : Z := JsDate.UTC 2024 0 1 0 0 0.

Definition weekdays : list DayOfWeek :=
  [monday; tuesday; wednesday; thursday; friday].

(** Monday to friday, 09:00 to 17:00, UTC. *)
Definition officeHours : Schedule :=
  {| sch_id := "default";
     sch_rules :=
       [ {| sr_days := weekdays;
            sr_startTime := mkLocalTime 9 0; sr_endTime := mkLocalTime 17 0;
            sr_timezone := "UTC";
            sr_effectiveFrom := None; sr_effectiveUntil := None |} ];
     sch_overrides := None |}.

Definition host1 : HostSchedules :=
  {| hs_hostId := "host-1";
     hs_schedules := {[ "default"%string := officeHours ]} |}.

Definition consultation : EventType :=
  {| et_id := "consultation"; et_length := minutes 30;
     et_scheduleKey := None; et_bufferBefore := None; et_bufferAfter := None;
     et_slotInterval := None; et_minimumNotice := None;
     et_maximumLeadTime := None; et_maxPerDay := None; et_maxPerWeek := None;
     et_hostOverrides := None |}.

Definition oneDay : DateRange := {| istart := jan1; iend := jan1 + hours 24 |}.

(** One host, office hours, 30-minute events, over 2024-01-01. *)
Definition basicInput : GetAvailableSlotsInput :=
  {| in_eventType := consultation; in_hosts := [host1]; in_bookings := [];
     in_blocks := None; in_range := oneDay; in_eventTypes := None |}.


(** The same query with both buffers of minus 30 minutes and a lead time
    of two hours, asked at 10:00. *)
Definition negativeBuffers : EventType :=
  {| et_id := "consultation"; et_length := minutes 30;
     et_scheduleKey := None;
     et_bufferBefore := Some (minutes (-30)); et_bufferAfter := Some (minutes (-30));
     et_slotInterval := None; et_minimumNotice := None;
     et_maximumLeadTime := Some (hours 2);
     et_maxPerDay := None; et_maxPerWeek := None;
     et_hostOverrides := None |}.

Definition negativeBufferInput : GetAvailableSlotsInput :=
  {| in_eventType := negativeBuffers; in_hosts := [host1]; in_bookings := [];
     in_blocks := None; in_range := oneDay; in_eventTypes := None |}.

Definition tenOClock : Z := jan1 + hours 10.

Definition slotAt (start : Z) : Slot :=
  {| slot_hostId := "host-1"; slot_start := start; slot_end := start + minutes 30;
     slot_bufferBefore := None; slot_bufferAfter := None |}.


(** At most two consultations a day, and the bookings already made. *)
Definition capped (maxPerDay : Z) : EventType :=
{| et_id := "consultation"; et_length := minutes 30;
   et_scheduleKey := None; et_bufferBefore := None; et_bufferAfter := None;
   et_slotInterval := None; et_minimumNotice := None;
   et_maximumLeadTime := None; et_maxPerDay := Some maxPerDay; et_maxPerWeek := None;
   et_hostOverrides := None |}.

Definition bookingAt (start : Z) : Booking :=
{| bk_id := None; bk_hostId := "host-1"; bk_start := start;
   bk_end := start + minutes 30; bk_eventTypeId := Some "consultation"%string |}.

(** Cap of two a day, one consultation already booked at 10:00. *)
Definition cappedInput : GetAvailableSlotsInput :=
{| in_eventType := capped 2; in_hosts := [host1];
   in_bookings := [bookingAt (jan1 + hours 10)];
   in_blocks := None; in_range := oneDay; in_eventTypes := None |}.



(** Addendum A of the design: mornings only, a booked [initial_visit]
    (15 minutes of buffer after) from 10:00 to 10:30, and a [follow_up]
    (5 minutes of buffer after) being asked for. *)
Definition mornings : Schedule :=
{| sch_id := "default";
   sch_rules :=
     [ {| sr_days := weekdays;
          sr_startTime := mkLocalTime 9 0; sr_endTime := mkLocalTime 12 0;
          sr_timezone := "UTC";
          sr_effectiveFrom := None; sr_effectiveUntil := None |} ];
   sch_overrides := None |}.

Definition followUp : EventType :=
{| et_id := "follow_up"; et_length := minutes 30;
   et_scheduleKey := None; et_bufferBefore := None;
   et_bufferAfter := Some (minutes 5);
   et_slotInterval := Some (minutes 30); et_minimumNotice := None;
   et_maximumLeadTime := None; et_maxPerDay := None; et_maxPerWeek := None;
   et_hostOverrides := None |}.

Definition asymmetricInput : GetAvailableSlotsInput :=
{| in_eventType := followUp;
   in_hosts := [ {| hs_hostId := "host-1";
                    hs_schedules := {[ "default"%string := mornings ]} |} ];
   in_bookings :=
     [ {| bk_id := None; bk_hostId := "host-1"; bk_start := jan1 + hours 10;
          bk_end := jan1 + hours 10 + minutes 30;
          bk_eventTypeId := Some "initial_visit"%string |} ];
   in_blocks := None; in_range := oneDay;
   in_eventTypes :=
     Some {[ "initial_visit"%string :=
               {| bc_bufferBefore := None; bc_bufferAfter := Some (minutes 15) |} ]} |}.

(** Every other monday, 09:00 to 10:00 UTC, anchored on monday
    2020-12-28, the first day of ISO week 53 of 2020. *)
Definition dec28 : Z := JsDate.UTC 2020 11 28 0 0 0.

Definition everyOtherMonday : RecurrenceRule :=
{| rr_frequency := biweekly; rr_days := Some [monday]; rr_dayOfMonth := None;
   rr_startTime := mkLocalTime 9 0; rr_endTime := mkLocalTime 10 0;
   rr_timezone := "UTC"; rr_start := Some dec28; rr_until := None;
   rr_count := None; rr_exclude := None |}.

(** The three weeks from 2020-12-28. *)
Definition threeWeeks : DateRange := {| istart := dec28; iend := dec28 + hours (21 * 24) |}.

(** Every day from 10:00 to 09:00 UTC: the end is before the start. *)
Definition endsBeforeItStarts : RecurrenceRule :=
{| rr_frequency := daily; rr_days := None; rr_dayOfMonth := None;
   rr_startTime := mkLocalTime 10 0; rr_endTime := mkLocalTime 9 0;
   rr_timezone := "UTC"; rr_start := None; rr_until := None;
   rr_count := None; rr_exclude := None |}.

(** Ten [api-calls] a day (UTC); nothing used yet. *)
Definition dailyQuota : WindowSpec := Calendar Day (Some "UTC"%string).

Definition quotaAdapter : Adapter :=
{| getEntitlements := fun _ =>
     {[ "api-calls"%string :=
          {| ent_limit := Some 10; ent_window := Some dailyQuota |} ]};
   getUsage := fun _ _ _ => 0 |}.

(** The override instant of the test: 2024-01-15T12:34:00Z. *)
Definition overrideInstant : Z := JsDate.UTC 2024 0 15 12 34 0.

(** The clock of the process when the query runs: 2025-06-01T08:00:00Z. *)
Definition wallClock : Z := JsDate.UTC 2025 5 1 8 0 0.

Definition checkWithOverride : CheckInput :=
{| ci_actorId := "user1"; ci_action := "api-calls"; ci_consume := None;
   ci_at := Some overrideInstant |}.

Definition startWorld : World :=
{| w_clock := wallClock; w_adapter := quotaAdapter; w_calls := [] |}.

(** One rule, [premium], of weight five, which allowed. *)
Definition premiumWeights : gmap string Z := {[ "premium"%string := 5 ]}.

Definition premiumAllowed : list RuleResult :=
[ {| rs_outcome := allow; rs_explanation := "ok"; rs_obligations := None |} ].

End Examples.

(** ** Predicates used in the statements and proofs *)

Definition valid (i : Interval) : Prop := istart i < iend i.

(** Every interval starts after [e], is non-empty, and starts after the
    end of the one before it. *)
Fixpoint sepAfter (e : Z) (l : list Interval) : Prop :=
  match l with
  | [] => True
  | a :: l' => e < istart a /\ valid a /\ sepAfter (iend a) l'
  end.

(** The normal form [mergeIntervals] produces. *)
Definition Merged (l : list Interval) : Prop :=
  match l with
  | [] => True
  | a :: l' => valid a /\ sepAfter (iend a) l'
  end.

(** The list [validIntervals] after the sort. *)
Definition sortedValid (intervals : list Interval) : list Interval :=
  array_sort cmpStartEnd
    (map cloneInterval (List.filter (fun i => istart i <? iend i) intervals)).

(** The intervals of [l] are non-empty, follow one another without
    overlap, and lie between [lo] and [hi]. *)
Fixpoint orderedWithin (lo hi : Z) (l : list Interval) : Prop :=
  match l with
  | [] => lo <= hi
  | a :: l' => lo <= istart a /\ valid a /\ orderedWithin (iend a) hi l'
  end.

(** Non-empty intervals in order, none starting before [e] or before the
    end of its predecessor. *)
Fixpoint chainAfter (e : Z) (l : list Interval) : Prop :=
  match l with
  | [] => True
  | a :: l' => e <= istart a /\ valid a /\ chainAfter (iend a) l'
  end.

(** The number of elements of [l] that satisfy [p]. *)
Definition countIf {A : Type} (p : A -> bool) (l : list A) : Z :=
  Z.of_nat (length (List.filter p l)).

(** ** More predicates used in the statements and proofs *)

(** The instant [t] lies in the half-open interval [i]. *)
Definition inInterval (i : Interval) (t : Z) : Prop := istart i <= t < iend i.

(** The first interval of [l], if any, starts after [e]. *)
Definition startsAfter (e : Z) (l : list Interval) : Prop :=
  match l with
  | [] => True
  | a :: _ => e < istart a
  end.

(** The input with another list of hosts. *)
Definition withHosts (input : GetAvailableSlotsInput) (hosts : list HostSchedules)
  : GetAvailableSlotsInput :=
  {| in_eventType := in_eventType input; in_hosts := hosts;
     in_bookings := in_bookings input; in_blocks := in_blocks input;
     in_range := in_range input; in_eventTypes := in_eventTypes input |}.

(** The host has a schedule under the key resolved for it. *)
Definition hasSchedule (input : GetAvailableSlotsInput) (h : HostSchedules) : bool :=
  match hs_schedules h
        !! default "default"%string
             (et_scheduleKey (resolveHostConfig (in_eventType input) (hs_hostId h))) with
  | Some _ => true
  | None => false
  end.

(** ** More concrete inputs *)

Module MoreExamples.





(** A weekly rule that names no weekday. *)
Definition weeklyWithoutDays : RecurrenceRule :=
{| rr_frequency := weekly; rr_days := None; rr_dayOfMonth := None;
   rr_startTime := mkLocalTime 9 0; rr_endTime := mkLocalTime 10 0;
   rr_timezone := "UTC"; rr_start := None; rr_until := None;
   rr_count := None; rr_exclude := None |}.

End MoreExamples.

(** ** The three arrays [expandSchedule] fills while it walks the days *)

Section ScheduleArrays.
Context {intl : Intl}.

Definition defaultTimezone (schedule : Schedule) : string :=
  match sch_rules schedule with
  | rule0 :: _ => sr_timezone rule0
  | [] => "UTC"%string
  end.

(** [intervals] *)
Definition ruleIntervals (schedule : Schedule) (range : DateRange) : list Interval :=
  flat_map (dayRuleIntervals schedule) (iterateDays range).

(** [overridesToRemove] *)
Definition overridesToRemove (schedule : Schedule) (range : DateRange)
  : list Interval :=
  flat_map (dayOverridesToRemove schedule (defaultTimezone schedule)) (iterateDays range).

(** [overridesToAdd] *)
Definition overridesToAdd (schedule : Schedule) (range : DateRange) : list Interval :=
  flat_map (dayOverridesToAdd schedule (defaultTimezone schedule)) (iterateDays range).

(** The requested hours and minutes after the local midnight of the day
    [date] falls on in [timezone], as a wall-clock reading. *)
Definition wallClockOn (timezone : string) (date : Z) (time : LocalTime) : Z :=
  JsDate.dayOf (zonedTime date timezone) * JsDate.msPerDay
  + lt_hours time * JsDate.msPerHour + lt_minutes time * JsDate.msPerMinute.

End ScheduleArrays.

(** ** time.ts: the next reset *)

(** [addHours], [addDays], [addWeeks], [addMonths] and [addYears] of
    [date-fns]. *)
Module DateFnsAdd.
Class Fns := {
  addHours : Z -> Z -> Z;
  addDays : Z -> Z -> Z;
  addWeeks : Z -> Z -> Z;
  addMonths : Z -> Z -> Z;
  addYears : Z -> Z -> Z
}.
End DateFnsAdd.

Section NextReset.
Context {fns : DateFns} {add : DateFnsAdd.Fns}.

Definition addUnit (date : Z) (unit : CalendarUnit) (amount : Z) : Z :=
  match unit with
  | Hour => DateFnsAdd.addHours date amount
  | Day => DateFnsAdd.addDays date amount
  | Week => DateFnsAdd.addWeeks date amount
  | Month => DateFnsAdd.addMonths date amount
  | Year => DateFnsAdd.addYears date amount
  end.

(** [at] is always passed here, as for [resolveWindow]. *)
Definition nextReset (spec : WindowSpec) (at_ : Z) : option Z :=
  match spec with
  | Calendar unit timezone => Some (addUnit (getStartOfUnit at_ unit timezone) unit 1)
  | Sliding duration =>
      let ms := durationToMs duration in
      Some (at_ + ms)
  | Lifetime => None
  | Fixed _ _ => None
  end.

End NextReset.

(** ** limits.ts: availableAt *)

(** The [reason] strings of an [Availability], by their parameters. *)
Inductive AvailabilityReason :=
| LifetimeLimitReached
| FixedWindowLimitReached
| CannotDetermineResetTime
| LimitResetsAt (resetTime : Z)
| NoEntitlementFor (action : string).

Inductive Availability :=
| StatusNow
| StatusAt (at_ : Z) (reason : AvailabilityReason)
| StatusNever (reason : AvailabilityReason)
| StatusUnknown (reason : AvailabilityReason).

Section Limits.
Context {fns : DateFns} {add : DateFnsAdd.Fns}.

(** [availableAt] of limits.ts, under the name entitlements.ts imports it
    by; [at] is always passed.  The answer [at] carries the reset time
    rendered by [toISOString], which throws for an invalid date
    ([resetValid] names the others). *)
Definition computeAvailableAt (limit : option Z) (used : Z) (window : option WindowSpec)
    (at_ : Z) : Availability :=
  match limit with
  | None => StatusNow
  | Some limit =>
      if used <? limit then StatusNow
      else
        match window with
        | None => StatusNever LifetimeLimitReached
        | Some Lifetime => StatusNever LifetimeLimitReached
        | Some (Fixed _ _) => StatusNever FixedWindowLimitReached
        | Some window =>
            match nextReset window at_ with
            | None => StatusUnknown CannotDetermineResetTime
            | Some resetTime => StatusAt resetTime (LimitResetsAt resetTime)
            end
        end
  end.

End Limits.

(** ** entitlements.ts: the other queries *)

Record CapabilitiesInput := mkCapabilitiesInput {
  cpi_actorId : string;
  cpi_actions : list string
}.

Record AvailableAtInput := mkAvailableAtInput {
  aai_actorId : string;
  aai_action : string
}.

Record RemainingUsesInput := mkRemainingUsesInput {
  rui_actorId : string;
  rui_action : string
}.

Record RemainingUses := mkRemainingUses {
  ru_uses : option Z;
  ru_limitedBy : option string
}.

Record QuotaState := mkQuotaState {
  qs_name : string;
  qs_limit : option Z;
  qs_used : Z;
  qs_remaining : option Z;
  qs_window : option WindowSpec;
  qs_resetsAt : option Z;
  qs_interval : option Interval
}.

Inductive ActionCapability :=
| CapAvailable (quota : option QuotaState) (obligations : list Obligation)
| CapExhausted (reason : Explanation) (availableAt : option Z) (quota : QuotaState)
| CapUnavailable (reason : Explanation).

Record Summary := mkSummary {
  sm_available : list string;
  sm_exhausted : list string;
  sm_unavailable : list string
}.

Record Capabilities := mkCapabilities {
  cp_actions : gmap string ActionCapability;
  cp_summary : Summary
}.

Section MoreEntitlementQueries.
Context {fns : DateFns} {add : DateFnsAdd.Fns}.

(** The block [// Load usage] of [capabilities] and [availableAt]: the
    usage, and the interval it was read over. *)
Definition loadUsage (actorId action : string) (entitlement : Entitlement)
  : Query (Z * option Interval) :=
  match ent_limit entitlement, ent_window entitlement with
  | Some _, Some window =>
      interval ← resolveWindowNow window;
      used ← callGetUsage actorId action interval;
      mret (used, Some interval)
  | Some _, None =>
      interval ← resolveWindowNow Lifetime;
      used ← callGetUsage actorId action interval;
      mret (used, Some interval)
  | None, _ => mret (0, None)
  end.

(** The number [used] that block leaves behind: the usage the adapter
    reports over the window resolved at the clock, or over the lifetime
    window when the entitlement has none; 0 for an unlimited entitlement,
    for which the adapter is not asked. *)
Definition usageOf (w : World) (actorId action : string) (entitlement : Entitlement)
  : Z :=
  match ent_limit entitlement with
  | Some _ =>
      getUsage (w_adapter w) actorId action
        (resolveWindow (default Lifetime (ent_window entitlement)) (w_clock w))
  | None => 0
  end.

(** [nextReset(spec)] and [computeAvailableAt({...})] with [at] left to
    its default. *)
Definition nextResetNow (spec : WindowSpec) : Query (option Z) :=
  at_ ← newDate; mret (nextReset spec at_).

Definition computeAvailableAtNow (limit : option Z) (used : Z)
    (window : option WindowSpec) : Query Availability :=
  at_ ← newDate; mret (computeAvailableAt limit used window at_).

(** The part of the loop bodies of [capabilities] and [dashboard] from
    [// Load usage] to [quotaState]. *)
Definition quotaStateOf (actorId action : string) (entitlement : Entitlement)
  : Query QuotaState :=
  loaded ← loadUsage actorId action entitlement;
  let used := fst loaded in
  let interval := snd loaded in
  let remaining := remainingQuota (ent_limit entitlement) used in
  resetsAt ←
    match ent_window entitlement with
    | Some window => nextResetNow window
    | None => mret None
    end;
  mret {| qs_name := action; qs_limit := ent_limit entitlement; qs_used := used;
          qs_remaining := remaining; qs_window := ent_window entitlement;
          qs_resetsAt := resetsAt; qs_interval := interval |}.

(** The loop [for (const action of actions)], from the state [result],
    [summary]. *)
Fixpoint capabilitiesLoop (actorId : string) (entitlements : gmap string Entitlement)
    (actions : list string) (result : gmap string ActionCapability)
    (summary : Summary) : Query Capabilities :=
  match actions with
  | [] => mret {| cp_actions := result; cp_summary := summary |}
  | action :: rest =>
      match entitlements !! action with
      | None =>
          capabilitiesLoop actorId entitlements rest
            (<[action := CapUnavailable (NoEntitlementDefined action)]> result)
            {| sm_available := sm_available summary;
               sm_exhausted := sm_exhausted summary;
               sm_unavailable := sm_unavailable summary ++ [action] |}
      | Some entitlement =>
          quotaState ← quotaStateOf actorId action entitlement;
          let used := qs_used quotaState in
          if match ent_limit entitlement with
             | Some limit => limit <=? used
             | None => false
             end
          then
            availability ←
              computeAvailableAtNow (ent_limit entitlement) used
                (ent_window entitlement);
            capabilitiesLoop actorId entitlements rest
              (<[action := CapExhausted (LimitExceeded used (ent_limit entitlement))
                             match availability with
                             | StatusAt at_ _ => Some at_
                             | _ => None
                             end
                             quotaState]> result)
              {| sm_available := sm_available summary;
                 sm_exhausted := sm_exhausted summary ++ [action];
                 sm_unavailable := sm_unavailable summary |}
          else
            let limitResult := checkLimit (ent_limit entitlement) used (Some 1) in
            capabilitiesLoop actorId entitlements rest
              (<[action := CapAvailable
                             match ent_limit entitlement with
                             | None => None
                             | Some _ => Some quotaState
                             end
                             match lc_obligation limitResult with
                             | Some obligation => [obligation]
                             | None => []
                             end]> result)
              {| sm_available := sm_available summary ++ [action];
                 sm_exhausted := sm_exhausted summary;
                 sm_unavailable := sm_unavailable summary |}
      end
  end.

Definition capabilities (input : CapabilitiesInput) : Query Capabilities :=
  let actorId := cpi_actorId input in
  let actions := cpi_actions input in
  entitlements ← callGetEntitlements actorId;
  capabilitiesLoop actorId entitlements actions ∅
    {| sm_available := []; sm_exhausted := []; sm_unavailable := [] |}.

Definition availableAt (input : AvailableAtInput) : Query Availability :=
  let actorId := aai_actorId input in
  let action := aai_action input in
  entitlements ← callGetEntitlements actorId;
  match entitlements !! action with
  | None => mret (StatusNever (NoEntitlementFor action))
  | Some entitlement =>
      loaded ← loadUsage actorId action entitlement;
      computeAvailableAtNow (ent_limit entitlement) (fst loaded) (ent_window entitlement)
  end.

Definition remainingUses (input : RemainingUsesInput) : Query RemainingUses :=
  let actorId := rui_actorId input in
  let action := rui_action input in
  entitlements ← callGetEntitlements actorId;
  match entitlements !! action with
  | None => mret {| ru_uses := Some 0; ru_limitedBy := Some "no-entitlement"%string |}
  | Some entitlement =>
      match ent_limit entitlement with
      | None => mret {| ru_uses := None; ru_limitedBy := None |}
      | Some limit =>
          used ←
            match ent_window entitlement with
            | Some window =>
                interval ← resolveWindowNow window;
                callGetUsage actorId action interval
            | None =>
                interval ← resolveWindowNow Lifetime;
                callGetUsage actorId action interval
            end;
          mret {| ru_uses := Some (Z.max 0 (JsNumber.sub limit used));
                  ru_limitedBy := Some action |}
      end
  end.

End MoreEntitlementQueries.

(** [date-fns] additions in a process whose zone is UTC; [addMonths]
    keeps the day of the month, or takes the last day of a shorter
    month. *)
Definition utcDateFnsAdd : DateFnsAdd.Fns :=
  let addMonthsUTC t n :=
    let year := JsDate.getUTCFullYear t in
    let month := JsDate.getUTCMonth t + n in
    let daysInMonth :=
      JsDate.dayOf (JsDate.makeDate year (month + 1) 1 0 0 0)
      - JsDate.dayOf (JsDate.makeDate year month 1 0 0 0) in
    JsDate.makeDate year month (Z.min (JsDate.getUTCDate t) daysInMonth) 0 0 0
    + JsDate.timeInDay t in
  {| DateFnsAdd.addHours := fun t n => t + n * JsDate.msPerHour;
     DateFnsAdd.addDays := fun t n => JsDate.addUTCDays t n;
     DateFnsAdd.addWeeks := fun t n => JsDate.addUTCDays t (7 * n);
     DateFnsAdd.addMonths := addMonthsUTC;
     DateFnsAdd.addYears := fun t n => addMonthsUTC t (12 * n) |}.

(** ** JavaScript objects

    The records of the two packages are plain objects.  A read
    [record[key]] gives the own property of that name and, when there is
    none, what [Object.prototype] holds under it: one of its functions, or
    the prototype itself for [__proto__].  Its members are those of
    ECMA-262 with Annex B. *)

Definition objectPrototypeKeys : list string :=
  [ "constructor"; "hasOwnProperty"; "isPrototypeOf"; "propertyIsEnumerable";
    "toLocaleString"; "toString"; "valueOf"; "__proto__";
    "__defineGetter__"; "__defineSetter__"; "__lookupGetter__";
    "__lookupSetter__" ]%string.

Definition isPrototypeKey (key : string) : bool :=
  existsb (String.eqb key) objectPrototypeKeys.

(** ** policy.ts

    A policy is generic in the input, in the values of the facts
    ([unknown] in the source) and in the outcome.  A
    [Record<string, FactDefinition>] is held as the list of its entries, in
    the order [Object.keys] gives them.  A loader and a rule return a
    value or throw (for an asynchronous one: resolve or reject); they are
    taken to leave the facts record they are handed as it is, and the
    resolver to return.  The clocks
    [evaluate] reads for the trace ([new Date()], [performance.now()]) are
    left out; the trace keeps the facts. *)

Inductive PolicyError :=
| CircularDependency (name : string)
| UnknownFact (name dep : string)
| TypeError
| Thrown (error : string).

(** The result of a computation that can throw; [OutOfFuel] is the
    recursion of the model running out, which the proofs rule out. *)
Inductive Run (A : Type) :=
| Done (a : A)
| Throw (e : PolicyError)
| OutOfFuel.
Arguments Done {A} a.
Arguments Throw {A} e.
Arguments OutOfFuel {A}.

(** What a call of a loader or of a rule gives. *)
Inductive Returns (A : Type) :=
| Returned (a : A)
| Raised (error : string).
Arguments Returned {A} a.
Arguments Raised {A} error.

Record SortState := mkSortState {
  ss_result : list string;
  ss_visited : gset string;
  ss_visiting : gset string
}.

Record PolicyReason := mkPolicyReason {
  pr_rule : string;
  pr_outcome : Outcome;
  pr_explanation : string
}.

Record Allowed := mkAllowed { allowed : bool }.

Section Policy.
Context {Input Value TOutcome : Type}.

Record FactDefinition := mkFactDefinition {
  fd_name : string;
  fd_depends : option (list string);
  fd_load : Input -> gmap string Value -> Returns Value
}.

Record Rule := mkRule {
  rl_id : string;
  rl_description : string;
  rl_evaluate : gmap string Value -> Input -> Returns RuleResult
}.

Record Policy := mkPolicy {
  pl_facts : list (string * FactDefinition);
  pl_rules : list Rule;
  pl_resolve : list RuleResult -> Input -> gmap string Value -> TOutcome
}.

Record PolicyDecision := mkPolicyDecision {
  pd_outcome : TOutcome;
  pd_reasons : list PolicyReason;
  pd_obligations : list Obligation;
  pd_facts : gmap string Value
}.

(** The own property [name] of [facts]. *)
Definition lookupFact (facts : list (string * FactDefinition)) (name : string)
  : option FactDefinition :=
  match find (fun entry => String.eqb (fst entry) name) facts with
  | Some entry => Some (snd entry)
  | None => None
  end.

(** Whether [facts[key]] is truthy: an own definition, or a member of
    [Object.prototype]. *)
Definition recordHas (facts : list (string * FactDefinition)) (key : string) : bool :=
  match lookupFact facts key with
  | Some _ => true
  | None => isPrototypeKey key
  end.

(** The loop [for (const dep of fact.depends)] of [visit(name)]. *)
Fixpoint visitDeps (visit : string -> SortState -> Run SortState)
    (facts : list (string * FactDefinition)) (name : string) (deps : list string)
    (st : SortState) : Run SortState :=
  match deps with
  | [] => Done st
  | dep :: rest =>
      if negb (recordHas facts dep) then Throw (UnknownFact name dep)
      else
        match visit dep st with
        | Done st' => visitDeps visit facts name rest st'
        | Throw e => Throw e
        | OutOfFuel => OutOfFuel
        end
  end.

(** [visit(name)]; the state holds [result], [visited] and [visiting].
    [facts[name]] has a [depends] only when it is an own definition: the
    members of [Object.prototype] have none. *)
Fixpoint visit (fuel : nat) (facts : list (string * FactDefinition)) (name : string)
    (st : SortState) : Run SortState :=
  match fuel with
  | O => OutOfFuel
  | S fuel' =>
      if decide (name ∈ ss_visited st) then Done st
      else if decide (name ∈ ss_visiting st) then Throw (CircularDependency name)
      else
        let st := {| ss_result := ss_result st; ss_visited := ss_visited st;
                     ss_visiting := ss_visiting st ∪ {[name]} |} in
        let fact := lookupFact facts name in
        match
          match fact with
          | Some fact =>
              match fd_depends fact with
              | Some depends => visitDeps (visit fuel' facts) facts name depends st
              | None => Done st
              end
          | None => Done st
          end
        with
        | Done st =>
            Done {| ss_result := ss_result st ++ [name];
                    ss_visited := ss_visited st ∪ {[name]};
                    ss_visiting := ss_visiting st ∖ {[name]} |}
        | Throw e => Throw e
        | OutOfFuel => OutOfFuel
        end
  end.

(** The loop [for (const name of Object.keys(facts))]. *)
Fixpoint visitAll (fuel : nat) (facts : list (string * FactDefinition))
    (names : list string) (st : SortState) : Run SortState :=
  match names with
  | [] => Done st
  | name :: rest =>
      match visit fuel facts name st with
      | Done st' => visitAll fuel facts rest st'
      | Throw e => Throw e
      | OutOfFuel => OutOfFuel
      end
  end.

(** The recursion of [visit] is never deeper than the number of facts
    plus one. *)
Definition topologicalSort (facts : list (string * FactDefinition)) : Run (list string) :=
  match visitAll (S (length facts)) facts (map fst facts)
          {| ss_result := []; ss_visited := ∅; ss_visiting := ∅ |} with
  | Done st => Done (ss_result st)
  | Throw e => Throw e
  | OutOfFuel => OutOfFuel
  end.

(** The loop of [loadFacts].  For a name that is no own definition,
    [factDefs[name]] is a member of [Object.prototype], which has no
    [load]: the call [def.load(...)] is a [TypeError]. *)
Fixpoint loadInOrder (factDefs : list (string * FactDefinition)) (input : Input)
    (order : list string) (facts : gmap string Value) : Run (gmap string Value) :=
  match order with
  | [] => Done facts
  | name :: rest =>
      match lookupFact factDefs name with
      | Some def =>
          match fd_load def input facts with
          | Returned value => loadInOrder factDefs input rest (<[name := value]> facts)
          | Raised error => Throw (Thrown error)
          end
      | None => Throw TypeError
      end
  end.

Definition loadFacts (factDefs : list (string * FactDefinition)) (input : Input)
  : Run (gmap string Value) :=
  match topologicalSort factDefs with
  | Done order => loadInOrder factDefs input order ∅
  | Throw e => Throw e
  | OutOfFuel => OutOfFuel
  end.

(** The loop of [evaluateRules], from the state [results], [reasons]. *)
Fixpoint evaluateRulesFrom (rules : list Rule) (facts : gmap string Value)
    (input : Input) (results : list RuleResult) (reasons : list PolicyReason)
  : Run (list RuleResult * list PolicyReason) :=
  match rules with
  | [] => Done (results, reasons)
  | rule :: rest =>
      match rl_evaluate rule facts input with
      | Returned result =>
          evaluateRulesFrom rest facts input (results ++ [result])
            (reasons ++ [ {| pr_rule := rl_id rule;
                             pr_outcome := rs_outcome result;
                             pr_explanation := rs_explanation result |} ])
      | Raised error => Throw (Thrown error)
      end
  end.

Definition evaluateRules (rules : list Rule) (facts : gmap string Value) (input : Input)
  : Run (list RuleResult * list PolicyReason) :=
  evaluateRulesFrom rules facts input [] [].

(** The reasons of rules that returned the given results. *)
Definition reasonsOf (rules : list Rule) (results : list RuleResult)
  : list PolicyReason :=
  map (fun '(rule, result) =>
         {| pr_rule := rl_id rule;
            pr_outcome := rs_outcome result;
            pr_explanation := rs_explanation result |})
    (combine rules results).

Definition collectObligations (results : list RuleResult) : list Obligation :=
  fold_left (fun obligations result =>
               match rs_outcome result, rs_obligations result with
               | allow, Some obs => obligations ++ obs
               | _, _ => obligations
               end)
    results [].

Definition evaluate (policy : Policy) (input : Input) : Run PolicyDecision :=
  match loadFacts (pl_facts policy) input with
  | Done facts =>
      match evaluateRules (pl_rules policy) facts input with
      | Done (results, reasons) =>
          let outcome := pl_resolve policy results input facts in
          let obligations := collectObligations results in
          Done {| pd_outcome := outcome; pd_reasons := reasons;
                  pd_obligations := obligations; pd_facts := facts |}
      | Throw e => Throw e
      | OutOfFuel => OutOfFuel
      end
  | Throw e => Throw e
  | OutOfFuel => OutOfFuel
  end.

(** The names [fact.depends] lists, none when the field is absent. *)
Definition dependsOf (facts : list (string * FactDefinition)) (name : string)
  : list string :=
  match lookupFact facts name with
  | Some fact => default [] (fd_depends fact)
  | None => []
  end.

(** [a] lists [b] among its dependencies. *)
Definition DependsOn (facts : list (string * FactDefinition)) (a b : string) : Prop :=
  In b (dependsOf facts a).

End Policy.

Arguments FactDefinition : clear implicits.
Arguments Rule : clear implicits.
Arguments Policy : clear implicits.
Arguments PolicyDecision : clear implicits.

Definition resolveAllMustAllow (results : list RuleResult) : Allowed :=
  let denied :=
    existsb (fun r => match rs_outcome r with deny => true | _ => false end) results in
  {| allowed := negb denied |}.

Definition resolveAnyMustAllow (results : list RuleResult) : Allowed :=
  let allowed :=
    existsb (fun r => match rs_outcome r with allow => true | _ => false end) results in
  {| allowed := allowed |}.

(** [d] comes before [n] in the list [l]. *)
Definition Before (d n : string) (l : list string) : Prop :=
  exists l1 l2, l = l1 ++ n :: l2 /\ In d l1.

(** The names [topologicalSort] comes to visit: the facts, and the
    members of [Object.prototype] that a fact lists among its
    dependencies. *)
Definition Visitable {Input Value : Type}
    (facts : list (string * FactDefinition Input Value)) (n : string) : Prop :=
  In n (map fst facts)
  \/ (isPrototypeKey n = true /\ exists m, DependsOn facts m n).

(** What holds of the state of [topologicalSort] between two visits:
    [visited] is the set of the names in [result]; no name is in [result]
    twice; every name in [result] comes after its dependencies; no name
    being visited is in [visited]; and every name in [result] is one the
    sort comes to visit. *)
Definition SortInv {Input Value : Type} (facts : list (string * FactDefinition Input Value))
    (st : SortState) : Prop :=
  (forall n, n ∈ ss_visited st <-> In n (ss_result st))
  /\ List.NoDup (ss_result st)
  /\ (forall n d, In n (ss_result st) -> In d (dependsOf facts n) ->
                  Before d n (ss_result st))
  /\ (forall n, n ∈ ss_visiting st -> n ∉ ss_visited st)
  /\ (forall n, In n (ss_result st) -> Visitable facts n).

(** What an error thrown by [topologicalSort] reports. *)
Definition ErrorFound {Input Value : Type}
    (facts : list (string * FactDefinition Input Value)) (e : PolicyError) : Prop :=
  match e with
  | CircularDependency name => tc (DependsOn facts) name name
  | UnknownFact name dep =>
      In dep (dependsOf facts name) /\ recordHas facts dep = false
  | TypeError => False
  | Thrown _ => False
  end.

(** ** The inputs the model of the slot engine stands for

    The instants and the durations of the model are whole numbers of
    milliseconds.  In the code a [Duration] is a [number], and
    [new Date(x)] cuts the fraction of [x] off and gives an invalid date
    when [x] is more than [JsDate.maxTime] from the epoch.  For one entry
    of [hosts] the model is the code when the durations are whole numbers
    and [hostInDomain] holds: the dates the code builds from the clock,
    the notice, the lead time and the buffered bookings are valid, and the
    length and the buffers the slots are placed with are not negative.
    Then every date the code builds for the host is valid, and a sum that
    leaves the whole numbers a double holds exactly (those up to [2 ^ 53])
    is beyond the end of every free interval before and after the
    rounding, so that the loop of [generateCandidateSlots] ends at the
    same slot. *)

Definition validTime (t : Z) : bool :=
  (- JsDate.maxTime <=? t) && (t <=? JsDate.maxTime).

Definition validInterval (i : Interval) : bool :=
  validTime (istart i) && validTime (iend i).

(** The read [record[key]] gives the entry the record has under [key], or
    nothing: [key] is not the name of a member of [Object.prototype] that
    the record has no entry under. *)
Definition ownOrPlain {A : Type} (record : gmap string A) (key : string) : bool :=
  match record !! key with
  | Some _ => true
  | None => negb (isPrototypeKey key)
  end.

(** The write [record[key] = value] makes the entry [key]; under
    [__proto__] it sets the prototype of the record instead. *)
Definition settableKey (key : string) : bool := negb (String.eqb key "__proto__").

(** [schedules[scheduleKey]] is such a read. *)
Definition plainScheduleKey (input : GetAvailableSlotsInput) (h : HostSchedules) : bool :=
  ownOrPlain (hs_schedules h)
    (default "default"%string
       (et_scheduleKey (resolveHostConfig (in_eventType input) (hs_hostId h)))).

(** What is asked of one entry of [hosts] and of the configuration
    resolved for it. *)
Definition hostInDomain (input : GetAvailableSlotsInput) (now : Z) (h : HostSchedules)
  : bool :=
  let config := resolveHostConfig (in_eventType input) (hs_hostId h) in
  (0 <=? et_length config)
  && (0 <=? default 0 (et_bufferBefore config))
  && (0 <=? default 0 (et_bufferAfter config))
  && validTime (now + default 0 (et_minimumNotice config))
  && match et_maximumLeadTime config with
     | Some lead => validTime (now + lead)
     | None => true
     end
  && forallb validInterval (busyIntervals input (hs_hostId h))
  && plainScheduleKey input h.

(** The same of every entry of [hosts] for [hostId], whatever the entries
    for other hosts are. *)
Definition inDomain (input : GetAvailableSlotsInput) (now : Z) (hostId : string) : bool :=
  forallb (fun h => negb (String.eqb (hs_hostId h) hostId) || hostInDomain input now h)
    (in_hosts input).

(** Monday 0100-01-04T00:00Z.  From this instant on the years the week
    functions hand to [Date.UTC] are 100 or later, which [Date.UTC] takes
    as they are. *)
Definition firstPlainWeek : Z := JsDate.makeDate 100 0 4 0 0 0.

(** The wall-clock readings whose year has four digits, 1000 to 9999:
    those for which the date string helpers.ts builds from the rendering
    of the year is an ISO date string. *)
Definition fourDigitYear (reading : Z) : bool :=
  (JsDate.makeDate 1000 0 1 0 0 0 <=? reading)
  && (reading <? JsDate.makeDate 10000 0 1 0 0 0).

(** A wall-clock time of the day that is not in the hour after midnight,
    which a formatter with [hour12: false] renders as 0 in some runtimes
    and as 24 in others. *)
Definition afterFirstHour (reading : Z) : bool :=
  JsDate.msPerHour <=? JsDate.timeInDay reading.

(** A time [HH:MM] of the day. *)
Definition timeOfDay (time : LocalTime) : bool :=
  (0 <=? lt_hours time) && (lt_hours time <=? 23)
  && (0 <=? lt_minutes time) && (lt_minutes time <=? 59).

(** A runtime whose zone database holds the zone [Etc/GMT-5], five hours
    ahead of UTC all year; every other zone keeps UTC time. *)
Definition fixedZoneIntl : Intl :=
  {| tzOffset := fun zone _ =>
       if String.eqb zone "Etc/GMT-5" then 5 * JsDate.msPerHour else 0;
     localeCompare := fun a b =>
       if String.eqb a b then 0 else if String.ltb a b then -1 else 1 |}.


(** ** The inputs the model of the entitlement queries stands for

    Limits, usages and amounts are whole numbers.  A limit below
    [2 ^ 53] in magnitude, and a usage and an amount between 0 and
    [2 ^ 53], are numbers for which the comparisons and the results of
    [checkLimit] are those of exact arithmetic.  The answer [at] of
    limits.ts renders the reset time with [toISOString], which throws for
    an invalid date. *)

Definition limitInRange (limit : Z) : bool := Z.abs limit <? 2 ^ 53.

Definition countInRange (n : Z) : bool := (0 <=? n) && (n <=? 2 ^ 53).

Section EntitlementDomain.
Context {fns : DateFns} {add : DateFnsAdd.Fns}.

Definition resetValid (window : option WindowSpec) (at_ : Z) : bool :=
  match window with
  | Some spec =>
      match nextReset spec at_ with
      | Some resetTime => validTime resetTime
      | None => true
      end
  | None => true
  end.

(** [entitlements[action]] is the entitlement the actor has for the
    action, or nothing. *)
Definition knownAction (w : World) (actorId action : string) : bool :=
  ownOrPlain (getEntitlements (w_adapter w) actorId) action.

(** The limit of the action, if any, and the usage the adapter reports
    against it are in range. *)
Definition countsInRange (w : World) (actorId action : string) : bool :=
  match getEntitlements (w_adapter w) actorId !! action with
  | Some entitlement =>
      match ent_limit entitlement with
      | Some limit =>
          limitInRange limit && countInRange (usageOf w actorId action entitlement)
      | None => true
      end
  | None => true
  end.

(** When the limit of the action is reached, its window, if any, resets
    at a valid date. *)
Definition resetsValid (w : World) (actorId action : string) : bool :=
  match getEntitlements (w_adapter w) actorId !! action with
  | Some entitlement =>
      match ent_limit entitlement with
      | Some limit =>
          (usageOf w actorId action entitlement <? limit)
          || resetValid (ent_window entitlement) (w_clock w)
      | None => true
      end
  | None => true
  end.

End EntitlementDomain.

(** ** Concrete inputs with buffers, notice and lead time *)

Module BufferedExamples.

(** Thirty minutes, ten minutes of buffer before and five after, at
    least an hour ahead and at most six. *)
Definition checkup : EventType :=
{| et_id := "checkup"; et_length := Examples.minutes 30;
   et_scheduleKey := None;
   et_bufferBefore := Some (Examples.minutes 10);
   et_bufferAfter := Some (Examples.minutes 5);
   et_slotInterval := None;
   et_minimumNotice := Some (Examples.hours 1);
   et_maximumLeadTime := Some (Examples.hours 6);
   et_maxPerDay := None; et_maxPerWeek := None;
   et_hostOverrides := None |}.

(** Office hours, an [initial_visit] (15 minutes of buffer after) booked
    from 11:00 to 11:30. *)
Definition checkupInput : GetAvailableSlotsInput :=
{| in_eventType := checkup; in_hosts := [Examples.host1];
   in_bookings :=
     [ {| bk_id := None; bk_hostId := "host-1";
          bk_start := Examples.jan1 + Examples.hours 11;
          bk_end := Examples.jan1 + Examples.hours 11 + Examples.minutes 30;
          bk_eventTypeId := Some "initial_visit"%string |} ];
   in_blocks := None; in_range := Examples.oneDay;
   in_eventTypes :=
     Some {[ "initial_visit"%string :=
               {| bc_bufferBefore := None;
                  bc_bufferAfter := Some (Examples.minutes 15) |} ]} |}.

(** The query is made at 08:30. *)
Definition halfPastEight : Z := Examples.jan1 + Examples.hours 8 + Examples.minutes 30.

Definition checkupAt (start : Z) : Slot :=
{| slot_hostId := "host-1"; slot_start := start;
   slot_end := start + Examples.minutes 30;
   slot_bufferBefore :=
     Some {| istart := start - Examples.minutes 10; iend := start |};
   slot_bufferAfter :=
     Some {| istart := start + Examples.minutes 30;
             iend := start + Examples.minutes 35 |} |}.

(** The slots of [checkupInput] at 08:30: the free time is 09:30 to 11:00
    and 11:45 to 14:30. *)
Definition checkupSlots : list Slot :=
  map (fun m => checkupAt (Examples.jan1 + Examples.minutes m))
    [580; 610; 715; 745; 775; 805; 835].

(** Another host with office hours. *)
Definition host3 : HostSchedules :=
{| hs_hostId := "host-3";
   hs_schedules := {[ "default"%string := Examples.officeHours ]} |}.

(** At most two consultations a day and three a week over the week of
    2024-01-01; [host-1] has one booked on monday from 09:00 to 13:00, and
    [host-3] is listed twice. *)
Definition cappedWeek : EventType :=
{| et_id := "consultation"; et_length := Examples.hours 4;
   et_scheduleKey := None; et_bufferBefore := None; et_bufferAfter := None;
   et_slotInterval := None; et_minimumNotice := None;
   et_maximumLeadTime := None; et_maxPerDay := Some 2; et_maxPerWeek := Some 3;
   et_hostOverrides := None |}.

Definition cappedWeekInput : GetAvailableSlotsInput :=
{| in_eventType := cappedWeek; in_hosts := [Examples.host1; host3; host3];
   in_bookings :=
     [ {| bk_id := None; bk_hostId := "host-1";
          bk_start := Examples.jan1 + Examples.hours 9;
          bk_end := Examples.jan1 + Examples.hours 13;
          bk_eventTypeId := Some "consultation"%string |} ];
   in_blocks := None;
   in_range := {| istart := Examples.jan1;
                  iend := Examples.jan1 + Examples.hours (7 * 24) |};
   in_eventTypes := None |}.

Definition consultationAt (hostId : string) (start : Z) : Slot :=
{| slot_hostId := hostId; slot_start := start;
   slot_end := start + Examples.hours 4;
   slot_bufferBefore := None; slot_bufferAfter := None |}.

(** What the query returns at [jan1]: for [host-1] monday 13:00 and
    tuesday 09:00; for each entry of [host-3] monday 09:00 and 13:00 and
    tuesday 09:00. *)
Definition cappedWeekSlots : list Slot :=
  map (fun '(hostId, m) => consultationAt hostId (Examples.jan1 + Examples.minutes m))
    [ ("host-3", 540); ("host-3", 540); ("host-1", 780); ("host-3", 780);
      ("host-3", 780); ("host-1", 1980); ("host-3", 1980); ("host-3", 1980) ]%string.

(** Consultations on the schedule [telehealth], which [host-1] does not
    have and [host-4] has. *)
Definition telehealth : EventType :=
{| et_id := "telehealth-visit"; et_length := Examples.minutes 30;
   et_scheduleKey := Some "telehealth"%string;
   et_bufferBefore := None; et_bufferAfter := None;
   et_slotInterval := None; et_minimumNotice := None;
   et_maximumLeadTime := None; et_maxPerDay := None; et_maxPerWeek := None;
   et_hostOverrides := None |}.

Definition host4 : HostSchedules :=
{| hs_hostId := "host-4";
   hs_schedules := {[ "default"%string := Examples.officeHours;
                      "telehealth"%string := Examples.mornings ]} |}.

Definition telehealthInput : GetAvailableSlotsInput :=
{| in_eventType := telehealth; in_hosts := [Examples.host1; host4];
   in_bookings := []; in_blocks := None; in_range := Examples.oneDay;
   in_eventTypes := None |}.

(** The first free interval of [checkupInput] at 08:30. *)
Definition beforeTheBooking : Interval :=
{| istart := Examples.jan1 + Examples.hours 9 + Examples.minutes 30;
   iend := Examples.jan1 + Examples.hours 11 |}.

Definition newYear100 : Z := JsDate.makeDate 100 0 1 0 0 0.




(** Ten [api-calls] a day, all used; five [exports] in any hour, two
    used; [reports] without limit. *)
Definition meteredAdapter : Adapter :=
{| getEntitlements := fun _ =>
     {[ "api-calls"%string :=
          {| ent_limit := Some 10; ent_window := Some Examples.dailyQuota |};
        "exports"%string :=
          {| ent_limit := Some 5;
             ent_window := Some (Sliding (DurationMs (Examples.hours 1))) |};
        "reports"%string := {| ent_limit := None; ent_window := None |} ]};
   getUsage := fun _ action _ =>
     if String.eqb action "api-calls" then 10
     else if String.eqb action "exports" then 2 else 0 |}.

Definition meteredWorld : World :=
{| w_clock := Examples.wallClock; w_adapter := meteredAdapter; w_calls := [] |}.

Definition threeExports : CheckInput :=
{| ci_actorId := "user1"; ci_action := "exports"; ci_consume := Some 3;
   ci_at := None |}.

Definition fourActions : CapabilitiesInput :=
{| cpi_actorId := "user1";
   cpi_actions := ["api-calls"; "exports"; "reports"; "uploads"]%string |}.

End BufferedExamples.

(** ** Concrete policies *)

Module PolicyExamples.

(** The [usage] of an actor is read from its [plan], which is loaded
    first; the only rule allows while the usage is within a hundred. *)
Definition planFact : FactDefinition unit Z :=
{| fd_name := "plan"; fd_depends := None;
   fd_load := fun _ _ => Returned 3 |}.

Definition usageFact : FactDefinition unit Z :=
{| fd_name := "usage"; fd_depends := Some ["plan"%string];
   fd_load := fun _ facts =>
     match facts !! "plan"%string with
     | Some plan => Returned (plan * 10)
     | None => Raised "plan is not loaded"
     end |}.

Definition withinQuota : Rule unit Z :=
{| rl_id := "within-quota"; rl_description := "usage within the quota";
   rl_evaluate := fun facts _ =>
     match facts !! "usage"%string with
     | Some usage =>
         if usage <=? 100
         then Returned {| rs_outcome := allow; rs_explanation := "within quota";
                          rs_obligations :=
                            Some [ {| ob_type := "consume"; ob_amount := 1 |} ] |}
         else Returned {| rs_outcome := deny; rs_explanation := "over quota";
                          rs_obligations := None |}
     | None => Raised "usage is not loaded"
     end |}.

Definition quotaPolicy : Policy unit Z Allowed :=
{| pl_facts := [("usage"%string, usageFact); ("plan"%string, planFact)];
   pl_rules := [withinQuota];
   pl_resolve := fun results _ _ => resolveAllMustAllow results |}.

(** A fact that lists [toString] among its dependencies. *)
Definition inheritedDependency : list (string * FactDefinition unit Z) :=
  [ ("a"%string,
     {| fd_name := "a"; fd_depends := Some ["toString"%string];
        fd_load := fun _ _ => Returned 0 |}) ].

(** A loader that throws. *)
Definition failingLoader : Policy unit Z Allowed :=
{| pl_facts :=
     [ ("plan"%string,
        {| fd_name := "plan"; fd_depends := None;
           fd_load := fun _ _ => Raised "no connection" |}) ];
   pl_rules := [withinQuota];
   pl_resolve := fun results _ _ => resolveAllMustAllow results |}.

End PolicyExamples.

(** * Properties *)

(** ** Array.prototype.sort *)

Section ArraySortFacts.
Context {A : Type} (cmp : A -> A -> Z).

Lemma sort_insert_In x y l : In y (sort_insert cmp x l) <-> y = x \/ In y l.
Proof.
  induction l as [|z l IH]; simpl.
  - intuition.
  - destruct (0 <? cmp x z); simpl; rewrite ?IH; intuition.
Qed.

Lemma array_sort_In y l : In y (array_sort cmp l) <-> In y l.
Proof.
  induction l as [|x l IH]; simpl; [tauto|].
  rewrite sort_insert_In, IH. intuition.
Qed.



(** A list already in order is left as it is. *)
Lemma array_sort_sorted_id l :
  Sorted (fun x y => cmp x y <= 0) l -> array_sort cmp l = l.
Proof.
  induction 1 as [|x l Hs IH Hhd]; simpl; [reflexivity|].
  rewrite IH. destruct Hhd as [|y l Hxy]; simpl; [reflexivity|].
  destruct (Z.ltb_spec 0 (cmp x y)); [lia|reflexivity].
Qed.

Section Ordered.
Hypothesis cmp_total : forall x y, 0 < cmp x y -> cmp y x <= 0.
Hypothesis cmp_trans : forall x y z, cmp x y <= 0 -> cmp y z <= 0 -> cmp x z <= 0.

Lemma sort_insert_sorted x l :
  StronglySorted (fun a b => cmp a b <= 0) l ->
  StronglySorted (fun a b => cmp a b <= 0) (sort_insert cmp x l).
Proof.
  induction 1 as [|z l Hs IH Hz]; simpl.
  - repeat constructor.
  - destruct (Z.ltb_spec 0 (cmp x z)) as [Hlt|Hle].
    + constructor; [exact IH|].
      rewrite List.Forall_forall. intros y Hy.
      apply sort_insert_In in Hy. destruct Hy as [->|Hy].
      * now apply cmp_total.
      * rewrite List.Forall_forall in Hz. now apply Hz.
    + constructor; [now constructor|].
      constructor; [exact Hle|].
      rewrite List.Forall_forall in Hz |- *. intros y Hy.
      apply cmp_trans with z; [exact Hle|now apply Hz].
Qed.

Lemma array_sort_sorted l :
  StronglySorted (fun a b => cmp a b <= 0) (array_sort cmp l).
Proof.
  induction l as [|x l IH]; simpl; [constructor|].
  now apply sort_insert_sorted.
Qed.
End Ordered.
End ArraySortFacts.

(** ** intervals.ts *)

Lemma cloneInterval_id i : cloneInterval i = i.
Proof. now destruct i. Qed.

Lemma map_cloneInterval l : map cloneInterval l = l.
Proof.
  induction l as [|a l IH]; simpl; [reflexivity|].
  now rewrite cloneInterval_id, IH.
Qed.

Lemma covers_nil t : ~ covers [] t.
Proof. intros (i & [] & _). Qed.

Lemma covers_cons a l t :
  covers (a :: l) t <-> istart a <= t < iend a \/ covers l t.
Proof.
  unfold covers; split.
  - intros (i & [<-|Hi] & Ht); [now left|right; eauto].
  - intros [Ht|(i & Hi & Ht)]; [exists a|exists i]; simpl; auto.
Qed.

Lemma covers_app l1 l2 t : covers (l1 ++ l2) t <-> covers l1 t \/ covers l2 t.
Proof.
  induction l1 as [|a l1 IH]; simpl.
  - split; [now right|]. intros [H|H]; [now apply covers_nil in H|exact H].
  - rewrite !covers_cons, IH. tauto.
Qed.

Lemma covers_ext l1 l2 t :
  (forall i, In i l1 <-> In i l2) -> covers l1 t <-> covers l2 t.
Proof.
  intros H; unfold covers; split; intros (i & Hi & Ht); exists i; split; auto;
    now apply H.
Qed.

Lemma covers_filter_valid l t :
  covers (List.filter (fun i => istart i <? iend i) l) t <-> covers l t.
Proof.
  unfold covers; split; intros (i & Hi & Ht); exists i; split; auto.
  - apply filter_In in Hi; tauto.
  - apply filter_In; split; [exact Hi|]. apply Z.ltb_lt; lia.
Qed.

Lemma cmpStartEnd_start a b : cmpStartEnd a b <= 0 -> istart a <= istart b.
Proof.
  unfold cmpStartEnd. destruct (Z.eqb_spec (istart a - istart b) 0); simpl; lia.
Qed.

Lemma cmpStartEnd_total a b : 0 < cmpStartEnd a b -> cmpStartEnd b a <= 0.
Proof.
  unfold cmpStartEnd.
  destruct (Z.eqb_spec (istart a - istart b) 0), (Z.eqb_spec (istart b - istart a) 0);
    simpl; lia.
Qed.

Lemma cmpStartEnd_trans a b c :
  cmpStartEnd a b <= 0 -> cmpStartEnd b c <= 0 -> cmpStartEnd a c <= 0.
Proof.
  unfold cmpStartEnd.
  destruct (Z.eqb_spec (istart a - istart b) 0), (Z.eqb_spec (istart b - istart c) 0),
    (Z.eqb_spec (istart a - istart c) 0); simpl; lia.
Qed.

Lemma sorted_by_start l :
  StronglySorted (fun a b => cmpStartEnd a b <= 0) l ->
  StronglySorted (fun a b => istart a <= istart b) l.
Proof.
  induction 1 as [|a l Hs IH Ha]; constructor; [exact IH|].
  eapply List.Forall_impl; [|exact Ha]. intros b; apply cmpStartEnd_start.
Qed.

Lemma sepAfter_weaken e e' l : e' <= e -> sepAfter e l -> sepAfter e' l.
Proof. destruct l as [|a l]; simpl; [tauto|]. intros He (H1 & H2 & H3). repeat split; auto. lia. Qed.

Lemma sepAfter_Forall e l : sepAfter e l -> Forall (fun b => e < istart b /\ valid b) l.
Proof.
  revert e; induction l as [|a l IH]; intros e; simpl; [constructor|].
  intros (H1 & H2 & H3). constructor; [now split|].
  apply IH. apply sepAfter_weaken with (iend a); [unfold valid in H2; lia|exact H3].
Qed.

Lemma Merged_valid l : Merged l -> Forall valid l.
Proof.
  destruct l as [|a l]; simpl; [constructor|].
  intros (Ha & Hs). constructor; [exact Ha|].
  eapply List.Forall_impl; [|apply sepAfter_Forall, Hs]. simpl; tauto.
Qed.

Lemma Merged_tail a l : Merged (a :: l) -> Merged l.
Proof. destruct l as [|b l]; simpl; tauto. Qed.

(** The shape of a sweep: it starts where [lastMerged] starts, and what
    follows is separated. *)
Lemma mergeSweep_shape rest :
  forall lastMerged,
    valid lastMerged ->
    Forall valid rest ->
    StronglySorted (fun a b => istart a <= istart b) rest ->
    exists e tl,
      mergeSweep lastMerged rest = {| istart := istart lastMerged; iend := e |} :: tl
      /\ iend lastMerged <= e /\ sepAfter e tl.
Proof.
  induction rest as [|current rest IH]; intros lastMerged Hv Hall Hs; simpl.
  - exists (iend lastMerged), []. destruct lastMerged; simpl; repeat split; lia.
  - inversion Hall as [|? ? Hc Hall']; subst.
    inversion Hs as [|? ? Hs' Hle]; subst.
    destruct (Z.leb_spec (istart current) (iend lastMerged)) as [Hov|Hgap].
    + destruct (Z.ltb_spec (iend lastMerged) (iend current)) as [Hext|Hin].
      * assert (Hv' : valid {| istart := istart lastMerged; iend := iend current |})
          by (unfold valid in *; simpl; lia).
        destruct (IH _ Hv' Hall' Hs') as (e & tl & Heq & He & Hsep).
        exists e, tl. simpl in *. repeat split; auto; lia.
      * destruct (IH _ Hv Hall' Hs') as (e & tl & Heq & He & Hsep).
        exists e, tl; auto.
    + rewrite cloneInterval_id.
      destruct (IH _ Hc Hall' Hs') as (e & tl & Heq & He & Hsep).
      exists (iend lastMerged), (mergeSweep current rest).
      destruct lastMerged as [s0 e0]; simpl in *.
      repeat split; [lia|]. rewrite Heq. simpl.
      unfold valid in *; simpl. repeat split; auto; lia.
Qed.

Lemma mergeSweep_covers rest :
  forall lastMerged t,
    Forall (fun b => istart lastMerged <= istart b) rest ->
    StronglySorted (fun a b => istart a <= istart b) rest ->
    covers (mergeSweep lastMerged rest) t
    <-> istart lastMerged <= t < iend lastMerged \/ covers rest t.
Proof.
  induction rest as [|current rest IH]; intros lastMerged t Hlo Hs; simpl.
  - rewrite covers_cons. reflexivity.
  - inversion Hlo as [|? ? Hc Hlo']; subst.
    inversion Hs as [|? ? Hs' Hle]; subst.
    rewrite (covers_cons current).
    destruct (Z.leb_spec (istart current) (iend lastMerged)) as [Hov|Hgap].
    + destruct (Z.ltb_spec (iend lastMerged) (iend current)) as [Hext|Hin].
      * rewrite IH by auto. simpl. intuition lia.
      * rewrite IH by auto. intuition lia.
    + rewrite cloneInterval_id, covers_cons, IH by auto. tauto.
Qed.

Lemma mergeSweep_separated rest :
  forall lastMerged,
    valid lastMerged -> sepAfter (iend lastMerged) rest ->
    mergeSweep lastMerged rest = lastMerged :: rest.
Proof.
  induction rest as [|current rest IH]; intros lastMerged Hv Hsep; simpl; [reflexivity|].
  destruct Hsep as (H1 & H2 & H3).
  destruct (Z.leb_spec (istart current) (iend lastMerged)); [lia|].
  rewrite cloneInterval_id, IH; auto.
Qed.

Lemma mergeIntervals_unfold intervals :
  mergeIntervals intervals =
  match sortedValid intervals with
  | [] => []
  | first :: rest => mergeSweep first rest
  end.
Proof.
  destruct intervals as [|a l]; [reflexivity|].
  unfold mergeIntervals, sortedValid.
  destruct (array_sort _ _); [reflexivity|]. now rewrite cloneInterval_id.
Qed.

Lemma sortedValid_In i intervals :
  In i (sortedValid intervals) <-> In i intervals /\ valid i.
Proof.
  unfold sortedValid. rewrite array_sort_In, map_cloneInterval, filter_In.
  unfold valid. rewrite Z.ltb_lt. reflexivity.
Qed.

Lemma sortedValid_sorted intervals :
  StronglySorted (fun a b => istart a <= istart b) (sortedValid intervals).
Proof.
  apply sorted_by_start, array_sort_sorted.
  - apply cmpStartEnd_total.
  - apply cmpStartEnd_trans.
Qed.

Lemma mergeIntervals_Merged intervals : Merged (mergeIntervals intervals).
Proof.
  rewrite mergeIntervals_unfold.
  pose proof (sortedValid_sorted intervals) as Hs.
  assert (Hv : Forall valid (sortedValid intervals)).
  { rewrite List.Forall_forall. intros i Hi. now apply sortedValid_In in Hi. }
  destruct (sortedValid intervals) as [|first rest]; [exact I|].
  inversion Hs; subst. inversion Hv; subst.
  destruct (mergeSweep_shape rest first) as (e & tl & -> & He & Hsep); auto.
  simpl. split; [unfold valid in *; simpl; lia|exact Hsep].
Qed.

Lemma mergeIntervals_covers intervals t :
  covers (mergeIntervals intervals) t <-> covers intervals t.
Proof.
  rewrite mergeIntervals_unfold.
  pose proof (sortedValid_sorted intervals) as Hs.
  transitivity (covers (sortedValid intervals) t).
  - destruct (sortedValid intervals) as [|first rest]; [reflexivity|].
    inversion Hs; subst.
    rewrite mergeSweep_covers, covers_cons by auto. reflexivity.
  - rewrite <- (covers_filter_valid intervals).
    apply covers_ext. intros i. rewrite sortedValid_In, filter_In.
    unfold valid. rewrite Z.ltb_lt. reflexivity.
Qed.

Lemma Merged_sorted_cmp l : Merged l -> Sorted (fun a b => cmpStartEnd a b <= 0) l.
Proof.
  induction l as [|a l IH]; intros Hm; [constructor|].
  constructor; [apply IH; eapply Merged_tail; eauto|].
  destruct l as [|b l]; constructor.
  destruct Hm as (Ha & Hb & _). unfold cmpStartEnd, valid in *.
  destruct (Z.eqb_spec (istart a - istart b) 0); simpl; lia.
Qed.

Lemma filter_valid_id l :
  Forall valid l -> List.filter (fun i => istart i <? iend i) l = l.
Proof.
  induction 1 as [|a l Ha _ IH]; simpl; [reflexivity|].
  destruct (Z.ltb_spec (istart a) (iend a)); [now rewrite IH|unfold valid in Ha; lia].
Qed.

(** A list in normal form is a fixed point of [mergeIntervals]. *)
Lemma mergeIntervals_fixed l : Merged l -> mergeIntervals l = l.
Proof.
  intros Hm. rewrite mergeIntervals_unfold. unfold sortedValid.
  rewrite filter_valid_id by now apply Merged_valid.
  rewrite map_cloneInterval, array_sort_sorted_id by now apply Merged_sorted_cmp.
  destruct l as [|a l]; [reflexivity|]. destruct Hm.
  now apply mergeSweep_separated.
Qed.

Lemma Merged_strongly_sorted l :
  Merged l -> StronglySorted (fun a b => istart a < istart b) l.
Proof.
  induction l as [|a l IH]; intros Hm; [constructor|].
  constructor; [apply IH; eapply Merged_tail; eauto|].
  destruct Hm as (Ha & Hs).
  eapply List.Forall_impl; [|apply sepAfter_Forall, Hs].
  unfold valid in *. simpl. intros b; lia.
Qed.

Lemma Merged_apart l :
  Merged l -> ForallOrdPairs (fun a b => iend a < istart b) l.
Proof.
  induction l as [|a l IH]; intros Hm; [constructor|].
  constructor; [|apply IH; eapply Merged_tail; eauto].
  destruct Hm as (Ha & Hs).
  eapply List.Forall_impl; [|apply sepAfter_Forall, Hs]. simpl; tauto.
Qed.

(** C3: whatever the input list (unsorted, overlapping, with empty
    intervals), [mergeIntervals] returns a list in strictly ascending
    order of start, in which every interval ends strictly before each
    later one starts (disjoint and not adjacent), and which covers exactly
    the instants covered by the non-empty intervals of the input. *)
Theorem mergeIntervals_sorted_disjoint_cover (X : list Interval) :
  StronglySorted (fun a b => istart a < istart b) (mergeIntervals X)
  /\ ForallOrdPairs (fun a b => iend a < istart b) (mergeIntervals X)
  /\ forall t,
       covers (mergeIntervals X) t
       <-> covers (List.filter (fun i => istart i <? iend i) X) t.
Proof.
  pose proof (mergeIntervals_Merged X) as Hm.
  split; [now apply Merged_strongly_sorted|].
  split; [now apply Merged_apart|].
  intros t. now rewrite mergeIntervals_covers, covers_filter_valid.
Qed.

(** An interval of [mergedA] that starts after [intervalB] ends moves the
    second pointer past [intervalB]. *)
Lemma intersectWalk_skip mergedA intervalB restB :
  sepAfter (iend intervalB) mergedA ->
  intersectWalk mergedA (intervalB :: restB) = intersectWalk mergedA restB.
Proof.
  destruct mergedA as [|a restA]; [reflexivity|].
  intros (H1 & H2 & _). unfold valid in H2. simpl.
  destruct (Z.ltb_spec (Z.max (istart a) (istart intervalB))
              (Z.min (iend a) (iend intervalB))); [lia|].
  destruct (Z.leb_spec (iend a) (iend intervalB)); [lia|]. reflexivity.
Qed.

Lemma intersectWalk_self l : Merged l -> intersectWalk l l = l.
Proof.
  induction l as [|a l IH]; intros Hm; [reflexivity|].
  pose proof (Merged_tail _ _ Hm) as Hm'. destruct Hm as (Ha & Hs).
  unfold valid in Ha. simpl.
  rewrite Z.max_id, Z.min_id.
  destruct (Z.ltb_spec (istart a) (iend a)); [|lia].
  rewrite Z.leb_refl. simpl.
  rewrite intersectWalk_skip by exact Hs.
  rewrite IH by exact Hm'. now destruct a.
Qed.

(** C8: for every list of intervals, merging twice is merging once,
    subtracting nothing is merging, and intersecting a list with itself is
    merging, as equalities of the returned lists. *)
Theorem interval_operations_idempotent (X : list Interval) :
  mergeIntervals (mergeIntervals X) = mergeIntervals X
  /\ subtractIntervals X [] = mergeIntervals X
  /\ intersectIntervals X X = mergeIntervals X.
Proof.
  pose proof (mergeIntervals_Merged X) as Hm.
  split; [now apply mergeIntervals_fixed|].
  split.
  - destruct X; reflexivity.
  - destruct X as [|a X]; [reflexivity|].
    unfold intersectIntervals. now apply intersectWalk_self.
Qed.

(** ** subtractIntervals keeps the order *)

Lemma orderedWithin_bounds l : forall lo hi, orderedWithin lo hi l -> lo <= hi.
Proof.
  induction l as [|a l IH]; simpl; intros lo hi; [tauto|].
  intros (H1 & H2 & H3). apply IH in H3. unfold valid in H2. lia.
Qed.

Lemma orderedWithin_weaken l :
  forall lo hi lo' hi',
    lo' <= lo -> hi <= hi' -> orderedWithin lo hi l -> orderedWithin lo' hi' l.
Proof.
  induction l as [|a l IH]; simpl; intros lo hi lo' hi' Hlo Hhi; [lia|].
  intros (H1 & H2 & H3). repeat split; [lia|exact H2|].
  apply IH with (iend a) hi; auto; lia.
Qed.

Lemma orderedWithin_app l1 :
  forall l2 lo mid hi,
    orderedWithin lo mid l1 -> orderedWithin mid hi l2 ->
    orderedWithin lo hi (l1 ++ l2).
Proof.
  induction l1 as [|a l1 IH]; simpl; intros l2 lo mid hi H1 H2.
  - apply orderedWithin_weaken with mid hi; auto; lia.
  - destruct H1 as (Ha & Hv & Hr). repeat split; auto. eapply IH; eauto.
Qed.

Lemma orderedWithin_flat_map (f : Interval -> list Interval) l :
  (forall a, valid a -> orderedWithin (istart a) (iend a) (f a)) ->
  forall lo hi, orderedWithin lo hi l -> orderedWithin lo hi (flat_map f l).
Proof.
  intros Hf. induction l as [|a l IH]; simpl; intros lo hi; [tauto|].
  intros (H1 & H2 & H3).
  apply orderedWithin_app with (iend a); [|now apply IH].
  apply orderedWithin_weaken with (istart a) (iend a); auto; lia.
Qed.

Lemma subtractOne_ordered sub rem :
  valid sub -> valid rem ->
  orderedWithin (istart rem) (iend rem) (subtractOne sub rem).
Proof.
  unfold valid, subtractOne, intervalsOverlap. intros Hs Hr.
  destruct (Z.ltb_spec (istart rem) (iend sub)), (Z.ltb_spec (istart sub) (iend rem));
    simpl; unfold valid; try lia.
  destruct (Z.ltb_spec (istart rem) (istart sub)), (Z.ltb_spec (iend sub) (iend rem));
    simpl; unfold valid; simpl; lia.
Qed.

Lemma subtractAll_ordered mergedSubtract interval :
  Forall valid mergedSubtract -> valid interval ->
  orderedWithin (istart interval) (iend interval) (subtractAll mergedSubtract interval).
Proof.
  intros Hsub Hv. unfold subtractAll. rewrite cloneInterval_id.
  assert (H0 : orderedWithin (istart interval) (iend interval) [interval]).
  { simpl. unfold valid in *. lia. }
  revert H0. generalize [interval] as remaining.
  induction Hsub as [|sub subs Hs _ IH]; simpl; intros remaining H0; [exact H0|].
  apply IH. apply orderedWithin_flat_map; [|exact H0].
  intros a Ha. now apply subtractOne_ordered.
Qed.

Lemma sepAfter_flat_map_ordered (f : Interval -> list Interval) l :
  (forall a, valid a -> orderedWithin (istart a) (iend a) (f a)) ->
  forall e, sepAfter e l -> exists hi, orderedWithin e hi (flat_map f l).
Proof.
  intros Hf. induction l as [|a l IH]; simpl; intros e.
  - exists e. lia.
  - intros (H1 & H2 & H3). destruct (IH _ H3) as (hi & Hhi).
    exists hi. apply orderedWithin_app with (iend a); [|exact Hhi].
    apply orderedWithin_weaken with (istart a) (iend a); auto; lia.
Qed.

Lemma Merged_flat_map_ordered (f : Interval -> list Interval) l :
  (forall a, valid a -> orderedWithin (istart a) (iend a) (f a)) ->
  Merged l -> exists lo hi, orderedWithin lo hi (flat_map f l).
Proof.
  intros Hf. destruct l as [|a l]; simpl.
  - exists 0, 0. lia.
  - intros (Ha & Hs).
    destruct (sepAfter_flat_map_ordered f l Hf _ Hs) as (hi & Hhi).
    exists (istart a), hi. apply orderedWithin_app with (iend a); auto.
Qed.

Lemma Merged_ordered l : Merged l -> exists lo hi, orderedWithin lo hi l.
Proof.
  intros Hm.
  destruct (Merged_flat_map_ordered (fun a => [a]) l) as (lo & hi & H); auto.
  - intros a Ha. simpl. unfold valid in *. lia.
  - exists lo, hi. clear Hm. revert H. generalize lo.
    induction l as [|a l IH]; simpl; auto.
    intros lo0 (H1 & H2 & H3). auto.
Qed.

Lemma orderedWithin_sorted_cmpStart l :
  forall lo hi, orderedWithin lo hi l -> Sorted (fun a b => cmpStart a b <= 0) l.
Proof.
  induction l as [|a l IH]; simpl; intros lo hi; [constructor|].
  intros (H1 & H2 & H3). constructor; [eapply IH; eauto|].
  destruct l as [|b l]; constructor.
  destruct H3 as (H3 & _). unfold cmpStart, valid in *. lia.
Qed.

(** What [subtractIntervals] returns is in order and free of overlap. *)
Lemma subtractIntervals_ordered from subtract :
  exists lo hi, orderedWithin lo hi (subtractIntervals from subtract).
Proof.
  pose proof (mergeIntervals_Merged from) as Hf.
  destruct from as [|f0 from]; [exists 0, 0; simpl; lia|].
  destruct subtract as [|s0 subtract]; [now apply Merged_ordered|].
  unfold subtractIntervals.
  destruct (Merged_flat_map_ordered
              (subtractAll (mergeIntervals (s0 :: subtract)))
              (mergeIntervals (f0 :: from))) as (lo & hi & H); auto.
  - intros a Ha. apply subtractAll_ordered; auto.
    apply Merged_valid, mergeIntervals_Merged.
  - exists lo, hi.
    rewrite array_sort_sorted_id; [exact H|].
    eapply orderedWithin_sorted_cmpStart; eauto.
Qed.

(** ** schedule.ts *)

Lemma orderedWithin_chain l : forall lo hi, orderedWithin lo hi l -> chainAfter lo l.
Proof.
  induction l as [|a l IH]; simpl; intros lo hi; [tauto|].
  intros (H1 & H2 & H3). repeat split; eauto.
Qed.

Lemma chainAfter_weaken e e' l : e' <= e -> chainAfter e l -> chainAfter e' l.
Proof.
  destruct l as [|a l]; simpl; [tauto|].
  intros He (H1 & H2 & H3). repeat split; auto. lia.
Qed.

Lemma chainAfter_Forall e l :
  chainAfter e l -> Forall (fun b => e <= istart b /\ valid b) l.
Proof.
  revert e; induction l as [|a l IH]; intros e; simpl; [constructor|].
  intros (H1 & H2 & H3). constructor; [now split|].
  apply IH. apply chainAfter_weaken with (iend a); [unfold valid in H2; lia|exact H3].
Qed.

Lemma chainAfter_strongly_sorted e l :
  chainAfter e l -> StronglySorted (fun a b => istart a < istart b) l.
Proof.
  revert e; induction l as [|a l IH]; intros e; [constructor|].
  intros (H1 & H2 & H3). constructor; [eapply IH; eauto|].
  eapply List.Forall_impl; [|apply chainAfter_Forall, H3].
  unfold valid in *. simpl. intros b; lia.
Qed.

Lemma chainAfter_disjoint e l :
  chainAfter e l -> ForallOrdPairs (fun a b => iend a <= istart b) l.
Proof.
  revert e; induction l as [|a l IH]; intros e; [constructor|].
  intros (H1 & H2 & H3). constructor; [|eapply IH; eauto].
  eapply List.Forall_impl; [|apply chainAfter_Forall, H3]. simpl; tauto.
Qed.

Section ScheduleFacts.
Context {intl : Intl}.

Lemma clipToRange_chain range l :
  forall e, chainAfter e l ->
            chainAfter (Z.max e (istart range)) (clipToRange range l).
Proof.
  unfold clipToRange.
  induction l as [|a l IH]; simpl; intros e; [tauto|].
  intros (H1 & H2 & H3). specialize (IH _ H3). unfold valid in H2.
  destruct (Z.ltb_spec (Z.max (istart a) (istart range))
              (Z.min (iend a) (iend range))) as [Hk|Hd]; simpl.
  - repeat split; [lia|unfold valid; simpl; lia|].
    eapply chainAfter_weaken; [|exact IH]. lia.
  - eapply chainAfter_weaken; [|exact IH]. lia.
Qed.

Lemma clipToRange_inside range l :
  Forall (fun i => istart range <= istart i /\ istart i < iend i
                   /\ iend i <= iend range)
    (clipToRange range l).
Proof.
  rewrite List.Forall_forall. intros i Hi. unfold clipToRange in Hi.
  apply filter_In in Hi. destruct Hi as (Hi & Hv).
  apply in_map_iff in Hi. destruct Hi as (a & <- & _).
  simpl in *. apply Z.ltb_lt in Hv. lia.
Qed.

(** The list before the final clip is in order and free of overlap. *)
Lemma expandSchedule_chain schedule range :
  exists e, chainAfter e (expandSchedule schedule range).
Proof.
  unfold expandSchedule.
  set (defaultTimezone := match sch_rules schedule with
                          | [] => _ | rule0 :: _ => _ end).
  set (days := iterateDays range).
  set (intervals := flat_map (dayRuleIntervals schedule) days).
  set (toRemove := flat_map (dayOverridesToRemove _ _) days).
  set (toAdd := flat_map (dayOverridesToAdd _ _) days).
  assert (H2 : exists lo hi,
             orderedWithin lo hi
               match toRemove with
               | [] => mergeIntervals intervals
               | _ :: _ => subtractIntervals (mergeIntervals intervals) toRemove
               end).
  { destruct toRemove; [apply Merged_ordered, mergeIntervals_Merged|].
    apply subtractIntervals_ordered. }
  assert (H3 : exists lo hi,
             orderedWithin lo hi
               match toAdd with
               | [] => match toRemove with
                       | [] => mergeIntervals intervals
                       | _ :: _ => subtractIntervals (mergeIntervals intervals) toRemove
                       end
               | _ :: _ =>
                   mergeIntervals
                     (match toRemove with
                      | [] => mergeIntervals intervals
                      | _ :: _ => subtractIntervals (mergeIntervals intervals) toRemove
                      end ++ toAdd)
               end).
  { destruct toAdd; [exact H2|]. apply Merged_ordered, mergeIntervals_Merged. }
  destruct H3 as (lo & hi & H3).
  exists (Z.max lo (istart range)).
  apply clipToRange_chain. eapply orderedWithin_chain; eauto.
Qed.

(** The generator yields every midnight from the first one up to the end
    of the range: the fuel never cuts it short. *)
Lemma iterateDaysFrom_complete fuel :
  forall current end_ k,
    0 <= k -> current + k * JsDate.msPerDay < end_ -> k < Z.of_nat fuel ->
    In (current + k * JsDate.msPerDay) (iterateDaysFrom fuel current end_).
Proof.
  induction fuel as [|fuel IH]; intros current end_ k Hk Hlt Hf; [lia|].
  simpl. unfold JsDate.msPerDay in *.
  destruct (Z.ltb_spec current end_) as [Hc|Hc]; [|lia].
  destruct (Z.eq_dec k 0) as [->|Hne]; [left; lia|right].
  replace (current + k * 86400000)
    with (JsDate.addUTCDays current 1 + (k - 1) * JsDate.msPerDay)
    by (unfold JsDate.addUTCDays, JsDate.msPerDay; lia).
  apply IH; unfold JsDate.addUTCDays, JsDate.msPerDay; lia.
Qed.

Lemma iterateDays_complete range k :
  0 <= k ->
  JsDate.setUTCMidnight (istart range) + k * JsDate.msPerDay < iend range ->
  In (JsDate.setUTCMidnight (istart range) + k * JsDate.msPerDay) (iterateDays range).
Proof.
  intros Hk Hlt. unfold iterateDays. apply iterateDaysFrom_complete; auto.
  unfold JsDate.msPerDay in *.
  set (c := JsDate.setUTCMidnight (istart range)) in *.
  assert (k <= (iend range - c) / 86400000) by (apply Z.div_le_lower_bound; lia).
  lia.
Qed.

(** C10: for every schedule and range, the list [expandSchedule] returns
    is in strictly ascending order of start, its intervals are pairwise
    disjoint (each ends no later than any later one starts), and each is
    a non-empty interval inside the range. *)
Theorem expandSchedule_sorted_disjoint (schedule : Schedule) (range : DateRange) :
  StronglySorted (fun a b => istart a < istart b) (expandSchedule schedule range)
  /\ ForallOrdPairs (fun a b => iend a <= istart b) (expandSchedule schedule range)
  /\ Forall (fun i => istart range <= istart i /\ istart i < iend i
                      /\ iend i <= iend range)
       (expandSchedule schedule range).
Proof.
  destruct (expandSchedule_chain schedule range) as (e & He).
  split; [eapply chainAfter_strongly_sorted; eauto|].
  split; [eapply chainAfter_disjoint; eauto|].
  apply clipToRange_inside.
Qed.

End ScheduleFacts.

(** ** slots.ts: candidate placement *)

Section PlaceSlots.
Variables (intervalEnd slotLength slotInterval : Z) (hostId : string)
          (bufferBefore bufferAfter : Z).

(** With a step that does not advance, a loop that starts never ends. *)
Lemma placeSlots_diverges fuel :
  forall slotStart,
    slotInterval <= 0 ->
    slotStart + slotLength + bufferAfter <= intervalEnd ->
    placeSlots fuel slotStart intervalEnd slotLength slotInterval hostId
      bufferBefore bufferAfter = None.
Proof.
  induction fuel as [|fuel IH]; intros slotStart Hsi Hc; simpl; [reflexivity|].
  destruct (Z.leb_spec (slotStart + slotLength + bufferAfter) intervalEnd); [|lia].
  rewrite IH by lia. reflexivity.
Qed.

Lemma placeSlots_sound fuel :
  forall slotStart slots,
    placeSlots fuel slotStart intervalEnd slotLength slotInterval hostId
      bufferBefore bufferAfter = Some slots ->
    Forall (fun s => slot_hostId s = hostId
                     /\ slot_end s = slot_start s + slotLength
                     /\ slotStart <= slot_start s
                     /\ slot_start s + slotLength + bufferAfter <= intervalEnd)
      slots.
Proof.
  induction fuel as [|fuel IH]; intros slotStart slots; simpl; [discriminate|].
  destruct (Z.leb_spec (slotStart + slotLength + bufferAfter) intervalEnd) as [Hc|Hc].
  - destruct (Z.le_gt_cases slotInterval 0) as [Hsi|Hsi].
    + rewrite placeSlots_diverges by lia. discriminate.
    + destruct (placeSlots fuel _ _ _ _ _ _ _) as [rest|] eqn:Hrest; [|discriminate].
      intros [= <-]. constructor; [simpl; repeat split; lia|].
      eapply List.Forall_impl; [|apply (IH _ _ Hrest)].
      simpl. intros s (H1 & H2 & H3 & H4). repeat split; auto; lia.
  - intros [= <-]. constructor.
Qed.

(** More fuel does not change a result. *)
Lemma placeSlots_more_fuel fuel :
  forall fuel' slotStart slots,
    placeSlots fuel slotStart intervalEnd slotLength slotInterval hostId
      bufferBefore bufferAfter = Some slots ->
    (fuel <= fuel')%nat ->
    placeSlots fuel' slotStart intervalEnd slotLength slotInterval hostId
      bufferBefore bufferAfter = Some slots.
Proof.
  induction fuel as [|fuel IH]; intros fuel' slotStart slots; simpl; [discriminate|].
  intros H Hle. destruct fuel' as [|fuel']; [lia|]. simpl.
  destruct (slotStart + slotLength + bufferAfter <=? intervalEnd); [|exact H].
  destruct (placeSlots fuel _ _ _ _ _ _ _) as [rest|] eqn:Hrest; [|discriminate].
  rewrite (IH fuel' _ _ Hrest) by lia. exact H.
Qed.

(** With a positive step the loop ends. *)
Lemma placeSlots_terminates fuel :
  forall slotStart,
    0 < slotInterval ->
    (1 <= fuel)%nat ->
    intervalEnd - (slotStart + slotLength + bufferAfter)
      < (Z.of_nat fuel - 1) * slotInterval ->
    exists slots,
      placeSlots fuel slotStart intervalEnd slotLength slotInterval hostId
        bufferBefore bufferAfter = Some slots.
Proof.
  induction fuel as [|fuel IH]; intros slotStart Hsi Hf Hm; [lia|]. simpl.
  destruct (Z.leb_spec (slotStart + slotLength + bufferAfter) intervalEnd) as [Hc|Hc];
    [|eauto].
  destruct (IH (slotStart + slotInterval)) as (rest & ->); eauto; nia.
Qed.
End PlaceSlots.

Lemma generateCandidateSlots_sound fuel freeIntervals slotLength slotInterval hostId
    bufferBefore bufferAfter :
  forall slots,
    generateCandidateSlots fuel freeIntervals slotLength slotInterval hostId
      bufferBefore bufferAfter = Some slots ->
    Forall (fun s => slot_hostId s = hostId
                     /\ slot_end s = slot_start s + slotLength
                     /\ exists F, In F freeIntervals
                                  /\ istart F + bufferBefore <= slot_start s
                                  /\ slot_start s + slotLength + bufferAfter <= iend F)
      slots.
Proof.
  induction freeIntervals as [|interval rest IH]; simpl; intros slots.
  - intros [= <-]. constructor.
  - destruct (placeSlots fuel _ _ _ _ _ _ _) as [here|] eqn:Hhere; [|discriminate].
    destruct (generateCandidateSlots fuel rest _ _ _ _ _) as [there|]; [|discriminate].
    intros [= <-]. apply Forall_app; split.
    + eapply List.Forall_impl; [|apply (placeSlots_sound _ _ _ _ _ _ _ _ _ Hhere)].
      simpl. intros s (H1 & H2 & H3 & H4). repeat split; auto.
      exists interval. auto.
    + eapply List.Forall_impl; [|apply IH; reflexivity].
      simpl. intros s (H1 & H2 & F & HF & H3). repeat split; auto.
      exists F. auto.
Qed.

Lemma generateCandidateSlots_more_fuel fuel fuel' freeIntervals slotLength
    slotInterval hostId bufferBefore bufferAfter :
  forall slots,
    generateCandidateSlots fuel freeIntervals slotLength slotInterval hostId
      bufferBefore bufferAfter = Some slots ->
    (fuel <= fuel')%nat ->
    generateCandidateSlots fuel' freeIntervals slotLength slotInterval hostId
      bufferBefore bufferAfter = Some slots.
Proof.
  induction freeIntervals as [|interval rest IH]; simpl; intros slots H Hle; [exact H|].
  destruct (placeSlots fuel _ _ _ _ _ _ _) as [here|] eqn:Hhere; [|discriminate].
  destruct (generateCandidateSlots fuel rest _ _ _ _ _) as [there|]; [|discriminate].
  rewrite (placeSlots_more_fuel _ _ _ _ _ _ _ _ _ _ Hhere Hle).
  rewrite (IH _ eq_refl Hle). exact H.
Qed.

Lemma generateCandidateSlots_terminates freeIntervals slotLength slotInterval hostId
    bufferBefore bufferAfter :
  0 < slotInterval ->
  exists fuel slots,
    generateCandidateSlots fuel freeIntervals slotLength slotInterval hostId
      bufferBefore bufferAfter = Some slots.
Proof.
  intros Hsi. induction freeIntervals as [|interval rest IH]; simpl.
  - exists O, []. reflexivity.
  - destruct IH as (f2 & there & Hthere).
    set (m := iend interval - (istart interval + bufferBefore + slotLength + bufferAfter)).
    set (f1 := Z.to_nat (Z.max 0 m / slotInterval + 2)).
    assert (Hq : 0 <= Z.max 0 m / slotInterval) by (apply Z.div_pos; lia).
    destruct (placeSlots_terminates (iend interval) slotLength slotInterval hostId
                bufferBefore bufferAfter f1 (istart interval + bufferBefore))
      as (here & Hhere); auto.
    { unfold f1. lia. }
    { fold m. unfold f1. rewrite Z2Nat.id by lia.
      pose proof (Z.mod_pos_bound (Z.max 0 m) slotInterval Hsi).
      pose proof (Z.div_mod (Z.max 0 m) slotInterval). nia. }
    exists (Nat.max f1 f2), (here ++ there).
    rewrite (placeSlots_more_fuel _ _ _ _ _ _ _ _ _ _ Hhere) by lia.
    rewrite (generateCandidateSlots_more_fuel _ _ _ _ _ _ _ _ _ Hthere) by lia.
    reflexivity.
Qed.

Lemma applyCaps_In maxPerDay maxPerWeek dayCount weekCount candidateSlots :
  forall candidateDayCount candidateWeekCount s,
    In s (applyCaps maxPerDay maxPerWeek dayCount weekCount
            candidateDayCount candidateWeekCount candidateSlots) ->
    In s candidateSlots.
Proof.
  induction candidateSlots as [|slot rest IH]; simpl; intros cd cw s; [tauto|].
  destruct (atCapacity maxPerDay _ _); [eauto|].
  destruct (atCapacity maxPerWeek _ _); [eauto|].
  intros [<-|H]; eauto.
Qed.

(** ** slots.ts: the slots returned *)

Section SlotFacts.
Context {intl : Intl}.

(** Steps 3 and 4 leave non-empty intervals that start no earlier than
    [now + minimumNotice] and end no later than [now + maximumLeadTime]. *)
Lemma freeIntervalsFor_clipped input currentTime hostId schedule F :
  In F (freeIntervalsFor input currentTime hostId schedule) ->
  let config := resolveHostConfig (in_eventType input) hostId in
  currentTime + default 0 (et_minimumNotice config) <= istart F
  /\ istart F < iend F
  /\ forall lead, et_maximumLeadTime config = Some lead ->
                  iend F <= currentTime + lead.
Proof.
  intros HF config. unfold freeIntervalsFor in HF. fold config in HF.
  set (base := match busyIntervals input hostId with
               | [] => _ | _ :: _ => _ end) in HF.
  destruct (et_maximumLeadTime config) as [lead|] eqn:Hlead.
  - apply filter_In in HF. destruct HF as (HF & Hv).
    apply in_map_iff in HF. destruct HF as (G & <- & HG).
    apply filter_In in HG. destruct HG as (HG & Hv').
    apply in_map_iff in HG. destruct HG as (G0 & <- & _).
    simpl in *. apply Z.ltb_lt in Hv, Hv'.
    repeat split; try lia. intros lead' [= <-]. lia.
  - apply filter_In in HF. destruct HF as (HF & Hv).
    apply in_map_iff in HF. destruct HF as (G0 & <- & _).
    simpl in *. apply Z.ltb_lt in Hv.
    repeat split; try lia. intros lead' [=].
Qed.

Lemma hostSlots_sound fuel input currentTime hostSchedules slots s :
  hostSlots fuel input currentTime hostSchedules = Some slots ->
  In s slots ->
  let hostId := hs_hostId hostSchedules in
  let config := resolveHostConfig (in_eventType input) hostId in
  slot_hostId s = hostId
  /\ slot_end s = slot_start s + et_length config
  /\ exists schedule F,
       hs_schedules hostSchedules !! default "default"%string (et_scheduleKey config)
         = Some schedule
       /\ In F (freeIntervalsFor input currentTime hostId schedule)
       /\ istart F + default 0 (et_bufferBefore config) <= slot_start s
       /\ slot_start s + et_length config + default 0 (et_bufferAfter config)
          <= iend F.
Proof.
  intros H Hs hostId config. unfold hostSlots in H. fold hostId config in H.
  destruct (hs_schedules hostSchedules !! default "default"%string
              (et_scheduleKey config)) as [schedule|] eqn:Hsch.
  2:{ injection H as <-. destruct Hs. }
  destruct (generateCandidateSlots _ _ _ _ _ _ _) as [candidateSlots|] eqn:Hgen;
    [|discriminate].
  assert (Hc : In s candidateSlots).
  { destruct (et_maxPerDay config), (et_maxPerWeek config);
      try (destruct (countBookings _ _ _) as (dayCount & weekCount);
           injection H as <-; eapply applyCaps_In; eassumption).
    injection H as <-. exact Hs. }
  pose proof (generateCandidateSlots_sound _ _ _ _ _ _ _ _ Hgen) as Hall.
  rewrite List.Forall_forall in Hall.
  destruct (Hall s Hc) as (H1 & H2 & F & HF & H3 & H4).
  repeat split; auto. exists schedule, F. auto.
Qed.

Lemma collectSlots_In fuel input currentTime hosts :
  forall allSlots s,
    collectSlots fuel input currentTime hosts = Some allSlots ->
    In s allSlots ->
    exists hostSchedules slots,
      In hostSchedules hosts
      /\ hostSlots fuel input currentTime hostSchedules = Some slots
      /\ In s slots.
Proof.
  induction hosts as [|h hosts IH]; simpl; intros allSlots s.
  - intros [= <-] [].
  - destruct (hostSlots fuel input currentTime h) as [here|] eqn:Hhere; [|discriminate].
    destruct (collectSlots fuel input currentTime hosts) as [there|]; [|discriminate].
    intros [= <-] Hs. apply in_app_or in Hs. destruct Hs as [Hs|Hs].
    + exists h, here. auto.
    + destruct (IH _ _ eq_refl Hs) as (h' & slots' & H1 & H2 & H3).
      exists h', slots'. auto.
Qed.

Lemma getAvailableSlots_In fuel input now slots s :
  getAvailableSlots fuel input now = Some slots ->
  In s slots ->
  exists hostSchedules hostSlots',
    In hostSchedules (in_hosts input)
    /\ hostSlots fuel input now hostSchedules = Some hostSlots'
    /\ In s hostSlots'.
Proof.
  unfold getAvailableSlots.
  destruct (collectSlots fuel input now (in_hosts input)) as [allSlots|] eqn:Hall;
    [|discriminate].
  intros [= <-] Hs. apply array_sort_In in Hs.
  eapply collectSlots_In; eauto.
Qed.

(** *** Termination: a positive grid step for every host is enough. *)

Lemma hostSlots_more_fuel fuel fuel' input currentTime hostSchedules slots :
  hostSlots fuel input currentTime hostSchedules = Some slots ->
  (fuel <= fuel')%nat ->
  hostSlots fuel' input currentTime hostSchedules = Some slots.
Proof.
  unfold hostSlots. intros H Hle.
  destruct (hs_schedules hostSchedules !! _) as [schedule|]; [|exact H].
  destruct (generateCandidateSlots fuel _ _ _ _ _ _) as [c|] eqn:Hgen; [|discriminate].
  rewrite (generateCandidateSlots_more_fuel _ _ _ _ _ _ _ _ _ Hgen Hle). exact H.
Qed.

Lemma hostSlots_terminates input currentTime hostSchedules :
  let config := resolveHostConfig (in_eventType input) (hs_hostId hostSchedules) in
  0 < default (et_length config) (et_slotInterval config) ->
  exists fuel slots, hostSlots fuel input currentTime hostSchedules = Some slots.
Proof.
  intros config Hsi. unfold hostSlots. fold config.
  destruct (hs_schedules hostSchedules !! _) as [schedule|]; [|exists O; eauto].
  destruct (generateCandidateSlots_terminates
              (freeIntervalsFor input currentTime (hs_hostId hostSchedules) schedule)
              (et_length config) _ (hs_hostId hostSchedules)
              (default 0 (et_bufferBefore config))
              (default 0 (et_bufferAfter config)) Hsi) as (fuel & c & Hc).
  exists fuel. rewrite Hc.
  destruct (et_maxPerDay config), (et_maxPerWeek config);
    try destruct (countBookings _ _ _); eauto.
Qed.

Lemma collectSlots_more_fuel fuel fuel' input currentTime hosts :
  forall allSlots,
    collectSlots fuel input currentTime hosts = Some allSlots ->
    (fuel <= fuel')%nat ->
    collectSlots fuel' input currentTime hosts = Some allSlots.
Proof.
  induction hosts as [|h hosts IH]; simpl; intros allSlots H Hle; [exact H|].
  destruct (hostSlots fuel input currentTime h) as [here|] eqn:Hhere; [|discriminate].
  destruct (collectSlots fuel input currentTime hosts) as [there|]; [|discriminate].
  rewrite (hostSlots_more_fuel _ _ _ _ _ _ Hhere Hle), (IH _ eq_refl Hle). exact H.
Qed.

(** When the grid step resolved for each host is positive, the query
    returns: some amount of fuel gives a result, and more fuel gives the
    same one. *)
Lemma getAvailableSlots_terminates input now :
  (forall h, In h (in_hosts input) ->
             let config := resolveHostConfig (in_eventType input) (hs_hostId h) in
             0 < default (et_length config) (et_slotInterval config)) ->
  exists fuel slots,
    forall fuel', (fuel <= fuel')%nat ->
                  getAvailableSlots fuel' input now = Some slots.
Proof.
  intros Hpos. unfold getAvailableSlots.
  assert (H : exists fuel allSlots,
             collectSlots fuel input now (in_hosts input) = Some allSlots).
  { induction (in_hosts input) as [|h hosts IH]; simpl; [exists O; eauto|].
    destruct IH as (f2 & there & Hthere); [intros; apply Hpos; now right|].
    destruct (hostSlots_terminates input now h) as (f1 & here & Hhere);
      [apply Hpos; now left|].
    exists (Nat.max f1 f2), (here ++ there).
    rewrite (hostSlots_more_fuel _ _ _ _ _ _ Hhere) by lia.
    rewrite (collectSlots_more_fuel _ _ _ _ _ _ Hthere) by lia. reflexivity. }
  destruct H as (fuel & allSlots & Hall).
  exists fuel, (array_sort cmpSlots allSlots). intros fuel' Hle.
  now rewrite (collectSlots_more_fuel _ _ _ _ _ _ Hall Hle).
Qed.

Lemma inDomain_host input now h :
  In h (in_hosts input) -> inDomain input now (hs_hostId h) = true ->
  hostInDomain input now h = true.
Proof.
  unfold inDomain. intros Hin H.
  rewrite forallb_forall in H. specialize (H h Hin).
  now rewrite String.eqb_refl in H.
Qed.

(** What [hostInDomain] asks of the numbers resolved for a host. *)
Lemma hostInDomain_config input now h :
  hostInDomain input now h = true ->
  let config := resolveHostConfig (in_eventType input) (hs_hostId h) in
  0 <= et_length config
  /\ 0 <= default 0 (et_bufferBefore config)
  /\ 0 <= default 0 (et_bufferAfter config).
Proof.
  unfold hostInDomain. cbv zeta. intros H.
  repeat (apply andb_prop in H as [H ?]).
  repeat split; now apply Z.leb_le.
Qed.

(** C1, as amended: for every input whose durations are whole numbers of
    milliseconds and every slot [s] the query returns, when for each entry
    of [hosts] for the host of [s] the length and the two buffers resolved
    are not negative, [now + minimumNotice], [now + maximumLeadTime] when
    set and the bookings and blocks of the host, inflated, are valid
    dates, and the schedule key is not the name of a member of
    [Object.prototype] that the entry has no schedule under: the slot is
    as long as the event type; it starts no earlier than
    [now + minimumNotice]; it ends no later than [now + maximumLeadTime],
    when that is set; and the slot inflated by the two buffers lies inside
    one of the free intervals computed for that host from one of its
    entries in [hosts]. *)
Theorem getAvailableSlots_slots_fit (fuel : nat) (input : GetAvailableSlotsInput)
    (now : Z) (slots : list Slot) (s : Slot) :
  getAvailableSlots fuel input now = Some slots ->
  In s slots ->
  inDomain input now (slot_hostId s) = true ->
  let config := resolveHostConfig (in_eventType input) (slot_hostId s) in
  let bufferBefore := default 0 (et_bufferBefore config) in
  let bufferAfter := default 0 (et_bufferAfter config) in
  slot_end s - slot_start s = et_length config
  /\ now + default 0 (et_minimumNotice config) <= slot_start s
  /\ (forall lead, et_maximumLeadTime config = Some lead ->
                   slot_end s <= now + lead)
  /\ exists hostSchedules schedule F,
       In hostSchedules (in_hosts input)
       /\ hs_hostId hostSchedules = slot_hostId s
       /\ hs_schedules hostSchedules
            !! default "default"%string (et_scheduleKey config) = Some schedule
       /\ In F (freeIntervalsFor input now (slot_hostId s) schedule)
       /\ istart F <= slot_start s - bufferBefore
       /\ slot_end s + bufferAfter <= iend F.
Proof.
  intros Hget Hs Hdom.
  destruct (getAvailableSlots_In _ _ _ _ _ Hget Hs) as (h & hs & Hh & Hhs & Hin).
  destruct (hostSlots_sound _ _ _ _ _ _ Hhs Hin)
    as (Hid & Hend & schedule & F & Hsch & HF & Hlo & Hhi).
  rewrite Hid in Hdom.
  pose proof (hostInDomain_config _ _ _ (inDomain_host _ _ _ Hh Hdom))
    as (_ & Hbb & Hba).
  clear Hdom. rewrite <- Hid in *.
  intros config bufferBefore bufferAfter.
  fold config in Hend, Hsch, Hlo, Hhi, Hbb, Hba.
  fold bufferBefore in Hlo, Hbb. fold bufferAfter in Hhi, Hba.
  destruct (freeIntervalsFor_clipped _ _ _ _ _ HF) as (Hn & Hv & Hl).
  fold config in Hn, Hl.
  split; [lia|]. split; [lia|]. split.
  - intros lead Hlead. specialize (Hl _ Hlead). lia.
  - exists h, schedule, F. repeat split; auto; lia.
Qed.

End SlotFacts.

(** E2E-1 of the design: sixteen slots, from 09:00 to 17:00. *)
Example basic_weekday_slots :
  option_map (map (fun s => (slot_start s - Examples.jan1) / Examples.minutes 1))
    (getAvailableSlots (intl := utcIntl) 32 Examples.basicInput Examples.jan1)
  = Some [540; 570; 600; 630; 660; 690; 720; 750; 780; 810; 840; 870; 900; 930;
          960; 990].
Proof. vm_compute. reflexivity. Qed.

(** E2E-3 of the design (asymmetric buffers): slots at 09:00, 10:45 and
    11:15. *)
Example asymmetric_buffer_slots :
  option_map (map (fun s => (slot_start s - Examples.jan1) / Examples.minutes 1))
    (getAvailableSlots (intl := utcIntl) 32 Examples.asymmetricInput Examples.jan1)
  = Some [540; 645; 675].
Proof. vm_compute. reflexivity. Qed.

(** 2024-12-30 is in ISO week 1 of 2025. *)
Example week_key_across_years :
  getWeekKey (JsDate.UTC 2024 11 30 0 0 0) = (2025, 1).
Proof. vm_compute. reflexivity. Qed.

(** The amended statement of C1 at the second slot of the buffered query:
    asked at 08:30 with an hour of notice and six of lead time, the slot
    from 10:10 to 10:40 with its buffers lies in the free interval from
    09:30 to 11:00. *)
Lemma getAvailableSlots_slots_fit_witness :
  let input := BufferedExamples.checkupInput in
  let now := BufferedExamples.halfPastEight in
  let s := BufferedExamples.checkupAt (Examples.jan1 + Examples.minutes 610) in
  let config := resolveHostConfig (in_eventType input) (slot_hostId s) in
  let bufferBefore := default 0 (et_bufferBefore config) in
  let bufferAfter := default 0 (et_bufferAfter config) in
  slot_end s - slot_start s = et_length config
  /\ now + default 0 (et_minimumNotice config) <= slot_start s
  /\ (forall lead, et_maximumLeadTime config = Some lead ->
                   slot_end s <= now + lead)
  /\ exists hostSchedules schedule F,
       In hostSchedules (in_hosts input)
       /\ hs_hostId hostSchedules = slot_hostId s
       /\ hs_schedules hostSchedules
            !! default "default"%string (et_scheduleKey config) = Some schedule
       /\ In F (freeIntervalsFor (intl := utcIntl) input now (slot_hostId s) schedule)
       /\ istart F <= slot_start s - bufferBefore
       /\ slot_end s + bufferAfter <= iend F.
Proof.
  apply (getAvailableSlots_slots_fit (intl := utcIntl) 32 BufferedExamples.checkupInput
           BufferedExamples.halfPastEight BufferedExamples.checkupSlots
           (BufferedExamples.checkupAt (Examples.jan1 + Examples.minutes 610))).
  - vm_compute. reflexivity.
  - vm_compute. right. left. reflexivity.
  - vm_compute. reflexivity.
Defined.

(** The buffered query returns the seven slots of [checkupSlots]: two
    before the booking, five after its buffer. *)
Example buffered_slots :
  option_map (map (fun s => (slot_start s - Examples.jan1) / Examples.minutes 1))
    (getAvailableSlots (intl := utcIntl) 32 BufferedExamples.checkupInput
       BufferedExamples.halfPastEight)
  = Some [580; 610; 715; 745; 775; 805; 835].
Proof. vm_compute. reflexivity. Qed.

(** C1 as stated fails on the code: with buffers of minus 30 minutes, whole
    numbers on which every date the code builds is valid, the query
    returns a slot that starts before [now + minimumNotice] and a slot
    that ends after [now + maximumLeadTime]. *)
Lemma getAvailableSlots_negative_buffers_counterexample :
  exists slots s1 s2,
    getAvailableSlots (intl := utcIntl) 32 Examples.negativeBufferInput Examples.tenOClock
    = Some slots
    /\ In s1 slots /\ In s2 slots
    /\ slot_start s1
       < Examples.tenOClock
         + default 0 (et_minimumNotice
                        (resolveHostConfig (in_eventType Examples.negativeBufferInput)
                           (slot_hostId s1)))
    /\ et_maximumLeadTime
         (resolveHostConfig (in_eventType Examples.negativeBufferInput) (slot_hostId s2))
       = Some (Examples.hours 2)
    /\ Examples.tenOClock + Examples.hours 2 < slot_end s2.
Proof.
  eexists.
  exists (Examples.slotAt (Examples.jan1 + Examples.hours 9 + Examples.minutes 30)).
  exists (Examples.slotAt (Examples.jan1 + Examples.hours 12)).
  split; [vm_compute; reflexivity|].
  split; [left; reflexivity|].
  split; [do 5 right; left; reflexivity|].
  vm_compute. repeat split; reflexivity.
Qed.

(** ** slots.ts: daily and weekly caps *)

Lemma getCount_bumpCount `{Countable K} (m : gmap K Z) (k k' : K) :
  getCount (bumpCount m k) k' = getCount m k' + (if decide (k = k') then 1 else 0).
Proof.
  unfold bumpCount, getCount. rewrite lookup_insert.
  destruct (decide (k = k')) as [->|Hne]; simpl; lia.
Qed.

Lemma getCount_empty `{Countable K} (k : K) : getCount (∅ : gmap K Z) k = 0.
Proof. unfold getCount. now rewrite lookup_empty. Qed.

(** The two maps of [countBookings] hold the numbers of matching bookings
    per day and per week. *)
Lemma countBookings_counts bookings hostId eventTypeId :
  (forall dayKey,
     getCount (fst (countBookings bookings hostId eventTypeId)) dayKey
     = bookingsOnDay bookings hostId eventTypeId dayKey)
  /\ (forall weekKey,
        getCount (snd (countBookings bookings hostId eventTypeId)) weekKey
        = bookingsInWeek bookings hostId eventTypeId weekKey).
Proof.
  unfold countBookings, bookingsOnDay, bookingsInWeek.
  set (step := fun '(dayCount, weekCount) booking => _).
  assert (Hgen : forall (acc : gmap (Z * Z * Z) Z * gmap (Z * Z) Z),
    (forall dayKey,
       getCount (fst (fold_left step bookings acc)) dayKey
       = getCount (fst acc) dayKey
         + Z.of_nat (length (List.filter
             (fun b => String.eqb (bk_hostId b) hostId
                       && bool_decide (bk_eventTypeId b = Some eventTypeId)
                       && bool_decide (getDateKey (bk_start b) = dayKey)) bookings)))
    /\ (forall weekKey,
          getCount (snd (fold_left step bookings acc)) weekKey
          = getCount (snd acc) weekKey
            + Z.of_nat (length (List.filter
                (fun b => String.eqb (bk_hostId b) hostId
                          && bool_decide (bk_eventTypeId b = Some eventTypeId)
                          && bool_decide (getWeekKey (bk_start b) = weekKey)) bookings)))).
  { induction bookings as [|b bookings IH]; intros [dayCount weekCount]; simpl.
    - split; intros; lia.
    - destruct (IH (step (dayCount, weekCount) b)) as (IHd & IHw).
      split; [intros dayKey; rewrite IHd|intros weekKey; rewrite IHw];
        subst step; simpl;
        destruct (String.eqb (bk_hostId b) hostId); simpl; try lia;
        destruct (bool_decide (bk_eventTypeId b = Some eventTypeId)); simpl; try lia;
        rewrite getCount_bumpCount.
      + destruct (decide (getDateKey (bk_start b) = dayKey)) as [He|He].
        * rewrite bool_decide_eq_true_2 by exact He. simpl length. lia.
        * rewrite bool_decide_eq_false_2 by exact He. lia.
      + destruct (decide (getWeekKey (bk_start b) = weekKey)) as [He|He].
        * rewrite bool_decide_eq_true_2 by exact He. simpl length. lia.
        * rewrite bool_decide_eq_false_2 by exact He. lia. }
  destruct (Hgen (∅, ∅)) as (Hd & Hw). simpl in Hd, Hw.
  split; intros k; [rewrite Hd|rewrite Hw]; rewrite getCount_empty; lia.
Qed.

Lemma countIf_nil {A} (p : A -> bool) : countIf p [] = 0.
Proof. reflexivity. Qed.

Lemma countIf_cons {A} (p : A -> bool) x l :
  countIf p (x :: l) = (if p x then 1 else 0) + countIf p l.
Proof. unfold countIf. simpl. destruct (p x); simpl length; lia. Qed.








Section CapFacts.
Context {intl : Intl}.









End CapFacts.


(** In that query both caps of [host-1] are reached: two on the monday
    and three in the week, the booking included. *)
Example caps_reached :
  slotsOnDay BufferedExamples.cappedWeekSlots "host-1" (2024, 1, 1)
  + bookingsOnDay (in_bookings BufferedExamples.cappedWeekInput) "host-1"
      "consultation" (2024, 1, 1) = 2
  /\ slotsInWeek BufferedExamples.cappedWeekSlots "host-1" (2024, 1)
     + bookingsInWeek (in_bookings BufferedExamples.cappedWeekInput) "host-1"
         "consultation" (2024, 1) = 3.
Proof. vm_compute. split; reflexivity. Qed.

(** ** helpers.ts: recurrence *)

(** The loop of [expandRecurrence] stops because it reaches
    [effectiveEnd] or [count], not for want of fuel: one unit per day up to
    [effectiveEnd] is enough, and more changes nothing. *)
Lemma expandLoop_fuel {intl : Intl} rule range effectiveEnd maxCount fuel :
  forall fuel' currentDate count,
    (effectiveEnd - currentDate) / JsDate.msPerDay + 1 <= Z.of_nat fuel ->
    (effectiveEnd - currentDate) / JsDate.msPerDay + 1 <= Z.of_nat fuel' ->
    expandLoop fuel rule range effectiveEnd maxCount currentDate count
    = expandLoop fuel' rule range effectiveEnd maxCount currentDate count.
Proof.
  unfold JsDate.msPerDay.
  induction fuel as [|fuel IH]; intros fuel' currentDate count Hf Hf'.
  - assert (Hneg : effectiveEnd - currentDate < 0).
    { destruct (Z.lt_ge_cases (effectiveEnd - currentDate) 0) as [|Hge]; [assumption|].
      pose proof (Z.div_pos (effectiveEnd - currentDate) 86400000 Hge). lia. }
    destruct fuel' as [|fuel']; simpl; [reflexivity|].
    destruct (Z.ltb_spec currentDate effectiveEnd); [lia|reflexivity].
  - destruct fuel' as [|fuel'].
    + assert (Hneg : effectiveEnd - currentDate < 0).
      { destruct (Z.lt_ge_cases (effectiveEnd - currentDate) 0) as [|Hge]; [assumption|].
        pose proof (Z.div_pos (effectiveEnd - currentDate) 86400000 Hge). lia. }
      simpl. destruct (Z.ltb_spec currentDate effectiveEnd); [lia|reflexivity].
    + simpl.
      assert (Hstep : (effectiveEnd - addDays currentDate 1) / 86400000
                      = (effectiveEnd - currentDate) / 86400000 - 1).
      { unfold addDays, JsDate.addUTCDays, JsDate.msPerDay.
        replace (effectiveEnd - (currentDate + 1 * 86400000))
          with (effectiveEnd - currentDate + (-1) * 86400000) by lia.
        rewrite Z.div_add by lia. lia. }
      destruct ((currentDate <? effectiveEnd)
                && match maxCount with Some m => count <? m | None => true end);
        [|reflexivity].
      destruct (occurrence rule range currentDate);
        [f_equal|]; apply IH; lia.
Qed.

(** C6: the biweekly test compares ISO week numbers and calendar years
    times 52, so only the parity of the week numbers counts.  Anchored on
    monday 2020-12-28 (week 53 of 2020), the monday one week later
    (2021-01-04, week 1 of 2021, ISO week distance 1) is in the cycle and
    the monday two weeks later (distance 2) is not; the expansion returns
    the occurrences of 2020-12-28 and 2021-01-04 and leaves 2021-01-11
    out. *)
Theorem biweekly_across_53_week_year :
  isoWeekDistance (Examples.dec28 + Examples.hours (7 * 24)) Examples.dec28 = 1
  /\ isInBiweeklyCycle (Examples.dec28 + Examples.hours (7 * 24)) Examples.dec28 = true
  /\ isoWeekDistance (Examples.dec28 + Examples.hours (14 * 24)) Examples.dec28 = 2
  /\ isInBiweeklyCycle (Examples.dec28 + Examples.hours (14 * 24)) Examples.dec28 = false
  /\ expandRecurrence (intl := utcIntl) Examples.everyOtherMonday Examples.threeWeeks
     = [ {| istart := Examples.dec28 + Examples.hours 9;
            iend := Examples.dec28 + Examples.hours 10 |};
         {| istart := Examples.dec28 + Examples.hours (7 * 24 + 9);
            iend := Examples.dec28 + Examples.hours (7 * 24 + 10) |} ].
Proof. repeat split; vm_compute; reflexivity. Qed.

(** Only the parity of the two week numbers enters the test. *)
Lemma isInBiweeklyCycle_parity date anchorDate :
  isInBiweeklyCycle date anchorDate
  = Z.even (getWeekNumber date - getWeekNumber anchorDate).
Proof.
  unfold isInBiweeklyCycle.
  set (a := getWeekNumber anchorDate). set (d := getWeekNumber date).
  set (ya := JsDate.getUTCFullYear anchorDate). set (yd := JsDate.getUTCFullYear date).
  replace (yd * 52 + d - (ya * 52 + a)) with ((d - a) + 2 * (26 * (yd - ya))) by lia.
  change (getWeekNumber date - getWeekNumber anchorDate) with (d - a).
  destruct (Z.eqb_spec (Z.rem ((d - a) + 2 * (26 * (yd - ya))) 2) 0) as [H|H].
  - symmetry. apply Z.even_spec.
    apply Z.rem_divide in H; [|lia]. destruct H as (q & Hq).
    exists (q - 26 * (yd - ya)). lia.
  - symmetry. apply not_true_is_false. intros He. apply H.
    apply Z.even_spec in He. destruct He as (q & Hq).
    apply Z.rem_divide; [lia|]. exists (q + 26 * (yd - ya)). lia.
Qed.

(** C9: [expandRecurrence] emits the occurrence of a day whatever the
    order of its two ends; a rule from 10:00 to 09:00 yields, for
    2024-01-01, the interval from 10:00 to 09:00 of that day, whose end is
    before its start. *)
Theorem expandRecurrence_emits_empty_interval :
  expandRecurrence (intl := utcIntl) Examples.endsBeforeItStarts Examples.oneDay
  = [ {| istart := Examples.jan1 + Examples.hours 10;
         iend := Examples.jan1 + Examples.hours 9 |} ]
  /\ exists i,
       In i (expandRecurrence (intl := utcIntl) Examples.endsBeforeItStarts
               Examples.oneDay)
       /\ iend i < istart i.
Proof.
  split; [vm_compute; reflexivity|].
  eexists. split; [vm_compute; left; reflexivity|]. vm_compute. reflexivity.
Qed.

(** ** limits.ts *)

(** *** Rounding to a double *)

Lemma JsNumber_round_exact x : Z.abs x <= 2 ^ 53 -> JsNumber.round x = x.
Proof.
  intros H. unfold JsNumber.round.
  destruct (Z.leb_spec (Z.abs x) (2 ^ 53)); [reflexivity|lia].
Qed.

Lemma JsNumber_ulp x :
  2 ^ 53 < x ->
  2 <= 2 ^ (Z.log2 x - 52) /\ 2 ^ 52 * 2 ^ (Z.log2 x - 52) <= x.
Proof.
  intros H.
  assert (H53 : 53 <= Z.log2 x).
  { change 53 with (Z.log2 (2 ^ 53)). apply Z.log2_le_mono. lia. }
  split.
  - change 2 with (2 ^ 1) at 1. apply Z.pow_le_mono_r; lia.
  - rewrite <- Z.pow_add_r by lia. replace (52 + (Z.log2 x - 52)) with (Z.log2 x) by lia.
    apply Z.log2_spec. lia.
Qed.

(** A whole number beyond [2 ^ 53] rounds to a double that is not below
    [2 ^ 53], and one beyond [- 2 ^ 53] to one that is not above it. *)
Lemma JsNumber_round_above x : 2 ^ 53 < x -> 2 ^ 53 <= JsNumber.round x.
Proof.
  intros H. unfold JsNumber.round. rewrite Z.abs_eq by lia.
  destruct (Z.leb_spec x (2 ^ 53)); [lia|].
  destruct (JsNumber_ulp x H) as (Hulp & Hx).
  set (ulp := 2 ^ (Z.log2 x - 52)) in *. clearbody ulp.
  assert (Hq : 2 ^ 52 <= x / ulp) by (apply Z.div_le_lower_bound; lia).
  assert (Hb : 2 ^ 53 <= x / ulp * ulp).
  { change (2 ^ 53) with (2 ^ 52 * 2). apply Z.mul_le_mono_nonneg; lia. }
  cbv zeta. repeat match goal with |- context [if ?c then _ else _] => destruct c end; lia.
Qed.

Lemma JsNumber_round_below x : x < - 2 ^ 53 -> JsNumber.round x <= - 2 ^ 53.
Proof.
  intros H. unfold JsNumber.round. rewrite Z.abs_neq by lia.
  destruct (Z.leb_spec (- x) (2 ^ 53)); [lia|].
  destruct (JsNumber_ulp (- x) ltac:(lia)) as (Hulp & Hx).
  set (ulp := 2 ^ (Z.log2 (- x) - 52)) in *. clearbody ulp. cbv zeta.
  pose proof (Z.div_mod x ulp ltac:(lia)) as Hdm.
  pose proof (Z.mod_pos_bound x ulp ltac:(lia)) as Hm.
  replace (x / ulp * ulp) with (x - x mod ulp) by lia.
  replace (x - (x - x mod ulp)) with (x mod ulp) by lia.
  destruct (Z.eq_dec (x mod ulp) 0) as [Hrest|Hrest].
  - rewrite Hrest. destruct (Z.ltb_spec (2 * 0) ulp); lia.
  - assert (Hq : x / ulp < - 2 ^ 52).
    { apply Z.div_lt_upper_bound; [lia|].
      destruct (Z.eq_dec x (- 2 ^ 52 * ulp)) as [Hx'|Hx']; [|lia].
      exfalso. apply Hrest. rewrite Hx'. apply Z.mod_mul. lia. }
    assert (Hb : x - x mod ulp + ulp <= - 2 ^ 53).
    { replace (x - x mod ulp) with (ulp * (x / ulp)) by lia.
      change (- 2 ^ 53) with (2 * - 2 ^ 52).
      assert (ulp * (x / ulp + 1) <= ulp * (- 2 ^ 52)) by (apply Z.mul_le_mono_nonneg_l; lia).
      assert (ulp * (- 2 ^ 52) <= 2 * - 2 ^ 52) by nia.
      lia. }
    repeat match goal with |- context [if ?c then _ else _] => destruct c end; lia.
Qed.

(** On counts in range [checkLimit] compares and subtracts exactly. *)
Lemma checkLimit_exact (limit used amount : Z) :
  Z.abs limit < 2 ^ 53 -> 0 <= used <= 2 ^ 53 -> 0 <= amount <= 2 ^ 53 ->
  checkLimit (Some limit) used (Some amount)
  = (if limit <? used + amount
     then {| lc_allowed := false;
             lc_remaining := Some (Z.max 0 (limit - used));
             lc_obligation := None |}
     else {| lc_allowed := true;
             lc_remaining := Some (limit - used - amount);
             lc_obligation :=
               Some {| ob_type := "consume"; ob_amount := amount |} |}).
Proof.
  intros Hlimit Hused Hamount.
  unfold checkLimit. change (default 1 (Some amount)) with amount. cbv zeta.
  unfold JsNumber.add, JsNumber.sub.
  assert (Hsum : (limit <? JsNumber.round (used + amount)) = (limit <? used + amount)).
  { destruct (Z.le_gt_cases (used + amount) (2 ^ 53)) as [Hs|Hs].
    - now rewrite JsNumber_round_exact by lia.
    - pose proof (JsNumber_round_above _ Hs).
      destruct (Z.ltb_spec limit (JsNumber.round (used + amount)));
        destruct (Z.ltb_spec limit (used + amount)); lia || reflexivity. }
  rewrite Hsum.
  destruct (Z.ltb_spec limit (used + amount)) as [Hover|Hwithin].
  - f_equal. f_equal.
    destruct (Z.le_gt_cases (- 2 ^ 53) (limit - used)) as [Hd|Hd].
    + now rewrite JsNumber_round_exact by lia.
    + pose proof (JsNumber_round_below (limit - used) ltac:(lia)). lia.
  - rewrite (JsNumber_round_exact (limit - used)) by lia.
    now rewrite JsNumber_round_exact by lia.
Qed.

(** C7, as amended: for whole numbers with [|limit| < 2 ^ 53] and [used]
    and the amount to consume between 0 and [2 ^ 53], [checkLimit] refuses
    when [used + consume] exceeds the limit, with
    [remaining = max(0, limit - used)] and no obligation, and otherwise
    allows, with [remaining = limit - used - consume] and a [consume]
    obligation of that amount; a missing [consume] counts as 1; and for
    an unlimited limit it allows, with [remaining] unlimited and no
    obligation. *)
Theorem checkLimit_cases (limit used : Z) (consume : option Z) :
  let amount := default 1 consume in
  Z.abs limit < 2 ^ 53 -> 0 <= used <= 2 ^ 53 -> 0 <= amount <= 2 ^ 53 ->
  checkLimit (Some limit) used consume
  = (if limit <? used + amount
     then {| lc_allowed := false;
             lc_remaining := Some (Z.max 0 (limit - used));
             lc_obligation := None |}
     else {| lc_allowed := true;
             lc_remaining := Some (limit - used - amount);
             lc_obligation :=
               Some {| ob_type := "consume"; ob_amount := amount |} |})
  /\ checkLimit None used consume
     = {| lc_allowed := true; lc_remaining := None; lc_obligation := None |}.
Proof.
  intros amount Hlimit Hused Hamount. split; [|reflexivity].
  rewrite <- (checkLimit_exact limit used amount Hlimit Hused Hamount).
  subst amount. destruct consume; reflexivity.
Qed.

(** C7 at 100 used of a limit of 100. *)
Lemma checkLimit_cases_witness :
  checkLimit (Some 100) 100 (Some 1)
  = (if 100 <? 100 + default 1 (Some 1)
     then {| lc_allowed := false;
             lc_remaining := Some (Z.max 0 (100 - 100));
             lc_obligation := None |}
     else {| lc_allowed := true;
             lc_remaining := Some (100 - 100 - default 1 (Some 1));
             lc_obligation :=
               Some {| ob_type := "consume"; ob_amount := default 1 (Some 1) |} |})
  /\ checkLimit None 100 (Some 1)
     = {| lc_allowed := true; lc_remaining := None; lc_obligation := None |}.
Proof.
  apply (checkLimit_cases 100 100 (Some 1)); vm_compute; split; discriminate.
Defined.

(** C7 as stated fails on the code: with a limit of [2 ^ 53], of which
    [2 ^ 53 - 1] are used, a request for 2 brings the usage to
    [2 ^ 53 + 1], over the limit; the sum rounds to [2 ^ 53], and
    [checkLimit] allows the request and reports [-1] remaining. *)
Lemma checkLimit_rounding_counterexample :
  let limit := 2 ^ 53 in
  let used := 2 ^ 53 - 1 in
  let consume := 2 in
  limit < used + consume
  /\ checkLimit (Some limit) used (Some consume)
     = {| lc_allowed := true; lc_remaining := Some (- 1);
          lc_obligation := Some {| ob_type := "consume"; ob_amount := 2 |} |}
  /\ checkLimit (Some limit) used (Some consume)
     <> {| lc_allowed := false; lc_remaining := Some (Z.max 0 (limit - used));
           lc_obligation := None |}.
Proof.
  split; [vm_compute; reflexivity|]. split; [vm_compute; reflexivity|].
  vm_compute. discriminate.
Qed.

(** ** policy.ts *)

(** The score is the number of results that allow, whatever the table. *)
Lemma createWeightedResolver_counts weights results :
  score (createWeightedResolver weights results)
  = countIf (fun r => match rs_outcome r with allow => true | _ => false end) results.
Proof.
  unfold createWeightedResolver. simpl.
  assert (H : forall acc,
             fold_left (fun score result =>
                          match rs_outcome result with
                          | allow => score + 1
                          | _ => score
                          end) results acc
             = acc + countIf (fun r => match rs_outcome r with
                                       | allow => true | _ => false end) results).
  { induction results as [|r results IH]; intros acc; simpl.
    - rewrite countIf_nil. lia.
    - rewrite IH, countIf_cons. destruct (rs_outcome r); lia. }
  rewrite H. lia.
Qed.

(** C5: the resolver built from a table that gives the one rule the
    weight 5 scores its allow result 1, where the weights sum to 5; the
    table is not read. *)
Theorem createWeightedResolver_ignores_weights :
  score (createWeightedResolver Examples.premiumWeights Examples.premiumAllowed) = 1
  /\ weightedScore Examples.premiumWeights ["premium"%string] Examples.premiumAllowed = 5
  /\ forall weights weights' results,
       createWeightedResolver weights results = createWeightedResolver weights' results.
Proof.
  split; [vm_compute; reflexivity|]. split; [vm_compute; reflexivity|].
  intros. reflexivity.
Qed.

(** ** entitlements.ts *)

Section CheckFacts.
Context {fns : DateFns}.

(** [check] does not read the override instant. *)
Lemma check_ignores_at input at_ w :
  check {| ci_actorId := ci_actorId input; ci_action := ci_action input;
           ci_consume := ci_consume input; ci_at := at_ |} w
  = check input w.
Proof. reflexivity. Qed.

(** For a limited action, [getUsage] is called once, over the window
    resolved at the clock of the process, or over the whole lifetime when
    the entitlement has no window. *)
Lemma check_usage_interval input w entitlement limit :
  getEntitlements (w_adapter w) (ci_actorId input) !! ci_action input
  = Some entitlement ->
  ent_limit entitlement = Some limit ->
  w_calls w = [] ->
  usageCalls (snd (check input w))
  = [ match ent_window entitlement with
      | Some window => resolveWindow window (w_clock w)
      | None => {| istart := EPOCH; iend := FAR_FUTURE |}
      end ].
Proof.
  intros Hent Hlimit Hcalls. destruct w as [clock adapter calls].
  simpl in *. subst calls.
  unfold check, mbind, query_bind, callGetEntitlements. simpl.
  rewrite Hent, Hlimit.
  destruct (ent_window entitlement) as [window|]; reflexivity.
Qed.

End CheckFacts.

(** C4: asked with the override instant 2024-01-15T12:34Z while the clock
    of the process reads 2025-06-01T08:00Z, [check] calls [getUsage] once,
    with the UTC day of the clock, 2025-06-01, and not with
    [resolveWindow(window, at)], the day 2024-01-15. *)
Theorem check_resolves_window_at_clock :
  usageCalls (snd (check (fns := utcDateFns) Examples.checkWithOverride
                     Examples.startWorld))
  = [ resolveWindow (fns := utcDateFns) Examples.dailyQuota Examples.wallClock ]
  /\ resolveWindow (fns := utcDateFns) Examples.dailyQuota Examples.wallClock
     = {| istart := JsDate.UTC 2025 5 1 0 0 0; iend := JsDate.UTC 2025 5 2 0 0 0 |}
  /\ resolveWindow (fns := utcDateFns) Examples.dailyQuota Examples.overrideInstant
     = {| istart := JsDate.UTC 2024 0 15 0 0 0; iend := JsDate.UTC 2024 0 16 0 0 0 |}.
Proof. repeat split; vm_compute; reflexivity. Qed.

(** ** intervals.ts: subtraction, intersection and the normal form *)

Lemma covers_In l t : covers l t <-> exists i, In i l /\ inInterval i t.
Proof. reflexivity. Qed.

Lemma covers_flat_map (f : Interval -> list Interval) l t :
  covers (flat_map f l) t <-> exists a, In a l /\ covers (f a) t.
Proof.
  induction l as [|a l IH]; simpl.
  - split; [intros H; now apply covers_nil in H|intros (a & [] & _)].
  - rewrite covers_app, IH. split.
    + intros [H|(b & Hb & H)]; [exists a|exists b]; auto.
    + intros (b & [<-|Hb] & H); [now left|right; eauto].
Qed.

Lemma subtractOne_covers sub rem t :
  covers (subtractOne sub rem) t <-> inInterval rem t /\ ~ inInterval sub t.
Proof.
  unfold subtractOne, intervalsOverlap, inInterval.
  destruct (Z.ltb_spec (istart rem) (iend sub)), (Z.ltb_spec (istart sub) (iend rem));
    simpl;
    try (rewrite covers_cons; split; [intros [?|H']; [lia|now apply covers_nil in H']
                                      |intros; left; lia]).
  destruct (Z.ltb_spec (istart rem) (istart sub)), (Z.ltb_spec (iend sub) (iend rem));
    simpl; rewrite ?covers_cons; simpl;
    (split; [intros H'; repeat (destruct H' as [H'|H']); try lia;
             now apply covers_nil in H'
            |intros; try (left; lia); try (right; left; lia); try lia]).
Qed.

Lemma subtractFold_covers subs :
  forall remaining t,
    covers (fold_left (fun remaining sub => flat_map (subtractOne sub) remaining)
              subs remaining) t
    <-> covers remaining t /\ ~ covers subs t.
Proof.
  induction subs as [|sub subs IH]; intros remaining t; simpl.
  - split; [intros H; split; [exact H|apply covers_nil]|tauto].
  - rewrite IH, covers_flat_map, covers_cons. split.
    + intros ((a & Ha & Hc) & Hn). apply subtractOne_covers in Hc.
      unfold inInterval in Hc.
      split; [exists a; tauto|tauto].
    + intros ((a & Ha & Hc) & Hn). split; [|tauto].
      exists a. split; [exact Ha|]. apply subtractOne_covers.
      unfold inInterval. tauto.
Qed.

Lemma subtractAll_covers mergedSubtract interval t :
  covers (subtractAll mergedSubtract interval) t
  <-> inInterval interval t /\ ~ covers mergedSubtract t.
Proof.
  unfold subtractAll. rewrite subtractFold_covers, cloneInterval_id, covers_cons.
  unfold inInterval. split; [intros [[H|H] Hn]; [tauto|now apply covers_nil in H]|tauto].
Qed.

Lemma subtractIntervals_covers from subtract t :
  covers (subtractIntervals from subtract) t <-> covers from t /\ ~ covers subtract t.
Proof.
  destruct from as [|f0 from].
  - simpl. split; [intros H; now apply covers_nil in H|intros [H _]; exact H].
  - destruct subtract as [|s0 subtract].
    + unfold subtractIntervals. rewrite mergeIntervals_covers.
      split; [intros H; split; [exact H|apply covers_nil]|tauto].
    + unfold subtractIntervals.
      rewrite (covers_ext _ _ t (fun i => array_sort_In cmpStart i _)).
      rewrite covers_flat_map.
      rewrite <- (mergeIntervals_covers (f0 :: from)),
        <- (mergeIntervals_covers (s0 :: subtract)).
      split.
      * intros (a & Ha & Hc). apply subtractAll_covers in Hc.
        unfold inInterval in Hc.
        split; [exists a; tauto|tauto].
      * intros ((a & Ha & Hc) & Hn). exists a. split; [exact Ha|].
        apply subtractAll_covers. unfold inInterval. tauto.
Qed.

(** *** The normal form *)

Lemma sepAfter_Merged e l : sepAfter e l -> Merged l.
Proof. destruct l as [|a l]; simpl; tauto. Qed.

Lemma Merged_sepAfter e l : Merged l -> startsAfter e l -> sepAfter e l.
Proof. destruct l as [|a l]; simpl; tauto. Qed.

Lemma sepAfter_startsAfter e l : sepAfter e l -> startsAfter e l.
Proof. destruct l as [|a l]; simpl; tauto. Qed.

Lemma sepAfter_covers e l t : sepAfter e l -> covers l t -> e < t.
Proof.
  intros Hs (i & Hi & Ht). apply sepAfter_Forall in Hs.
  rewrite List.Forall_forall in Hs. specialize (Hs i Hi). lia.
Qed.

Lemma orderedWithin_tighten a l lo hi :
  orderedWithin lo hi (a :: l) -> orderedWithin (istart a) hi (a :: l).
Proof. simpl. intros (H1 & H2 & H3). repeat split; auto; lia. Qed.

(** Separated pieces that end by [hi], followed by a separated list that
    starts after [hi]. *)
Lemma sepAfter_app_within l1 :
  forall l2 e lo hi,
    orderedWithin lo hi l1 -> Merged l1 -> e < lo -> sepAfter hi l2 ->
    sepAfter e (l1 ++ l2).
Proof.
  induction l1 as [|a l1 IH]; simpl; intros l2 e lo hi How Hm He Hs.
  - apply sepAfter_weaken with hi; [lia|exact Hs].
  - destruct How as (H1 & H2 & H3). destruct Hm as (_ & Hsep).
    repeat split; [lia|exact H2|].
    destruct l1 as [|b l1].
    + simpl in *. apply sepAfter_weaken with hi; [lia|exact Hs].
    + apply IH with (istart b) hi; auto.
      * now apply orderedWithin_tighten with (iend a).
      * now apply sepAfter_Merged with (iend a).
      * now destruct Hsep.
Qed.

Lemma sepAfter_flat_map (f : Interval -> list Interval) l :
  (forall a, valid a -> orderedWithin (istart a) (iend a) (f a) /\ Merged (f a)) ->
  forall e, sepAfter e l -> sepAfter e (flat_map f l).
Proof.
  intros Hf. induction l as [|a l IH]; simpl; intros e; [tauto|].
  intros (H1 & H2 & H3). destruct (Hf a H2) as (How & Hm).
  apply sepAfter_app_within with (istart a) (iend a); auto.
Qed.

Lemma Merged_flat_map (f : Interval -> list Interval) l :
  (forall a, valid a -> orderedWithin (istart a) (iend a) (f a) /\ Merged (f a)) ->
  Merged l -> Merged (flat_map f l).
Proof.
  intros Hf. destruct l as [|a l]; [intros _; exact I|].
  intros (Ha & Hs). apply sepAfter_Merged with (istart a - 1).
  apply (sepAfter_flat_map f (a :: l) Hf). simpl. repeat split; auto; lia.
Qed.

Lemma subtractOne_Merged sub rem :
  valid sub -> valid rem -> Merged (subtractOne sub rem).
Proof.
  unfold valid, subtractOne, intervalsOverlap. intros Hs Hr.
  destruct (Z.ltb_spec (istart rem) (iend sub)), (Z.ltb_spec (istart sub) (iend rem));
    simpl; unfold valid; try tauto.
  destruct (Z.ltb_spec (istart rem) (istart sub)), (Z.ltb_spec (iend sub) (iend rem));
    simpl; unfold valid; simpl; lia.
Qed.

Lemma subtractAll_Merged mergedSubtract interval :
  Forall valid mergedSubtract -> valid interval ->
  Merged (subtractAll mergedSubtract interval).
Proof.
  intros Hsub Hv. unfold subtractAll. rewrite cloneInterval_id.
  assert (H0 : orderedWithin (istart interval) (iend interval) [interval]
               /\ Merged [interval]).
  { simpl. unfold valid in *. lia. }
  revert H0. generalize [interval] as remaining.
  induction Hsub as [|sub subs Hs _ IH]; simpl; intros remaining (How & Hm); [exact Hm|].
  apply IH. split.
  - apply orderedWithin_flat_map; [|exact How].
    intros a Ha. now apply subtractOne_ordered.
  - apply Merged_flat_map; [|exact Hm].
    intros a Ha. split; [now apply subtractOne_ordered|now apply subtractOne_Merged].
Qed.

Lemma subtractIntervals_Merged from subtract : Merged (subtractIntervals from subtract).
Proof.
  pose proof (mergeIntervals_Merged from) as Hf.
  destruct from as [|f0 from]; [exact I|].
  destruct subtract as [|s0 subtract]; [exact Hf|].
  unfold subtractIntervals.
  assert (Hv : Forall valid (mergeIntervals (s0 :: subtract)))
    by apply Merged_valid, mergeIntervals_Merged.
  destruct (Merged_flat_map_ordered
              (subtractAll (mergeIntervals (s0 :: subtract)))
              (mergeIntervals (f0 :: from))) as (lo & hi & H); auto.
  { intros a Ha. now apply subtractAll_ordered. }
  rewrite array_sort_sorted_id by (eapply orderedWithin_sorted_cmpStart; eauto).
  apply Merged_flat_map; [|exact Hf].
  intros a Ha. split; [now apply subtractAll_ordered|now apply subtractAll_Merged].
Qed.

(** Two lists in normal form that cover the same instants are equal. *)
Lemma Merged_unique l1 :
  forall l2, Merged l1 -> Merged l2 ->
             (forall t, covers l1 t <-> covers l2 t) -> l1 = l2.
Proof.
  induction l1 as [|a l1 IH]; intros l2 Hm1 Hm2 Hc.
  - destruct l2 as [|b l2]; [reflexivity|]. destruct Hm2 as (Hb & _).
    exfalso. apply (covers_nil (istart b)). apply Hc.
    apply covers_cons. left. unfold valid in Hb. lia.
  - destruct l2 as [|b l2].
    { destruct Hm1 as (Ha & _). exfalso. apply (covers_nil (istart a)). apply Hc.
      apply covers_cons. left. unfold valid in Ha. lia. }
    pose proof (Merged_tail _ _ Hm1) as Hm1'. pose proof (Merged_tail _ _ Hm2) as Hm2'.
    destruct Hm1 as (Ha & Hs1). destruct Hm2 as (Hb & Hs2). unfold valid in Ha, Hb.
    assert (Hin1 : forall t, covers (a :: l1) t -> istart a <= t).
    { intros t Ht. apply covers_cons in Ht. destruct Ht as [Ht|Ht]; [lia|].
      pose proof (sepAfter_covers _ _ _ Hs1 Ht). lia. }
    assert (Hin2 : forall t, covers (b :: l2) t -> istart b <= t).
    { intros t Ht. apply covers_cons in Ht. destruct Ht as [Ht|Ht]; [lia|].
      pose proof (sepAfter_covers _ _ _ Hs2 Ht). lia. }
    assert (Hstart : istart a = istart b).
    { assert (istart b <= istart a)
        by (apply Hin2, Hc, covers_cons; left; lia).
      assert (istart a <= istart b)
        by (apply Hin1, Hc, covers_cons; left; lia).
      lia. }
    assert (Hend : iend a = iend b).
    { destruct (Z.lt_trichotomy (iend a) (iend b)) as [Hlt|[Heq|Hgt]]; [|exact Heq|].
      - assert (Hcov : covers (a :: l1) (iend a))
          by (apply Hc, covers_cons; left; lia).
        apply covers_cons in Hcov. destruct Hcov as [Hcov|Hcov]; [lia|].
        pose proof (sepAfter_covers _ _ _ Hs1 Hcov). lia.
      - assert (Hcov : covers (b :: l2) (iend b))
          by (apply Hc, covers_cons; left; lia).
        apply covers_cons in Hcov. destruct Hcov as [Hcov|Hcov]; [lia|].
        pose proof (sepAfter_covers _ _ _ Hs2 Hcov). lia. }
    assert (Hab : a = b) by (destruct a, b; simpl in *; congruence).
    subst b. f_equal. apply IH; auto.
    intros t. split; intros Ht.
    + pose proof (sepAfter_covers _ _ _ Hs1 Ht).
      assert (Hcov : covers (a :: l2) t) by (apply Hc, covers_cons; now right).
      apply covers_cons in Hcov. destruct Hcov as [Hcov|Hcov]; [lia|exact Hcov].
    + pose proof (sepAfter_covers _ _ _ Hs2 Ht).
      assert (Hcov : covers (a :: l1) t) by (apply Hc, covers_cons; now right).
      apply covers_cons in Hcov. destruct Hcov as [Hcov|Hcov]; [lia|exact Hcov].
Qed.

(** *** The two-pointer walk *)

Lemma intersectWalk_nil_r mergedA : intersectWalk mergedA [] = [].
Proof. destruct mergedA; reflexivity. Qed.

Lemma intersectWalk_cons a restA b restB :
  intersectWalk (a :: restA) (b :: restB)
  = (if Z.max (istart a) (istart b) <? Z.min (iend a) (iend b)
     then [{| istart := Z.max (istart a) (istart b);
              iend := Z.min (iend a) (iend b) |}]
     else [])
    ++ (if iend a <=? iend b
        then intersectWalk restA (b :: restB)
        else intersectWalk (a :: restA) restB).
Proof. reflexivity. Qed.

Lemma intersectWalk_covers mergedA :
  forall mergedB t,
    Merged mergedA -> Merged mergedB ->
    covers (intersectWalk mergedA mergedB) t
    <-> covers mergedA t /\ covers mergedB t.
Proof.
  induction mergedA as [|a restA IHA]; intros mergedB t HA HB.
  - simpl. split; [intros H; now apply covers_nil in H|intros [H _]; exact H].
  - induction mergedB as [|b restB IHB].
    + rewrite intersectWalk_nil_r.
      split; [intros H; now apply covers_nil in H|intros [_ H]; exact H].
    + rewrite intersectWalk_cons, covers_app.
      pose proof (Merged_tail _ _ HA) as HA'. pose proof (Merged_tail _ _ HB) as HB'.
      destruct HA as (Ha & HsA). destruct HB as (Hb & HsB). unfold valid in Ha, Hb.
      assert (Hpiece :
                covers (if Z.max (istart a) (istart b) <? Z.min (iend a) (iend b)
                        then [{| istart := Z.max (istart a) (istart b);
                                 iend := Z.min (iend a) (iend b) |}]
                        else []) t
                <-> (istart a <= t < iend a) /\ (istart b <= t < iend b)).
      { destruct (Z.ltb_spec (Z.max (istart a) (istart b))
                    (Z.min (iend a) (iend b))).
        - rewrite covers_cons. simpl.
          split; [intros [H'|H']; [lia|now apply covers_nil in H']|intros; left; lia].
        - split; [intros H'; now apply covers_nil in H'|lia]. }
      rewrite Hpiece, (covers_cons a), (covers_cons b).
      destruct (Z.leb_spec (iend a) (iend b)) as [Hle|Hgt].
      * rewrite IHA, (covers_cons b) by (simpl; auto).
        split.
        -- intros [H'|H']; [tauto|]. tauto.
        -- intros [[Hta|HtA] [Htb|HtB]]; try tauto.
           pose proof (sepAfter_covers _ _ _ HsB HtB). lia.
      * rewrite IHB by auto.
        split.
        -- intros [H'|H']; [tauto|]. rewrite covers_cons in H'. tauto.
        -- intros [[Hta|HtA] [Htb|HtB]]; rewrite ?covers_cons; try tauto.
           pose proof (sepAfter_covers _ _ _ HsA HtA). lia.
Qed.

Lemma sepAfter_cons e a l :
  e < istart a -> valid a -> sepAfter (iend a) l -> sepAfter e (a :: l).
Proof. simpl. tauto. Qed.

Lemma intersectWalk_sepAfter mergedA :
  forall mergedB e,
    Merged mergedA -> Merged mergedB ->
    startsAfter e mergedA \/ startsAfter e mergedB ->
    sepAfter e (intersectWalk mergedA mergedB).
Proof.
  induction mergedA as [|a restA IHA]; intros mergedB e HA HB He; [exact I|].
  revert e He.
  induction mergedB as [|b restB IHB]; intros e He;
    [rewrite intersectWalk_nil_r; exact I|].
  rewrite intersectWalk_cons.
  pose proof (Merged_tail _ _ HA) as HA'. pose proof (Merged_tail _ _ HB) as HB'.
  assert (HA0 : Merged (a :: restA)) by exact HA.
  assert (HB0 : Merged (b :: restB)) by exact HB.
  destruct HA as (Ha & HsA). destruct HB as (Hb & HsB). unfold valid in Ha, Hb.
  assert (Hbound : e < Z.max (istart a) (istart b)) by (simpl in He; lia).
  assert (HrestA : forall e', e' <= iend a -> startsAfter e' restA).
  { intros e' He'. destruct restA as [|a' ?]; simpl in *; [exact I|lia]. }
  assert (HrestB : forall e', e' <= iend b -> startsAfter e' restB).
  { intros e' He'. destruct restB as [|b' ?]; simpl in *; [exact I|lia]. }
  destruct (Z.ltb_spec (Z.max (istart a) (istart b)) (Z.min (iend a) (iend b)))
    as [Hp|Hp]; cbn [app].
  - apply sepAfter_cons; [exact Hbound|unfold valid; simpl; exact Hp|].
    cbn [iend].
    destruct (Z.leb_spec (iend a) (iend b)) as [Hle|Hgt].
    + apply IHA; auto. left. apply HrestA. lia.
    + apply IHB; auto. right. apply HrestB. lia.
  - destruct (Z.leb_spec (iend a) (iend b)) as [Hle|Hgt].
    + apply IHA; auto. destruct He as [He|He]; simpl in He.
      * left. apply HrestA. lia.
      * right. exact He.
    + apply IHB; auto. destruct He as [He|He]; simpl in He.
      * left. exact He.
      * right. apply HrestB. lia.
Qed.

Lemma intersectIntervals_Merged a b : Merged (intersectIntervals a b).
Proof.
  destruct a as [|a0 a]; [exact I|]. destruct b as [|b0 b]; [exact I|].
  unfold intersectIntervals.
  pose proof (mergeIntervals_Merged (a0 :: a)) as HA.
  pose proof (mergeIntervals_Merged (b0 :: b)) as HB.
  destruct (mergeIntervals (a0 :: a)) as [|x restA] eqn:EA; [exact I|].
  apply sepAfter_Merged with (istart x - 1).
  apply intersectWalk_sepAfter; auto. left. simpl. lia.
Qed.

Lemma intersectIntervals_covers a b t :
  covers (intersectIntervals a b) t <-> covers a t /\ covers b t.
Proof.
  destruct a as [|a0 a].
  { simpl. split; [intros H; now apply covers_nil in H|intros [H _]; exact H]. }
  destruct b as [|b0 b].
  { simpl. split; [intros H; now apply covers_nil in H|intros [_ H]; exact H]. }
  unfold intersectIntervals.
  rewrite intersectWalk_covers by apply mergeIntervals_Merged.
  now rewrite !mergeIntervals_covers.
Qed.

(** Whether an instant is covered can be decided. *)
Lemma covers_dec l t : covers l t \/ ~ covers l t.
Proof.
  induction l as [|a l IH].
  - right. apply covers_nil.
  - rewrite covers_cons.
    destruct (Z_le_dec (istart a) t), (Z_lt_dec t (iend a)), IH; try tauto;
      right; intros [H'|H']; tauto || lia.
Qed.

(** X1: [subtractIntervals] returns exactly the difference: an instant is
    covered by the result if and only if it is covered by [from] and by no
    interval of [subtract]; in particular the result never covers an
    instant outside [from]. *)
Theorem subtractIntervals_difference (from subtract : list Interval) (t : Z) :
  covers (subtractIntervals from subtract) t
  <-> covers from t /\ ~ covers subtract t.
Proof. apply subtractIntervals_covers. Qed.

(** X2: whatever the two inputs, the list [subtractIntervals] returns is
    in strictly ascending order of start, each of its intervals is
    non-empty and ends strictly before every later one starts, and
    [mergeIntervals] leaves it unchanged. *)
Theorem subtractIntervals_normal_form (from subtract : list Interval) :
  StronglySorted (fun a b => istart a < istart b) (subtractIntervals from subtract)
  /\ ForallOrdPairs (fun a b => iend a < istart b) (subtractIntervals from subtract)
  /\ Forall (fun i => istart i < iend i) (subtractIntervals from subtract)
  /\ mergeIntervals (subtractIntervals from subtract) = subtractIntervals from subtract.
Proof.
  pose proof (subtractIntervals_Merged from subtract) as Hm.
  split; [now apply Merged_strongly_sorted|].
  split; [now apply Merged_apart|].
  split; [now apply Merged_valid|now apply mergeIntervals_fixed].
Qed.

(** X3: [intersectIntervals] returns exactly the intersection: an instant
    is covered by the result if and only if it is covered by both
    inputs. *)
Theorem intersectIntervals_intersection (a b : list Interval) (t : Z) :
  covers (intersectIntervals a b) t <-> covers a t /\ covers b t.
Proof. apply intersectIntervals_covers. Qed.

(** X4: whatever the two inputs, the list [intersectIntervals] returns is
    in strictly ascending order of start, each of its intervals is
    non-empty and ends strictly before every later one starts, and
    [mergeIntervals] leaves it unchanged. *)
Theorem intersectIntervals_normal_form (a b : list Interval) :
  StronglySorted (fun x y => istart x < istart y) (intersectIntervals a b)
  /\ ForallOrdPairs (fun x y => iend x < istart y) (intersectIntervals a b)
  /\ Forall (fun i => istart i < iend i) (intersectIntervals a b)
  /\ mergeIntervals (intersectIntervals a b) = intersectIntervals a b.
Proof.
  pose proof (intersectIntervals_Merged a b) as Hm.
  split; [now apply Merged_strongly_sorted|].
  split; [now apply Merged_apart|].
  split; [now apply Merged_valid|now apply mergeIntervals_fixed].
Qed.

(** X5: the result of [mergeIntervals] depends only on the instants
    covered: two lists that cover the same instants are merged into the
    same list. *)
Theorem mergeIntervals_canonical (X Y : list Interval) :
  (forall t, covers X t <-> covers Y t) ->
  mergeIntervals X = mergeIntervals Y.
Proof.
  intros H. apply Merged_unique; try apply mergeIntervals_Merged.
  intros t. now rewrite !mergeIntervals_covers.
Qed.

(** X5 on two adjacent intervals and the interval they make up. *)
Lemma mergeIntervals_canonical_witness :
  mergeIntervals [ {| istart := 0; iend := 5 |}; {| istart := 5; iend := 10 |} ]
  = mergeIntervals [ {| istart := 0; iend := 10 |} ].
Proof.
  apply mergeIntervals_canonical. intros t. rewrite !covers_cons. simpl.
  split; intros H.
  - left. destruct H as [H|[H|H]]; [lia|lia|now apply covers_nil in H].
  - destruct H as [H|H]; [|now apply covers_nil in H].
    destruct (Z.lt_ge_cases t 5); [left|right; left]; lia.
Defined.

(** X6: as equalities of the returned lists, for all inputs: intersection
    is commutative and associative, subtracting a list from itself leaves
    nothing, subtracting twice is subtracting the two lists at once, the
    order of the input does not matter to a merge, and a list is the merge
    of what an intersection keeps and what the subtraction leaves. *)
Theorem interval_operations_laws (X Y Z : list Interval) :
  intersectIntervals X Y = intersectIntervals Y X
  /\ intersectIntervals (intersectIntervals X Y) Z
     = intersectIntervals X (intersectIntervals Y Z)
  /\ subtractIntervals X X = []
  /\ subtractIntervals (subtractIntervals X Y) Z = subtractIntervals X (Y ++ Z)
  /\ mergeIntervals (X ++ Y) = mergeIntervals (Y ++ X)
  /\ mergeIntervals (intersectIntervals X Y ++ subtractIntervals X Y)
     = mergeIntervals X.
Proof.
  repeat split.
  - apply Merged_unique; try apply intersectIntervals_Merged.
    intros t. rewrite !intersectIntervals_covers. tauto.
  - apply Merged_unique; try apply intersectIntervals_Merged.
    intros t. rewrite !intersectIntervals_covers. tauto.
  - apply (Merged_unique _ []); [apply subtractIntervals_Merged|exact I|].
    intros t. rewrite subtractIntervals_covers.
    split; [tauto|intros H; now apply covers_nil in H].
  - apply Merged_unique; try apply subtractIntervals_Merged.
    intros t. rewrite !subtractIntervals_covers, covers_app. tauto.
  - apply Merged_unique; try apply mergeIntervals_Merged.
    intros t. rewrite !mergeIntervals_covers, !covers_app. tauto.
  - apply Merged_unique; try apply mergeIntervals_Merged.
    intros t.
    rewrite !mergeIntervals_covers, covers_app, intersectIntervals_covers,
      subtractIntervals_covers.
    split; [tauto|]. intros H.
    destruct (covers_dec Y t); tauto.
Qed.

(** ** slots.ts: more about the slots returned *)


Section PlaceSlotsMore.
Variables (intervalEnd slotLength slotInterval : Z) (hostId : string)
          (bufferBefore bufferAfter : Z).

(** Every position of the grid that fits is taken. *)
Lemma placeSlots_complete fuel :
  forall slotStart slots k,
    placeSlots fuel slotStart intervalEnd slotLength slotInterval hostId
      bufferBefore bufferAfter = Some slots ->
    0 < slotInterval -> 0 <= k ->
    slotStart + k * slotInterval + slotLength + bufferAfter <= intervalEnd ->
    exists s, In s slots /\ slot_start s = slotStart + k * slotInterval.
Proof.
  induction fuel as [|fuel IH]; intros slotStart slots k; simpl; [discriminate|].
  intros H Hsi Hk Hfit.
  destruct (Z.leb_spec (slotStart + slotLength + bufferAfter) intervalEnd) as [Hc|Hc];
    [|nia].
  destruct (placeSlots fuel _ _ _ _ _ _ _) as [rest|] eqn:Hrest; [|discriminate].
  injection H as <-.
  destruct (Z.eq_dec k 0) as [->|Hne].
  - eexists. split; [left; reflexivity|]. simpl. lia.
  - destruct (IH _ _ (k - 1) Hrest Hsi) as (s & Hs & Hstart); [lia|nia|].
    exists s. split; [now right|]. lia.
Qed.

(** The informational buffers of a slot: present exactly for a positive
    buffer, and then the interval next to the slot. *)
Lemma placeSlots_buffers fuel :
  forall slotStart slots,
    placeSlots fuel slotStart intervalEnd slotLength slotInterval hostId
      bufferBefore bufferAfter = Some slots ->
    Forall (fun s =>
              slot_bufferBefore s
              = (if 0 <? bufferBefore
                 then Some {| istart := slot_start s - bufferBefore;
                              iend := slot_start s |}
                 else None)
              /\ slot_bufferAfter s
                 = (if 0 <? bufferAfter
                    then Some {| istart := slot_end s;
                                 iend := slot_end s + bufferAfter |}
                    else None))
      slots.
Proof.
  induction fuel as [|fuel IH]; intros slotStart slots; simpl; [discriminate|].
  destruct (slotStart + slotLength + bufferAfter <=? intervalEnd).
  - destruct (placeSlots fuel _ _ _ _ _ _ _) as [rest|] eqn:Hrest; [|discriminate].
    intros [= <-]. constructor; [simpl; auto|]. now apply (IH _ _ Hrest).
  - intros [= <-]. constructor.
Qed.
End PlaceSlotsMore.

Lemma generateCandidateSlots_complete fuel freeIntervals slotLength slotInterval
    hostId bufferBefore bufferAfter :
  forall slots F k,
    generateCandidateSlots fuel freeIntervals slotLength slotInterval hostId
      bufferBefore bufferAfter = Some slots ->
    In F freeIntervals ->
    0 < slotInterval -> 0 <= k ->
    istart F + bufferBefore + k * slotInterval + slotLength + bufferAfter <= iend F ->
    exists s, In s slots
              /\ slot_start s = istart F + bufferBefore + k * slotInterval.
Proof.
  induction freeIntervals as [|interval rest IH]; simpl; intros slots F k H HF Hsi Hk Hfit;
    [destruct HF|].
  destruct (placeSlots fuel _ _ _ _ _ _ _) as [here|] eqn:Hhere; [|discriminate].
  destruct (generateCandidateSlots fuel rest _ _ _ _ _) as [there|] eqn:Hthere;
    [|discriminate].
  injection H as <-. destruct HF as [->|HF].
  - destruct (placeSlots_complete _ _ _ _ _ _ _ _ _ k Hhere Hsi Hk Hfit) as (s & Hs & Hst).
    exists s. split; [apply in_or_app; now left|exact Hst].
  - destruct (IH _ F k eq_refl HF Hsi Hk Hfit) as (s & Hs & Hst).
    exists s. split; [apply in_or_app; now right|exact Hst].
Qed.

Lemma generateCandidateSlots_buffers fuel freeIntervals slotLength slotInterval
    hostId bufferBefore bufferAfter :
  forall slots,
    generateCandidateSlots fuel freeIntervals slotLength slotInterval hostId
      bufferBefore bufferAfter = Some slots ->
    Forall (fun s =>
              slot_bufferBefore s
              = (if 0 <? bufferBefore
                 then Some {| istart := slot_start s - bufferBefore;
                              iend := slot_start s |}
                 else None)
              /\ slot_bufferAfter s
                 = (if 0 <? bufferAfter
                    then Some {| istart := slot_end s;
                                 iend := slot_end s + bufferAfter |}
                    else None))
      slots.
Proof.
  induction freeIntervals as [|interval rest IH]; simpl; intros slots.
  - intros [= <-]. constructor.
  - destruct (placeSlots fuel _ _ _ _ _ _ _) as [here|] eqn:Hhere; [|discriminate].
    destruct (generateCandidateSlots fuel rest _ _ _ _ _) as [there|]; [|discriminate].
    intros [= <-]. apply Forall_app; split.
    + apply (placeSlots_buffers _ _ _ _ _ _ _ _ _ Hhere).
    + now apply IH.
Qed.


Section SlotFactsMore.
Context {intl : Intl}.


Lemma hostSlots_without_caps fuel input currentTime hostSchedules slots :
  hostSlots fuel input currentTime hostSchedules = Some slots ->
  let hostId := hs_hostId hostSchedules in
  let config := resolveHostConfig (in_eventType input) hostId in
  et_maxPerDay config = None -> et_maxPerWeek config = None ->
  forall schedule,
    hs_schedules hostSchedules !! default "default"%string (et_scheduleKey config)
    = Some schedule ->
    generateCandidateSlots fuel (freeIntervalsFor input currentTime hostId schedule)
      (et_length config) (default (et_length config) (et_slotInterval config))
      hostId (default 0 (et_bufferBefore config)) (default 0 (et_bufferAfter config))
    = Some slots.
Proof.
  intros H hostId config Hd Hw schedule Hsch. unfold hostSlots in H.
  fold hostId config in H. rewrite Hsch, Hd, Hw in H.
  destruct (generateCandidateSlots _ _ _ _ _ _ _); [exact H|discriminate].
Qed.

Lemma hostSlots_candidates fuel input currentTime hostSchedules slots s :
  hostSlots fuel input currentTime hostSchedules = Some slots ->
  In s slots ->
  let hostId := hs_hostId hostSchedules in
  let config := resolveHostConfig (in_eventType input) hostId in
  exists schedule candidateSlots,
    hs_schedules hostSchedules !! default "default"%string (et_scheduleKey config)
    = Some schedule
    /\ generateCandidateSlots fuel (freeIntervalsFor input currentTime hostId schedule)
         (et_length config) (default (et_length config) (et_slotInterval config))
         hostId (default 0 (et_bufferBefore config)) (default 0 (et_bufferAfter config))
       = Some candidateSlots
    /\ In s candidateSlots.
Proof.
  intros H Hs hostId config. unfold hostSlots in H. fold hostId config in H.
  destruct (hs_schedules hostSchedules !! default "default"%string
              (et_scheduleKey config)) as [schedule|] eqn:Hsch.
  2:{ injection H as <-. destruct Hs. }
  destruct (generateCandidateSlots _ _ _ _ _ _ _) as [candidateSlots|] eqn:Hgen;
    [|discriminate].
  exists schedule, candidateSlots. repeat split; auto.
  destruct (et_maxPerDay config), (et_maxPerWeek config);
    try (destruct (countBookings _ _ _) as (dayCount & weekCount);
         injection H as <-; eapply applyCaps_In; eassumption).
  injection H as <-. exact Hs.
Qed.

Lemma collectSlots_host fuel input currentTime hosts :
  forall allSlots hostSchedules,
    collectSlots fuel input currentTime hosts = Some allSlots ->
    In hostSchedules hosts ->
    exists slots,
      hostSlots fuel input currentTime hostSchedules = Some slots
      /\ forall s, In s slots -> In s allSlots.
Proof.
  induction hosts as [|h hosts IH]; simpl; intros allSlots hs H Hin; [destruct Hin|].
  destruct (hostSlots fuel input currentTime h) as [here|] eqn:Hhere; [|discriminate].
  destruct (collectSlots fuel input currentTime hosts) as [there|]; [|discriminate].
  injection H as <-. destruct Hin as [<-|Hin].
  - exists here. split; [exact Hhere|]. intros s Hs. apply in_or_app. now left.
  - destruct (IH _ hs eq_refl Hin) as (slots & Hslots & Hsub).
    exists slots. split; [exact Hslots|]. intros s Hs. apply in_or_app. right. auto.
Qed.


End SlotFactsMore.

Section SlotExtras.
Context {intl : Intl}.



(** X9: for an entry of [hosts] in the domain of [hostInDomain] (whole
    numbers of milliseconds, valid dates, no negative length or buffer),
    without caps and on a positive grid step, every position of the grid
    that fits is offered: for each free interval [F] of the host and each
    [k >= 0] such that the slot starting at
    [F.start + bufferBefore + k * slotInterval], inflated by the buffers,
    ends by [F.end], a slot of that host with that start is returned. *)
Theorem getAvailableSlots_complete_without_caps (fuel : nat)
    (input : GetAvailableSlotsInput) (now : Z) (slots : list Slot)
    (hostSchedules : HostSchedules) (schedule : Schedule) (F : Interval) (k : Z) :
  let hostId := hs_hostId hostSchedules in
  let config := resolveHostConfig (in_eventType input) hostId in
  let slotInterval := default (et_length config) (et_slotInterval config) in
  let bufferBefore := default 0 (et_bufferBefore config) in
  let bufferAfter := default 0 (et_bufferAfter config) in
  hostInDomain input now hostSchedules = true ->
  getAvailableSlots fuel input now = Some slots ->
  In hostSchedules (in_hosts input) ->
  hs_schedules hostSchedules !! default "default"%string (et_scheduleKey config)
  = Some schedule ->
  et_maxPerDay config = None -> et_maxPerWeek config = None ->
  In F (freeIntervalsFor input now hostId schedule) ->
  0 < slotInterval -> 0 <= k ->
  istart F + bufferBefore + k * slotInterval + et_length config + bufferAfter
  <= iend F ->
  exists s, In s slots
            /\ slot_hostId s = hostId
            /\ slot_start s = istart F + bufferBefore + k * slotInterval
            /\ slot_end s = slot_start s + et_length config.
Proof.
  intros hostId config slotInterval bufferBefore bufferAfter
    _ Hget Hh Hsch Hd Hw HF Hsi Hk Hfit.
  unfold getAvailableSlots in Hget.
  destruct (collectSlots fuel input now (in_hosts input)) as [allSlots|] eqn:Hall;
    [|discriminate].
  injection Hget as <-.
  destruct (collectSlots_host _ _ _ _ _ _ Hall Hh) as (here & Hhere & Hsub).
  pose proof (hostSlots_without_caps _ _ _ _ _ Hhere Hd Hw schedule Hsch) as Hgen.
  destruct (generateCandidateSlots_complete _ _ _ _ _ _ _ _ F k Hgen HF Hsi Hk Hfit)
    as (s & Hs & Hstart).
  destruct (hostSlots_sound _ _ _ _ _ _ Hhere Hs) as (Hid & Hend & _).
  exists s. repeat split; auto. apply array_sort_In. auto.
Qed.


Lemma collectSlots_withHosts fuel input currentTime hosts' hosts :
  collectSlots fuel (withHosts input hosts') currentTime hosts
  = collectSlots fuel input currentTime hosts.
Proof. induction hosts as [|h hosts IH]; simpl; [reflexivity|]. now rewrite IH. Qed.

Lemma collectSlots_filter_hasSchedule fuel input currentTime hosts :
  collectSlots fuel input currentTime (List.filter (hasSchedule input) hosts)
  = collectSlots fuel input currentTime hosts.
Proof.
  induction hosts as [|h hosts IH]; simpl; [reflexivity|].
  unfold hasSchedule at 1.
  destruct (hs_schedules h !! _) as [schedule|] eqn:Hsch.
  - simpl. now rewrite IH.
  - rewrite IH. unfold hostSlots. rewrite Hsch.
    destruct (collectSlots fuel input currentTime hosts); reflexivity.
Qed.

(** X11: when no entry of [hosts] is read under the name of a member of
    [Object.prototype] that it has no schedule under, a host that has no
    schedule under the key resolved for it is skipped without an error:
    the query gives the same result, slot for slot, as on the input
    without those hosts. *)
Theorem getAvailableSlots_skips_hosts_without_schedule (fuel : nat)
    (input : GetAvailableSlotsInput) (now : Z) :
  forallb (plainScheduleKey input) (in_hosts input) = true ->
  getAvailableSlots fuel
    (withHosts input (List.filter (hasSchedule input) (in_hosts input))) now
  = getAvailableSlots fuel input now.
Proof.
  intros _. unfold getAvailableSlots. simpl in_hosts.
  now rewrite collectSlots_withHosts, collectSlots_filter_hasSchedule.
Qed.

(** X12: for a returned slot whose host is in the domain of [inDomain]
    (whole numbers of milliseconds, valid dates, no negative length or
    buffer), the informational buffers: [bufferBefore] is present exactly
    when the buffer resolved for the host is positive, and is then the
    interval of that length ending at the start of the slot; [bufferAfter]
    likewise, starting at the end of the slot. *)
Theorem getAvailableSlots_buffer_intervals (fuel : nat) (input : GetAvailableSlotsInput)
    (now : Z) (slots : list Slot) (s : Slot) :
  inDomain input now (slot_hostId s) = true ->
  getAvailableSlots fuel input now = Some slots ->
  In s slots ->
  let config := resolveHostConfig (in_eventType input) (slot_hostId s) in
  let bufferBefore := default 0 (et_bufferBefore config) in
  let bufferAfter := default 0 (et_bufferAfter config) in
  slot_bufferBefore s
  = (if 0 <? bufferBefore
     then Some {| istart := slot_start s - bufferBefore; iend := slot_start s |}
     else None)
  /\ slot_bufferAfter s
     = (if 0 <? bufferAfter
        then Some {| istart := slot_end s; iend := slot_end s + bufferAfter |}
        else None).
Proof.
  intros _ Hget Hs.
  destruct (getAvailableSlots_In _ _ _ _ _ Hget Hs) as (h & hs & Hh & Hhs & Hin).
  destruct (hostSlots_sound _ _ _ _ _ _ Hhs Hin) as (Hid & _).
  destruct (hostSlots_candidates _ _ _ _ _ _ Hhs Hin)
    as (schedule & candidateSlots & Hsch & Hgen & Hc).
  rewrite <- Hid in *.
  pose proof (generateCandidateSlots_buffers _ _ _ _ _ _ _ _ Hgen) as Hall.
  rewrite List.Forall_forall in Hall. exact (Hall s Hc).
Qed.

End SlotExtras.

(** Every entry of the two maps of [countBookings] is at least one. *)
Lemma countBookings_positive bookings hostId eventTypeId :
  (forall dayKey n,
     fst (countBookings bookings hostId eventTypeId) !! dayKey = Some n -> 1 <= n)
  /\ (forall weekKey n,
        snd (countBookings bookings hostId eventTypeId) !! weekKey = Some n -> 1 <= n).
Proof.
  unfold countBookings.
  set (step := fun '(dayCount, weekCount) booking => _).
  assert (Hgen : forall (acc : gmap (Z * Z * Z) Z * gmap (Z * Z) Z),
    (forall k n, fst acc !! k = Some n -> 1 <= n) ->
    (forall k n, snd acc !! k = Some n -> 1 <= n) ->
    (forall k n, fst (fold_left step bookings acc) !! k = Some n -> 1 <= n)
    /\ (forall k n, snd (fold_left step bookings acc) !! k = Some n -> 1 <= n)).
  { induction bookings as [|b bookings IH]; intros [dayCount weekCount] Hd Hw;
      cbn [fold_left]; [auto|].
    apply IH; subst step; cbn [fst snd] in *;
      destruct (negb (String.eqb (bk_hostId b) hostId)
                || negb (bool_decide (bk_eventTypeId b = Some eventTypeId)));
      cbn [fst snd]; auto; intros k n; unfold bumpCount, getCount;
      (destruct (decide (k = getDateKey (bk_start b))) as [->|Hne]
       || destruct (decide (k = getWeekKey (bk_start b))) as [->|Hne]);
      rewrite ?lookup_insert_eq, ?lookup_insert_ne by congruence; eauto;
      intros [= <-].
    - destruct (dayCount !! getDateKey (bk_start b)) as [m|] eqn:Hm; cbn; [|lia].
      specialize (Hd _ _ Hm). lia.
    - destruct (weekCount !! getWeekKey (bk_start b)) as [m|] eqn:Hm; cbn; [|lia].
      specialize (Hw _ _ Hm). lia. }
  apply Hgen; intros k n; cbn [fst snd]; rewrite lookup_empty; discriminate.
Qed.

(** X13: the two maps [countBookings] builds hold, for each UTC day and
    each week key of [getWeekKey], the number of supplied bookings of the
    host and event type that start under that key, and hold no entry for a
    key under which none starts. *)
Theorem countBookings_day_and_week_counts (bookings : list Booking)
    (hostId eventTypeId : string) :
  (forall dayKey,
     fst (countBookings bookings hostId eventTypeId) !! dayKey
     = (if bookingsOnDay bookings hostId eventTypeId dayKey =? 0 then None
        else Some (bookingsOnDay bookings hostId eventTypeId dayKey)))
  /\ (forall weekKey,
        snd (countBookings bookings hostId eventTypeId) !! weekKey
        = (if bookingsInWeek bookings hostId eventTypeId weekKey =? 0 then None
           else Some (bookingsInWeek bookings hostId eventTypeId weekKey))).
Proof.
  destruct (countBookings_counts bookings hostId eventTypeId) as (Hd & Hw).
  destruct (countBookings_positive bookings hostId eventTypeId) as (Pd & Pw).
  unfold getCount in Hd, Hw.
  split; intros k; [specialize (Hd k); specialize (Pd k)|specialize (Hw k); specialize (Pw k)].
  - destruct (fst (countBookings bookings hostId eventTypeId) !! k) as [n|]; cbn in Hd.
    + specialize (Pd n eq_refl). rewrite <- Hd.
      destruct (Z.eqb_spec n 0); [lia|reflexivity].
    + rewrite <- Hd. reflexivity.
  - destruct (snd (countBookings bookings hostId eventTypeId) !! k) as [n|]; cbn in Hw.
    + specialize (Pw n eq_refl). rewrite <- Hw.
      destruct (Z.eqb_spec n 0); [lia|reflexivity].
    + rewrite <- Hw. reflexivity.
Qed.

(** The maps of the bookings of the capped week: one entry each. *)
Example countBookings_capped_week :
  countBookings (in_bookings BufferedExamples.cappedWeekInput) "host-1" "consultation"
  = ({[ (2024, 1, 1) := 1 ]}, {[ (2024, 1) := 1 ]}).
Proof. vm_compute. reflexivity. Qed.



(** X9 on the buffered query: the second position of the grid in the
    free interval from 09:30 to 11:00, a slot at 10:10. *)
Lemma getAvailableSlots_complete_without_caps_witness :
  let input := BufferedExamples.checkupInput in
  let config := resolveHostConfig (in_eventType input) (hs_hostId Examples.host1) in
  exists s, In s BufferedExamples.checkupSlots
            /\ slot_hostId s = hs_hostId Examples.host1
            /\ slot_start s
               = istart BufferedExamples.beforeTheBooking
                 + default 0 (et_bufferBefore config)
                 + 1 * default (et_length config) (et_slotInterval config)
            /\ slot_end s = slot_start s + et_length config.
Proof.
  apply (getAvailableSlots_complete_without_caps (intl := utcIntl) 32
           BufferedExamples.checkupInput BufferedExamples.halfPastEight
           BufferedExamples.checkupSlots Examples.host1
           Examples.officeHours BufferedExamples.beforeTheBooking 1).
  - vm_compute. reflexivity.
  - vm_compute. reflexivity.
  - left. reflexivity.
  - vm_compute. reflexivity.
  - reflexivity.
  - reflexivity.
  - vm_compute. left. reflexivity.
  - vm_compute. reflexivity.
  - lia.
  - vm_compute. discriminate.
Defined.


(** X12 on the second slot of the buffered query: ten minutes before,
    five after. *)
Lemma getAvailableSlots_buffer_intervals_witness :
  let s := BufferedExamples.checkupAt (Examples.jan1 + Examples.minutes 610) in
  let config :=
    resolveHostConfig (in_eventType BufferedExamples.checkupInput) (slot_hostId s) in
  let bufferBefore := default 0 (et_bufferBefore config) in
  let bufferAfter := default 0 (et_bufferAfter config) in
  slot_bufferBefore s
  = (if 0 <? bufferBefore
     then Some {| istart := slot_start s - bufferBefore; iend := slot_start s |}
     else None)
  /\ slot_bufferAfter s
     = (if 0 <? bufferAfter
        then Some {| istart := slot_end s; iend := slot_end s + bufferAfter |}
        else None).
Proof.
  apply (getAvailableSlots_buffer_intervals (intl := utcIntl) 32
           BufferedExamples.checkupInput BufferedExamples.halfPastEight
           BufferedExamples.checkupSlots
           (BufferedExamples.checkupAt (Examples.jan1 + Examples.minutes 610))).
  - vm_compute. reflexivity.
  - vm_compute. reflexivity.
  - vm_compute. right. left. reflexivity.
Defined.

(** X11 on the telehealth query: [host-1] has no schedule of that name. *)
Lemma getAvailableSlots_skips_hosts_without_schedule_witness :
  let input := BufferedExamples.telehealthInput in
  getAvailableSlots (intl := utcIntl) 32
    (withHosts input (List.filter (hasSchedule input) (in_hosts input))) Examples.jan1
  = getAvailableSlots (intl := utcIntl) 32 input Examples.jan1.
Proof.
  apply (getAvailableSlots_skips_hosts_without_schedule (intl := utcIntl) 32
           BufferedExamples.telehealthInput Examples.jan1).
  vm_compute. reflexivity.
Defined.

(** In the telehealth query [host-1] is left out and [host-4] gives the
    six slots of its mornings. *)
Example telehealth_slots :
  List.filter (hasSchedule BufferedExamples.telehealthInput)
    (in_hosts BufferedExamples.telehealthInput) = [BufferedExamples.host4]
  /\ option_map (map (fun s => (slot_start s - Examples.jan1) / Examples.minutes 1))
       (getAvailableSlots (intl := utcIntl) 32 BufferedExamples.telehealthInput
          Examples.jan1)
     = Some [540; 570; 600; 630; 660; 690].
Proof. vm_compute. split; reflexivity. Qed.
(** ** The calendar: dates, day keys and ISO weeks *)

(** The date of a day number is a date of the calendar, it gives the day
    number back, and it lies within the 366 days from the first of january
    of its year. *)
Lemma civilFromDays_facts z :
  let '(y, m, d) := JsDate.civilFromDays z in
  1 <= m <= 12 /\ 1 <= d <= 31
  /\ JsDate.daysFromCivil y m d = z
  /\ JsDate.daysFromCivil y 1 1 <= z <= JsDate.daysFromCivil y 1 1 + 365.
Proof.
  unfold JsDate.civilFromDays.
  set (era := (z + 719468) / 146097).
  set (doe := z + 719468 - era * 146097).
  set (yoe := (doe - doe / 1460 + doe / 36524 - doe / 146096) / 365).
  set (doy := doe - (365 * yoe + yoe / 4 - yoe / 100)).
  set (mp := (5 * doy + 2) / 153).
  assert (Hdoe : 0 <= doe < 146097)
    by (subst doe era; Z.to_euclidean_division_equations; lia).
  assert (Hyoe : 0 <= yoe <= 399 /\ 0 <= doy <= 365)
    by (subst doy yoe; Z.to_euclidean_division_equations; lia).
  assert (Hmp : 0 <= mp <= 11) by (subst mp; Z.to_euclidean_division_equations; lia).
  assert (Hd : 1 <= doy - (153 * mp + 2) / 5 + 1 <= 31)
    by (subst mp; Z.to_euclidean_division_equations; lia).
  assert (Hmonth : (mp < 10 -> doy <= 305) /\ (10 <= mp -> 306 <= doy))
    by (subst mp; Z.to_euclidean_division_equations; lia).
  assert (Hz : z = era * 146097 + doe - 719468) by (subst doe; lia).
  assert (Hdoe' : doe = 365 * yoe + yoe / 4 - yoe / 100 + doy) by (subst doy; lia).
  clearbody doy. clearbody doe. clearbody era.
  unfold JsDate.daysFromCivil.
  replace ((1 - 1) / 12) with 0 by reflexivity.
  replace ((1 - 1) mod 12 + 1) with 1 by reflexivity.
  change (1 <=? 2) with true. change (2 <? 1) with false. cbv iota.
  destruct (Z.ltb_spec mp 10) as [Hlt|Hge].
  - destruct (Z.leb_spec (mp + 3) 2); [lia|].
    split; [lia|]. split; [exact Hd|].
    replace ((mp + 3 - 1) / 12) with 0 by (Z.to_euclidean_division_equations; lia).
    replace ((mp + 3 - 1) mod 12 + 1) with (mp + 3)
      by (Z.to_euclidean_division_equations; lia).
    destruct (Z.leb_spec (mp + 3) 2); [lia|].
    destruct (Z.ltb_spec 2 (mp + 3)); [|lia].
    replace (yoe + era * 400 + 0) with (yoe + era * 400) by lia.
    replace ((yoe + era * 400) / 400) with era
      by (Z.to_euclidean_division_equations; lia).
    replace (yoe + era * 400 - era * 400) with yoe by lia.
    replace (mp + 3 - 3) with mp by lia.
    split; [subst mp; Z.to_euclidean_division_equations; lia|].
    clearbody mp. Z.to_euclidean_division_equations; lia.
  - destruct (Z.leb_spec (mp - 9) 2); [|lia].
    split; [lia|]. split; [exact Hd|].
    replace ((mp - 9 - 1) / 12) with 0 by (Z.to_euclidean_division_equations; lia).
    replace ((mp - 9 - 1) mod 12 + 1) with (mp - 9)
      by (Z.to_euclidean_division_equations; lia).
    destruct (Z.leb_spec (mp - 9) 2); [|lia].
    destruct (Z.ltb_spec 2 (mp - 9)); [lia|].
    replace (yoe + era * 400 + 1 + 0 - 1) with (yoe + era * 400) by lia.
    replace ((yoe + era * 400) / 400) with era
      by (Z.to_euclidean_division_equations; lia).
    replace (yoe + era * 400 - era * 400) with yoe by lia.
    replace (mp - 9 + 9) with mp by lia.
    split; [subst mp; Z.to_euclidean_division_equations; lia|].
    clearbody mp. Z.to_euclidean_division_equations; lia.
Qed.

Lemma daysFromCivil_civilFromDays z :
  JsDate.daysFromCivil (fst (fst (JsDate.civilFromDays z)))
    (snd (fst (JsDate.civilFromDays z))) (snd (JsDate.civilFromDays z)) = z.
Proof.
  pose proof (civilFromDays_facts z) as H.
  destruct (JsDate.civilFromDays z) as [[y m] d]. simpl. tauto.
Qed.

Lemma civilFromDays_inj a b : JsDate.civilFromDays a = JsDate.civilFromDays b -> a = b.
Proof.
  intros H. rewrite <- (daysFromCivil_civilFromDays a), <- (daysFromCivil_civilFromDays b).
  now rewrite H.
Qed.

Lemma dayOf_midnight n : JsDate.dayOf (n * JsDate.msPerDay) = n.
Proof. unfold JsDate.dayOf, JsDate.msPerDay. apply Z.div_mul. lia. Qed.

(** [Date.UTC] takes a year from 100 on as it is. *)
Lemma UTC_plain year month0 day hours minutes seconds :
  100 <= year ->
  JsDate.UTC year month0 day hours minutes seconds
  = JsDate.makeDate year month0 day hours minutes seconds.
Proof.
  intros H. unfold JsDate.UTC, JsDate.makeFullYear.
  destruct (Z.leb_spec year 99); [lia|]. now rewrite andb_false_r.
Qed.

Lemma daysFromCivil_jan1_mono y y' :
  y <= y' -> JsDate.daysFromCivil y 1 1 <= JsDate.daysFromCivil y' 1 1.
Proof.
  intros H. unfold JsDate.daysFromCivil.
  replace ((1 - 1) / 12) with 0 by reflexivity.
  replace ((1 - 1) mod 12 + 1) with 1 by reflexivity.
  change (1 <=? 2) with true. change (2 <? 1) with false. cbv iota. cbv zeta.
  change ((153 * (1 + 9) + 2) / 5 + 1 - 1) with 306.
  Z.to_euclidean_division_equations; lia.
Qed.

(** The days from 0100-01-01 on are in the year 100 or later. *)
Lemma year_from_100 z :
  JsDate.daysFromCivil 100 1 1 <= z -> 100 <= fst (fst (JsDate.civilFromDays z)).
Proof.
  intros Hz.
  destruct (Z.eq_dec z (JsDate.daysFromCivil 100 1 1)) as [->|Hne];
    [vm_compute; discriminate|].
  pose proof (civilFromDays_facts z) as H.
  destruct (JsDate.civilFromDays z) as [[y m] d]. cbn [fst snd].
  destruct H as (_ & _ & _ & H).
  destruct (Z.le_gt_cases 100 y) as [Hy|Hy]; [exact Hy|].
  pose proof (daysFromCivil_jan1_mono y 99 ltac:(lia)) as Hmono.
  change (JsDate.daysFromCivil 99 1 1) with (-683368) in Hmono.
  change (JsDate.daysFromCivil 100 1 1) with (-683003) in Hz, Hne. lia.
Qed.

Lemma dayOf_firstPlainWeek t :
  firstPlainWeek <= t -> JsDate.daysFromCivil 100 1 1 + 3 <= JsDate.dayOf t.
Proof.
  change firstPlainWeek with (-59011200000000).
  change (JsDate.daysFromCivil 100 1 1) with (-683003).
  unfold JsDate.dayOf, JsDate.msPerDay. intros H.
  Z.to_euclidean_division_equations; lia.
Qed.

(** The fields of an instant put together again give the midnight before
    it. *)
Lemma makeDate_of_fields t :
  JsDate.makeDate (JsDate.getUTCFullYear t) (JsDate.getUTCMonth t) (JsDate.getUTCDate t)
    0 0 0
  = JsDate.setUTCMidnight t.
Proof.
  unfold JsDate.makeDate, JsDate.getUTCFullYear, JsDate.getUTCMonth, JsDate.getUTCDate,
    JsDate.setUTCMidnight.
  replace (snd (fst (JsDate.civilFromDays (JsDate.dayOf t))) - 1 + 1)
    with (snd (fst (JsDate.civilFromDays (JsDate.dayOf t)))) by lia.
  rewrite daysFromCivil_civilFromDays. lia.
Qed.

(** [Date.UTC] of the year, month and day of an instant of the year 100 or
    later is the midnight before it. *)
Lemma UTC_of_fields t :
  JsDate.daysFromCivil 100 1 1 <= JsDate.dayOf t ->
  JsDate.UTC (JsDate.getUTCFullYear t) (JsDate.getUTCMonth t) (JsDate.getUTCDate t) 0 0 0
  = JsDate.setUTCMidnight t.
Proof.
  intros H. rewrite UTC_plain; [apply makeDate_of_fields|].
  unfold JsDate.getUTCFullYear. now apply year_from_100.
Qed.

Lemma getUTCDay_range t : 0 <= JsDate.getUTCDay t <= 6.
Proof. unfold JsDate.getUTCDay. pose proof (Z.mod_pos_bound (JsDate.dayOf t + 4) 7). lia. Qed.

(** The thursday the week number is read from is three days after the
    monday of the week. *)
Lemma nearestThursday_monday t :
  firstPlainWeek <= t ->
  nearestThursday t = (mondayOfWeek t + 3) * JsDate.msPerDay.
Proof.
  intros Ht. apply dayOf_firstPlainWeek in Ht.
  unfold nearestThursday. rewrite UTC_of_fields by lia.
  unfold JsDate.setUTCMidnight, JsDate.addUTCDays, mondayOfWeek, JsDate.getUTCDay.
  rewrite dayOf_midnight.
  set (x := JsDate.dayOf t).
  destruct (Z.eqb_spec ((x + 4) mod 7) 0) as [H0|H0].
  - rewrite H0. change ((0 + 6) mod 7) with 6. lia.
  - assert (((x + 4) mod 7 + 6) mod 7 = (x + 4) mod 7 - 1)
      by (Z.to_euclidean_division_equations; lia).
    lia.
Qed.

Lemma mondayOfWeek_thursday t : (mondayOfWeek t + 3) mod 7 = 0.
Proof.
  unfold mondayOfWeek, JsDate.getUTCDay. set (x := JsDate.dayOf t).
  Z.to_euclidean_division_equations; lia.
Qed.

Lemma mondayOfWeek_range t :
  mondayOfWeek t <= JsDate.dayOf t <= mondayOfWeek t + 6.
Proof.
  unfold mondayOfWeek. pose proof (Z.mod_pos_bound (JsDate.getUTCDay t + 6) 7). lia.
Qed.

(** From [firstPlainWeek] on the thursday of the week is in the year 100
    or later. *)
Lemma thursday_year t :
  firstPlainWeek <= t ->
  100 <= fst (fst (JsDate.civilFromDays (mondayOfWeek t + 3))).
Proof.
  intros Ht. apply dayOf_firstPlainWeek in Ht. apply year_from_100.
  pose proof (mondayOfWeek_thursday t). pose proof (mondayOfWeek_range t).
  change (JsDate.daysFromCivil 100 1 1) with (-683003) in *.
  Z.to_euclidean_division_equations; lia.
Qed.

(** The week number as a function of the thursday of the week. *)
Lemma getISOWeek_thursday t :
  firstPlainWeek <= t ->
  getISOWeek t
  = ceilDiv (mondayOfWeek t + 3
             - JsDate.daysFromCivil
                 (fst (fst (JsDate.civilFromDays (mondayOfWeek t + 3)))) 1 1 + 1) 7.
Proof.
  intros Ht. unfold getISOWeek. rewrite nearestThursday_monday by exact Ht.
  unfold JsDate.getUTCFullYear. rewrite dayOf_midnight.
  rewrite UTC_plain by (now apply thursday_year).
  set (thursday := mondayOfWeek t + 3).
  set (ys := JsDate.daysFromCivil (fst (fst (JsDate.civilFromDays thursday))) 1 1).
  unfold JsDate.makeDate. change (0 + 1) with 1. fold ys.
  unfold JsDate.msPerDay, JsDate.msPerHour, JsDate.msPerMinute.
  replace (thursday * 86400000
           - (ys * 86400000 + 0 * 3600000 + 0 * 60000 + 0 * 1000))
    with ((thursday - ys) * 86400000) by lia.
  rewrite Z.div_mul by lia. reflexivity.
Qed.

(** The week key as a function of the thursday of the week. *)
Lemma getWeekKey_thursday t :
  firstPlainWeek <= t ->
  let thursday := mondayOfWeek t + 3 in
  let year := fst (fst (JsDate.civilFromDays thursday)) in
  getWeekKey t
  = (year, ceilDiv (thursday - JsDate.daysFromCivil year 1 1 + 1) 7).
Proof.
  intros Ht thursday year. unfold getWeekKey, getISOWeekYear.
  rewrite getISOWeek_thursday by exact Ht.
  rewrite nearestThursday_monday by exact Ht.
  unfold JsDate.getUTCFullYear. rewrite dayOf_midnight. reflexivity.
Qed.
(** X14: two instants get the same day key exactly when they fall on the
    same UTC day (the same quotient by 86 400 000 ms). *)
Theorem getDateKey_same_day (a b : Z) :
  getDateKey a = getDateKey b <-> JsDate.dayOf a = JsDate.dayOf b.
Proof.
  unfold getDateKey. split; [apply civilFromDays_inj|now intros ->].
Qed.

(** X15: two instants from monday 0100-01-04T00:00Z on get the same week
    key exactly when they fall in the same week from monday 00:00 UTC to
    the next monday: [mondayOfWeek] is the day number of a monday, at most
    six days before the day of the instant, and the keys agree if and only
    if the mondays do.  (Before that instant the key goes through
    [Date.UTC] with a year from 0 to 99, which it takes for 1900 to
    1999.) *)
Theorem getWeekKey_same_week (a b : Z) :
  firstPlainWeek <= a -> firstPlainWeek <= b ->
  JsDate.getUTCDay (mondayOfWeek a * JsDate.msPerDay) = 1
  /\ mondayOfWeek a <= JsDate.dayOf a <= mondayOfWeek a + 6
  /\ (getWeekKey a = getWeekKey b <-> mondayOfWeek a = mondayOfWeek b).
Proof.
  intros Ha0 Hb0.
  split; [|split; [apply mondayOfWeek_range|]].
  - unfold JsDate.getUTCDay. rewrite dayOf_midnight.
    pose proof (mondayOfWeek_thursday a). Z.to_euclidean_division_equations; lia.
  - rewrite (getWeekKey_thursday a Ha0), (getWeekKey_thursday b Hb0). cbv zeta.
    split.
    + intros H. injection H as Hy Hw. rewrite Hy in Hw.
      pose proof (mondayOfWeek_thursday a) as Ha.
      pose proof (mondayOfWeek_thursday b) as Hb.
      unfold ceilDiv in Hw.
      set (ys := JsDate.daysFromCivil
                   (fst (fst (JsDate.civilFromDays (mondayOfWeek b + 3)))) 1 1) in *.
      clearbody ys. Z.to_euclidean_division_equations; lia.
    + now intros ->.
Qed.

Lemma ceilDiv_week x : 0 <= x <= 365 -> 1 <= ceilDiv (x + 1) 7 <= 53.
Proof. intros H. unfold ceilDiv. Z.to_euclidean_division_equations; lia. Qed.

(** X16: from monday 0100-01-04T00:00Z on, the ISO week number is between
    1 and 53. *)
Theorem getISOWeek_range (t : Z) : firstPlainWeek <= t -> 1 <= getISOWeek t <= 53.
Proof.
  intros Ht. rewrite getISOWeek_thursday by exact Ht. apply ceilDiv_week.
  pose proof (civilFromDays_facts (mondayOfWeek t + 3)) as Hf.
  destruct (JsDate.civilFromDays (mondayOfWeek t + 3)) as [[y m] d]. cbn [fst snd].
  lia.
Qed.

(** X15 on 2024-12-30 and 2025-01-03, the monday and the friday of week
    1 of 2025. *)
Lemma getWeekKey_same_week_witness :
  let a := JsDate.UTC 2024 11 30 0 0 0 in
  let b := JsDate.UTC 2025 0 3 15 0 0 in
  JsDate.getUTCDay (mondayOfWeek a * JsDate.msPerDay) = 1
  /\ mondayOfWeek a <= JsDate.dayOf a <= mondayOfWeek a + 6
  /\ (getWeekKey a = getWeekKey b <-> mondayOfWeek a = mondayOfWeek b).
Proof.
  apply (getWeekKey_same_week (JsDate.UTC 2024 11 30 0 0 0) (JsDate.UTC 2025 0 3 15 0 0));
    vm_compute; discriminate.
Defined.

(** X16 on 2020-12-31, in week 53. *)
Lemma getISOWeek_range_witness :
  1 <= getISOWeek (JsDate.UTC 2020 11 31 0 0 0) <= 53.
Proof.
  apply (getISOWeek_range (JsDate.UTC 2020 11 31 0 0 0)). vm_compute. discriminate.
Defined.

(** Before [firstPlainWeek] the week functions leave the ISO calendar:
    friday 0100-01-01 gets a week number far from 1 to 53, and 0001-01-01
    the week key of 1901-01-01. *)
Example week_functions_before_year_100 :
  getISOWeek BufferedExamples.newYear100 = -99085
  /\ getWeekKey (JsDate.makeDate 1 0 1 0 0 0) = (1901, 1)
  /\ getWeekKey (JsDate.makeDate 1901 0 1 0 0 0) = (1901, 1).
Proof. vm_compute. repeat split; reflexivity. Qed.

(** ** helpers.ts: more about the recurrence *)

Section RecurrenceFacts.
Context {intl : Intl}.

Lemma occurrence_bounds rule range currentDate i :
  occurrence rule range currentDate = Some i ->
  istart range <= istart i /\ (istart i < iend range \/ iend i <= iend range).
Proof.
  unfold occurrence.
  destruct (shouldInclude rule range currentDate); [|discriminate].
  destruct (negb _); [|discriminate]. cbv zeta.
  set (start := localTimeToUtc currentDate (rr_startTime rule) (rr_timezone rule)).
  set (end_ := localTimeToUtc currentDate (rr_endTime rule) (rr_timezone rule)).
  clearbody start end_.
  destruct (Z.leb_spec (istart range) start); cbn [andb]; [|discriminate].
  destruct (Z.leb_spec end_ (iend range)); [intros [= <-]; cbn [istart iend]; lia|].
  destruct (Z.ltb_spec start (iend range)); [intros [= <-]; cbn [istart iend]; lia|discriminate].
Qed.

Lemma expandLoop_occurrences fuel rule range effectiveEnd maxCount :
  forall currentDate count i,
    In i (expandLoop fuel rule range effectiveEnd maxCount currentDate count) ->
    exists day, currentDate <= day < effectiveEnd
                /\ occurrence rule range day = Some i.
Proof.
  induction fuel as [|fuel IH]; intros currentDate count i; cbn [expandLoop];
    [intros []|].
  destruct (Z.ltb_spec currentDate effectiveEnd) as [Hlt|Hge]; cbn [andb];
    [|intros []].
  destruct (match maxCount with Some m => count <? m | None => true end);
    [|intros []].
  assert (Hnext : currentDate <= addDays currentDate 1)
    by (unfold addDays, JsDate.addUTCDays, JsDate.msPerDay; lia).
  destruct (occurrence rule range currentDate) as [j|] eqn:Hocc.
  - intros [<-|Hin].
    + exists currentDate. split; [lia|exact Hocc].
    + destruct (IH _ _ _ Hin) as (day & Hday & Hd). exists day. split; [lia|exact Hd].
  - intros Hin. destruct (IH _ _ _ Hin) as (day & Hday & Hd).
    exists day. split; [lia|exact Hd].
Qed.


Lemma expandLoop_never fuel rule range effectiveEnd maxCount :
  (forall day, occurrence rule range day = None) ->
  forall currentDate count,
    expandLoop fuel rule range effectiveEnd maxCount currentDate count = [].
Proof.
  intros Hnone. induction fuel as [|fuel IH]; intros currentDate count;
    cbn [expandLoop]; [reflexivity|].
  destruct (_ && _); [|reflexivity]. rewrite Hnone. apply IH.
Qed.

(** X17: every interval [expandRecurrence] returns starts at or after the
    start of the range, and it starts before the end of the range or else
    ends no later than the end of the range; an interval returned whose end
    is after its start therefore starts inside the range. *)
Theorem expandRecurrence_starts_in_range (rule : RecurrenceRule) (range : DateRange)
    (i : Interval) :
  In i (expandRecurrence rule range) ->
  istart range <= istart i
  /\ (istart i < iend range \/ iend i <= iend range)
  /\ (istart i < iend i -> istart i < iend range).
Proof.
  unfold expandRecurrence. intros Hin.
  destruct (expandLoop_occurrences _ _ _ _ _ _ _ _ Hin) as (day & _ & Hocc).
  apply occurrence_bounds in Hocc. lia.
Qed.


(** X19: a rule that lacks the selector of its frequency never fires: a
    weekly or biweekly rule without [days], and a monthly rule without
    [dayOfMonth], expand to nothing, whatever the range. *)
Theorem expandRecurrence_without_selector (rule : RecurrenceRule) (range : DateRange) :
  (rr_frequency rule = weekly /\ rr_days rule = None)
  \/ (rr_frequency rule = biweekly /\ rr_days rule = None)
  \/ (rr_frequency rule = monthly /\ rr_dayOfMonth rule = None) ->
  expandRecurrence rule range = [].
Proof.
  intros H. unfold expandRecurrence. apply expandLoop_never.
  intros day. unfold occurrence, shouldInclude.
  destruct H as [(-> & ->)|[(-> & ->)|(-> & ->)]]; reflexivity.
Qed.

End RecurrenceFacts.

(** X20: being in the same biweekly cycle is an equivalence with at most
    two classes: every date is in cycle with itself, the test is symmetric,
    and [a] is in cycle with [c] exactly when [a] and [c] stand alike to any
    third date [b] (both in cycle with it, or both out of cycle). *)
Theorem isInBiweeklyCycle_equivalence (a b c : Z) :
  isInBiweeklyCycle a a = true
  /\ isInBiweeklyCycle a b = isInBiweeklyCycle b a
  /\ isInBiweeklyCycle a c
     = Bool.eqb (isInBiweeklyCycle a b) (isInBiweeklyCycle b c).
Proof.
  rewrite !isInBiweeklyCycle_parity.
  set (x := getWeekNumber a). set (y := getWeekNumber b). set (z := getWeekNumber c).
  clearbody x y z.
  replace (x - x) with 0 by lia.
  replace (y - x) with (- (x - y)) by lia.
  replace (x - z) with ((x - y) + (y - z)) by lia.
  rewrite Z.even_opp, Z.even_add.
  split; [reflexivity|]. split; reflexivity.
Qed.

(** X17 on the three weeks from 2020-12-28. *)
Lemma expandRecurrence_starts_in_range_witness :
  let range := Examples.threeWeeks in
  let i := {| istart := Examples.dec28 + Examples.hours 9;
              iend := Examples.dec28 + Examples.hours 10 |} in
  istart range <= istart i
  /\ (istart i < iend range \/ iend i <= iend range)
  /\ (istart i < iend i -> istart i < iend range).
Proof.
  apply (expandRecurrence_starts_in_range (intl := utcIntl) Examples.everyOtherMonday).
  vm_compute. left. reflexivity.
Defined.



(** X19 on a weekly rule without [days]. *)
Lemma expandRecurrence_without_selector_witness :
  expandRecurrence (intl := utcIntl) MoreExamples.weeklyWithoutDays Examples.threeWeeks = [].
Proof.
  apply (expandRecurrence_without_selector (intl := utcIntl) MoreExamples.weeklyWithoutDays
           Examples.threeWeeks).
  left. split; reflexivity.
Defined.
(** ** schedule.ts: what [expandSchedule] covers *)

Section ScheduleCoverage.
Context {intl : Intl}.

Lemma clipToRange_covers range l t :
  covers (clipToRange range l) t <-> covers l t /\ istart range <= t < iend range.
Proof.
  unfold clipToRange, covers. split.
  - intros (i & Hi & Ht). apply filter_In in Hi. destruct Hi as (Hi & _).
    apply in_map_iff in Hi. destruct Hi as (a & <- & Ha). cbn [istart iend] in Ht.
    split; [exists a; split; [exact Ha|lia]|lia].
  - intros ((a & Ha & Hta) & Ht).
    exists {| istart := Z.max (istart a) (istart range);
              iend := Z.min (iend a) (iend range) |}.
    split; [|cbn [istart iend]; lia].
    apply filter_In. split.
    + apply in_map_iff. exists a. split; [reflexivity|exact Ha].
    + cbn [istart iend]. apply Z.ltb_lt. lia.
Qed.

Lemma expandSchedule_arrays schedule range :
  expandSchedule schedule range
  = clipToRange range
      (let result := mergeIntervals (ruleIntervals schedule range) in
       let result :=
         match overridesToRemove schedule range with
         | [] => result
         | _ => subtractIntervals result (overridesToRemove schedule range)
         end in
       match overridesToAdd schedule range with
       | [] => result
       | _ => mergeIntervals (result ++ overridesToAdd schedule range)
       end).
Proof. reflexivity. Qed.

(** X21: the instants [expandSchedule] returns are those of the range that
    an override adds, or that a rule gives and no override removes. *)
Theorem expandSchedule_covers (schedule : Schedule) (range : DateRange) (t : Z) :
  covers (expandSchedule schedule range) t
  <-> istart range <= t < iend range
      /\ ((covers (ruleIntervals schedule range) t
           /\ ~ covers (overridesToRemove schedule range) t)
          \/ covers (overridesToAdd schedule range) t).
Proof.
  rewrite expandSchedule_arrays, clipToRange_covers. cbv zeta.
  set (rules := ruleIntervals schedule range).
  set (removed := overridesToRemove schedule range).
  set (added := overridesToAdd schedule range).
  assert (Hsub : covers match removed with
                        | [] => mergeIntervals rules
                        | _ => subtractIntervals (mergeIntervals rules) removed
                        end t
                 <-> covers rules t /\ ~ covers removed t).
  { destruct removed as [|r removed].
    - rewrite mergeIntervals_covers. pose proof (covers_nil t). tauto.
    - rewrite subtractIntervals_covers, mergeIntervals_covers. reflexivity. }
  assert (Hadd : covers match added with
                        | [] => match removed with
                                | [] => mergeIntervals rules
                                | _ => subtractIntervals (mergeIntervals rules) removed
                                end
                        | _ => mergeIntervals
                                 (match removed with
                                  | [] => mergeIntervals rules
                                  | _ => subtractIntervals (mergeIntervals rules) removed
                                  end ++ added)
                        end t
                 <-> (covers rules t /\ ~ covers removed t) \/ covers added t).
  { destruct added as [|a added].
    - rewrite Hsub. pose proof (covers_nil t). tauto.
    - rewrite mergeIntervals_covers, covers_app, Hsub. reflexivity. }
  rewrite Hadd. tauto.
Qed.

End ScheduleCoverage.

(** ** slots.ts: minimum notice and maximum lead time *)

Section SlotNotice.
Context {intl : Intl}.

(** Steps 3 and 4: a free interval starts no earlier than the notice
    allows and ends no later than the lead time allows. *)
Lemma freeIntervalsFor_window input currentTime hostId schedule F :
  In F (freeIntervalsFor input currentTime hostId schedule) ->
  let config := resolveHostConfig (in_eventType input) hostId in
  currentTime + default 0 (et_minimumNotice config) <= istart F
  /\ match et_maximumLeadTime config with
     | Some lead => iend F <= currentTime + lead
     | None => True
     end.
Proof.
  intros HF config. unfold freeIntervalsFor in HF. fold config in HF.
  destruct (et_maximumLeadTime config) as [lead|].
  - apply filter_In in HF. destruct HF as (HF & _).
    apply in_map_iff in HF. destruct HF as (G & <- & HG).
    apply filter_In in HG. destruct HG as (HG & _).
    apply in_map_iff in HG. destruct HG as (G0 & <- & _).
    cbn [istart iend]. lia.
  - apply filter_In in HF. destruct HF as (HF & _).
    apply in_map_iff in HF. destruct HF as (G0 & <- & _).
    cbn [istart iend]. lia.
Qed.

(** X22: every returned slot whose host is in the domain of [inDomain]
    (whole numbers of milliseconds, valid dates, no negative length or
    buffer) honours the notice and the lead time resolved for its host:
    the slot,
    with its buffer before, starts no earlier than [now + minimumNotice],
    and when [maximumLeadTime] is set the slot, with its buffer after,
    ends no later than [now + maximumLeadTime]. *)
Theorem getAvailableSlots_notice_and_lead_time (fuel : nat)
    (input : GetAvailableSlotsInput) (now : Z) (slots : list Slot) (s : Slot) :
  inDomain input now (slot_hostId s) = true ->
  getAvailableSlots fuel input now = Some slots ->
  In s slots ->
  let config := resolveHostConfig (in_eventType input) (slot_hostId s) in
  now + default 0 (et_minimumNotice config) + default 0 (et_bufferBefore config)
    <= slot_start s
  /\ match et_maximumLeadTime config with
     | Some lead => slot_end s + default 0 (et_bufferAfter config) <= now + lead
     | None => True
     end.
Proof.
  intros _ Hrun Hs.
  destruct (getAvailableSlots_In _ _ _ _ _ Hrun Hs) as (h & hs & _ & Hh & Hin).
  destruct (hostSlots_sound _ _ _ _ _ _ Hh Hin) as (Hid & Hend & schedule & F & _ & HF & H1 & H2).
  rewrite Hid. intros config.
  pose proof (freeIntervalsFor_window _ _ _ _ _ HF) as Hw. cbv zeta in Hw.
  fold config in Hw, H1, H2, Hend. destruct Hw as (Hn & Hl).
  split; [lia|].
  destruct (et_maximumLeadTime config); [lia|exact I].
Qed.

End SlotNotice.

(** X22 on the last slot of the buffered query, asked at 08:30 with an
    hour of notice and six of lead time: the slot from 13:55 to 14:25 with
    its five minutes of buffer ends at 14:30. *)
Lemma getAvailableSlots_notice_and_lead_time_witness :
  let now := BufferedExamples.halfPastEight in
  let s := BufferedExamples.checkupAt (Examples.jan1 + Examples.minutes 835) in
  let config :=
    resolveHostConfig (in_eventType BufferedExamples.checkupInput) (slot_hostId s) in
  now + default 0 (et_minimumNotice config) + default 0 (et_bufferBefore config)
    <= slot_start s
  /\ match et_maximumLeadTime config with
     | Some lead => slot_end s + default 0 (et_bufferAfter config) <= now + lead
     | None => True
     end.
Proof.
  apply (getAvailableSlots_notice_and_lead_time (intl := utcIntl) 32
           BufferedExamples.checkupInput BufferedExamples.halfPastEight
           BufferedExamples.checkupSlots
           (BufferedExamples.checkupAt (Examples.jan1 + Examples.minutes 835))).
  - vm_compute. reflexivity.
  - vm_compute. reflexivity.
  - vm_compute. do 6 right. left. reflexivity.
Defined.
(** ** schedule.ts and helpers.ts: wall-clock times in a zone of fixed offset *)

(** [Date.UTC] of the date of a day of the year 100 or later. *)
Lemma UTC_civil z hours minutes seconds :
  JsDate.daysFromCivil 100 1 1 <= z ->
  JsDate.UTC (fst (fst (JsDate.civilFromDays z)))
             (snd (fst (JsDate.civilFromDays z)) - 1)
             (snd (JsDate.civilFromDays z)) hours minutes seconds
  = z * JsDate.msPerDay + hours * JsDate.msPerHour + minutes * JsDate.msPerMinute
    + seconds * 1000.
Proof.
  intros Hz. rewrite UTC_plain by (now apply year_from_100).
  pose proof (civilFromDays_facts z) as H.
  destruct (JsDate.civilFromDays z) as [[y m] d]. cbn [fst snd].
  destruct H as (_ & _ & H & _). unfold JsDate.makeDate.
  replace (m - 1 + 1) with m by lia. now rewrite H.
Qed.

(** The ISO date string of the date of a day, parsed. *)
Lemma makeDate_civil z hours minutes seconds :
  JsDate.makeDate (fst (fst (JsDate.civilFromDays z)))
                  (snd (fst (JsDate.civilFromDays z)) - 1)
                  (snd (JsDate.civilFromDays z)) hours minutes seconds
  = z * JsDate.msPerDay + hours * JsDate.msPerHour + minutes * JsDate.msPerMinute
    + seconds * 1000.
Proof.
  pose proof (civilFromDays_facts z) as H.
  destruct (JsDate.civilFromDays z) as [[y m] d]. cbn [fst snd].
  destruct H as (_ & _ & H & _). unfold JsDate.makeDate.
  replace (m - 1 + 1) with m by lia. now rewrite H.
Qed.

Lemma fourDigitYear_day reading :
  fourDigitYear reading = true ->
  JsDate.daysFromCivil 100 1 1 + 2 <= JsDate.dayOf reading.
Proof.
  unfold fourDigitYear. intros H. apply andb_prop in H as [H _].
  apply Z.leb_le in H. change (JsDate.makeDate 1000 0 1 0 0 0) with (-30610224000000) in H.
  change (JsDate.daysFromCivil 100 1 1) with (-683003).
  unfold JsDate.dayOf, JsDate.msPerDay. Z.to_euclidean_division_equations; lia.
Qed.

Lemma timeOfDay_bounds time :
  timeOfDay time = true ->
  0 <= lt_hours time * JsDate.msPerHour + lt_minutes time * JsDate.msPerMinute
    < JsDate.msPerDay.
Proof.
  unfold timeOfDay. intros H. repeat (apply andb_prop in H as [H ?]).
  unfold JsDate.msPerHour, JsDate.msPerMinute, JsDate.msPerDay. lia.
Qed.

Section FixedOffset.
Context {intl : Intl}.
Variables (timezone : string) (offset : Z).
Hypothesis fixed : forall t, tzOffset timezone t = offset.

Lemma getTimezoneOffset_fixed utcDate :
  JsDate.daysFromCivil 100 1 1 <= JsDate.dayOf (utcDate + offset) ->
  getTimezoneOffset utcDate timezone = offset - (utcDate + offset) mod 1000.
Proof.
  intros Hday. unfold getTimezoneOffset, zonedTime. rewrite fixed.
  set (loc := utcDate + offset) in *.
  pose proof (UTC_civil (JsDate.dayOf loc)
                (JsDate.timeInDay loc / JsDate.msPerHour)
                (JsDate.timeInDay loc mod JsDate.msPerHour / JsDate.msPerMinute)
                (JsDate.timeInDay loc mod JsDate.msPerMinute / 1000) Hday) as H.
  destruct (JsDate.civilFromDays (JsDate.dayOf loc)) as [[y m] d]. cbn [fst snd] in H.
  rewrite H. clear Hday.
  unfold JsDate.dayOf, JsDate.timeInDay, JsDate.msPerDay, JsDate.msPerHour,
    JsDate.msPerMinute.
  assert (Hloc : loc = utcDate + offset) by reflexivity. clearbody loc.
  Z.to_euclidean_division_equations; lia.
Qed.

Lemma localTimeToUTC_fixed date time :
  offset mod 1000 = 0 ->
  - JsDate.msPerDay <= offset <= JsDate.msPerDay ->
  timeOfDay time = true ->
  JsDate.daysFromCivil 100 1 1 + 2 <= JsDate.dayOf (zonedTime date timezone) ->
  localTimeToUTC date time timezone = wallClockOn timezone date time - offset.
Proof.
  intros Hoff Hsmall Htime Hday. apply timeOfDay_bounds in Htime.
  unfold localTimeToUTC, getDateStringInTimezone, wallClockOn.
  assert (Hday0 : JsDate.daysFromCivil 100 1 1 <= JsDate.dayOf (zonedTime date timezone))
    by lia.
  pose proof (UTC_civil (JsDate.dayOf (zonedTime date timezone))
                (lt_hours time) (lt_minutes time) 0 Hday0) as H.
  clear Hday0.
  destruct (JsDate.civilFromDays (JsDate.dayOf (zonedTime date timezone)))
    as [[y m] d]. cbn [fst snd] in H.
  rewrite H.
  set (day := JsDate.dayOf (zonedTime date timezone)) in *. clearbody day.
  set (h := lt_hours time) in *. set (mi := lt_minutes time) in *. clearbody h mi.
  unfold JsDate.msPerDay, JsDate.msPerHour, JsDate.msPerMinute in *.
  change (JsDate.daysFromCivil 100 1 1) with (-683003) in Hday.
  rewrite (getTimezoneOffset_fixed
             (day * 86400000 + h * 3600000 + mi * 60000 + 0 * 1000)).
  2:{ change (JsDate.daysFromCivil 100 1 1) with (-683003).
      unfold JsDate.dayOf, JsDate.msPerDay. Z.to_euclidean_division_equations; lia. }
  assert (H1 : (day * 86400000 + h * 3600000 + mi * 60000 + 0 * 1000 + offset) mod 1000 = 0)
    by (Z.to_euclidean_division_equations; lia).
  rewrite H1.
  rewrite getTimezoneOffset_fixed.
  2:{ change (JsDate.daysFromCivil 100 1 1) with (-683003).
      unfold JsDate.dayOf, JsDate.msPerDay. Z.to_euclidean_division_equations; lia. }
  assert (H2 : (day * 86400000 + h * 3600000 + mi * 60000 + 0 * 1000 - (offset - 0) + offset)
               mod 1000 = 0)
    by (Z.to_euclidean_division_equations; lia).
  rewrite H2, Z.eqb_refl. cbn [negb]. lia.
Qed.

Lemma localTimeToUtc_fixed date time :
  offset mod 60000 = 0 ->
  - JsDate.msPerDay <= offset <= JsDate.msPerDay ->
  timeOfDay time = true ->
  JsDate.daysFromCivil 100 1 1 + 2 <= JsDate.dayOf (zonedTime date timezone) ->
  localTimeToUtc date time timezone = wallClockOn timezone date time - offset.
Proof.
  intros Hoff Hsmall Htime Hday. apply timeOfDay_bounds in Htime.
  unfold localTimeToUtc, getDateStringInTimezone, wallClockOn.
  assert (Hday0 : JsDate.daysFromCivil 100 1 1 <= JsDate.dayOf (zonedTime date timezone))
    by lia.
  pose proof (UTC_civil (JsDate.dayOf (zonedTime date timezone))
                (lt_hours time) (lt_minutes time) 0 Hday0) as H.
  clear Hday0.
  pose proof (makeDate_civil (JsDate.dayOf (zonedTime date timezone))
                (lt_hours time) (lt_minutes time) 0) as Hm.
  destruct (JsDate.civilFromDays (JsDate.dayOf (zonedTime date timezone)))
    as [[y m] d]. cbn [fst snd] in H, Hm.
  rewrite H, Hm.
  set (day := JsDate.dayOf (zonedTime date timezone)) in *. clearbody day.
  set (h := lt_hours time) in *. set (mi := lt_minutes time) in *. clearbody h mi.
  set (temp := day * JsDate.msPerDay + h * JsDate.msPerHour + mi * JsDate.msPerMinute
               + 0 * 1000).
  unfold zonedTime. rewrite fixed.
  set (loc := temp + offset).
  assert (Hh : (JsDate.timeInDay loc / JsDate.msPerHour =? 24) = false).
  { apply Z.eqb_neq. unfold JsDate.timeInDay, JsDate.msPerDay, JsDate.msPerHour.
    Z.to_euclidean_division_equations; lia. }
  rewrite Hh.
  assert (Hloc : JsDate.daysFromCivil 100 1 1 <= JsDate.dayOf loc).
  { subst loc temp. change (JsDate.daysFromCivil 100 1 1) with (-683003) in *.
    unfold JsDate.dayOf, JsDate.msPerDay, JsDate.msPerHour, JsDate.msPerMinute in *.
    Z.to_euclidean_division_equations; lia. }
  pose proof (UTC_civil (JsDate.dayOf loc)
                (JsDate.timeInDay loc / JsDate.msPerHour)
                (JsDate.timeInDay loc mod JsDate.msPerHour / JsDate.msPerMinute) 0 Hloc)
    as H'.
  destruct (JsDate.civilFromDays (JsDate.dayOf loc)) as [[y' m'] d']. cbn [fst snd] in H'.
  rewrite H'. clear Hloc Hday Htime. subst loc temp.
  unfold JsDate.dayOf, JsDate.timeInDay, JsDate.msPerDay, JsDate.msPerHour,
    JsDate.msPerMinute in *.
  Z.to_euclidean_division_equations; lia.
Qed.

End FixedOffset.

(** X23: in a zone whose offset from UTC never changes, is a whole number
    of minutes and is at most a day, for a time [HH:MM] of the day and a
    date that falls, in the zone, in a year of four digits (1000 to 9999),
    neither the requested time nor that time moved by the offset being in
    the hour after midnight: the two conversions of a wall-clock time
    ([localTimeToUTC] of schedule.ts and [localTimeToUtc] of helpers.ts)
    agree, and the instant they give reads, in the zone, as the requested
    hours and minutes after the local midnight of the day [date] falls
    on. *)
Theorem localTimeToUTC_fixed_offset {intl : Intl} (timezone : string) (offset : Z)
    (date : Z) (time : LocalTime) :
  (forall t, tzOffset timezone t = offset) ->
  offset mod 60000 = 0 ->
  - JsDate.msPerDay <= offset <= JsDate.msPerDay ->
  fourDigitYear (zonedTime date timezone) = true ->
  timeOfDay time = true ->
  afterFirstHour (wallClockOn timezone date time) = true ->
  afterFirstHour (wallClockOn timezone date time + offset) = true ->
  localTimeToUtc date time timezone = localTimeToUTC date time timezone
  /\ zonedTime (localTimeToUTC date time timezone) timezone
     = JsDate.dayOf (zonedTime date timezone) * JsDate.msPerDay
       + lt_hours time * JsDate.msPerHour + lt_minutes time * JsDate.msPerMinute.
Proof.
  intros Hfixed Hoff Hsmall Hyear Htime _ _.
  apply fourDigitYear_day in Hyear.
  assert (Hs : offset mod 1000 = 0) by (Z.to_euclidean_division_equations; lia).
  rewrite (localTimeToUtc_fixed timezone offset Hfixed date time Hoff Hsmall Htime Hyear).
  rewrite (localTimeToUTC_fixed timezone offset Hfixed date time Hs Hsmall Htime Hyear).
  split; [reflexivity|].
  unfold zonedTime at 1. rewrite Hfixed. unfold wallClockOn. lia.
Qed.

(** X23 at 09:30 on 2024-01-01 in the zone [Etc/GMT-5], five hours ahead
    of UTC: both conversions give 04:30 UTC. *)
Lemma localTimeToUTC_fixed_offset_witness :
  let zone := "Etc/GMT-5"%string in
  let time := mkLocalTime 9 30 in
  localTimeToUtc (intl := fixedZoneIntl) Examples.jan1 time zone
  = localTimeToUTC (intl := fixedZoneIntl) Examples.jan1 time zone
  /\ zonedTime (intl := fixedZoneIntl)
       (localTimeToUTC (intl := fixedZoneIntl) Examples.jan1 time zone) zone
     = JsDate.dayOf (zonedTime (intl := fixedZoneIntl) Examples.jan1 zone)
       * JsDate.msPerDay
       + lt_hours time * JsDate.msPerHour + lt_minutes time * JsDate.msPerMinute.
Proof.
  apply (localTimeToUTC_fixed_offset (intl := fixedZoneIntl) "Etc/GMT-5"
           (5 * JsDate.msPerHour) Examples.jan1 (mkLocalTime 9 30)).
  - intros t. reflexivity.
  - reflexivity.
  - vm_compute. split; discriminate.
  - vm_compute. reflexivity.
  - vm_compute. reflexivity.
  - vm_compute. reflexivity.
  - vm_compute. reflexivity.
Defined.

(** In that zone 09:30 on 2024-01-01 is 04:30 UTC. *)
Example local_time_five_hours_ahead :
  localTimeToUTC (intl := fixedZoneIntl) Examples.jan1 (mkLocalTime 9 30) "Etc/GMT-5"
  = Examples.jan1 + Examples.hours 4 + Examples.minutes 30.
Proof. vm_compute. reflexivity. Qed.
(** ** entitlements.ts: the queries agree with one another *)

Section QueryFacts.
Context {fns : DateFns} {add : DateFnsAdd.Fns}.

Ltac run_query :=
  unfold check, remainingUses, availableAt, loadUsage, computeAvailableAtNow,
    resolveWindowNow, callGetEntitlements, callGetUsage, newDate,
    mbind, query_bind, mret, query_ret;
  cbn -[computeAvailableAt checkLimit nextReset resolveWindow].

Lemma limitInRange_bound limit : limitInRange limit = true -> Z.abs limit < 2 ^ 53.
Proof. unfold limitInRange. apply Z.ltb_lt. Qed.

Lemma countInRange_bound n : countInRange n = true -> 0 <= n <= 2 ^ 53.
Proof. unfold countInRange. intros H. apply andb_prop in H as [H1 H2]. lia. Qed.

(** Rounding keeps the sign. *)
Lemma JsNumber_round_pos x : 0 < JsNumber.round x <-> 0 < x.
Proof.
  destruct (Z.le_gt_cases (Z.abs x) (2 ^ 53)) as [Hs|Hl].
  - now rewrite JsNumber_round_exact.
  - destruct (Z.le_gt_cases 0 x).
    + pose proof (JsNumber_round_above x ltac:(lia)). lia.
    + pose proof (JsNumber_round_below x ltac:(lia)). lia.
Qed.

(** The uses [remainingUses] reports are enough for an amount exactly
    when the amount fits under the limit. *)
Lemma remaining_enough limit used amount :
  Z.abs limit < 2 ^ 53 -> 0 <= used <= 2 ^ 53 -> 1 <= amount ->
  amount <= Z.max 0 (JsNumber.sub limit used) <-> used + amount <= limit.
Proof.
  intros Hlimit Hused Hamount. unfold JsNumber.sub.
  destruct (Z.le_gt_cases (- 2 ^ 53) (limit - used)) as [Hd|Hd].
  - rewrite JsNumber_round_exact by lia. lia.
  - pose proof (JsNumber_round_below (limit - used) ltac:(lia)). lia.
Qed.

(** X24: for an action that [entitlements[action]] finds only if the
    actor has an entitlement for it, whole numbers with a limit below
    [2 ^ 53] in magnitude, a usage between 0 and [2 ^ 53] and an amount
    between 1 and [2 ^ 53], [check] and [remainingUses] agree: the request
    is allowed exactly when [remainingUses] reports no limit or at least
    that many uses, and both queries make the same calls on the
    adapter. *)
Theorem check_agrees_with_remainingUses (input : CheckInput) (w : World) :
  knownAction w (ci_actorId input) (ci_action input) = true ->
  countsInRange w (ci_actorId input) (ci_action input) = true ->
  1 <= default 1 (ci_consume input) <= 2 ^ 53 ->
  let remaining :=
    remainingUses {| rui_actorId := ci_actorId input; rui_action := ci_action input |} w in
  (dc_allowed (fst (check input w)) = true
   <-> match ru_uses (fst remaining) with
       | None => True
       | Some uses => default 1 (ci_consume input) <= uses
       end)
  /\ w_calls (snd (check input w)) = w_calls (snd remaining).
Proof.
  intros _ Hrange Hpos. destruct w as [clock adapter calls].
  unfold countsInRange, usageOf in Hrange. cbn [w_adapter w_clock] in Hrange.
  run_query.
  destruct (getEntitlements adapter (ci_actorId input) !! ci_action input)
    as [[[limit|] window]|]; cbn -[checkLimit JsNumber.sub Z.max].
  - cbn [ent_limit ent_window] in Hrange.
    apply andb_prop in Hrange as [Hl Hu].
    apply limitInRange_bound in Hl. apply countInRange_bound in Hu.
    destruct window as [window|]; cbn in Hu; cbn -[checkLimit JsNumber.sub Z.max];
      (split; [|reflexivity]);
      rewrite (remaining_enough _ _ _ Hl Hu) by lia;
      rewrite (checkLimit_exact _ _ _ Hl Hu) by lia;
      match goal with |- context [?a <? ?b] => destruct (Z.ltb_spec a b) end; cbn;
      split; intros; try lia; try discriminate; auto.
  - destruct window as [window|]; cbn; (split; [|reflexivity]); tauto.
  - split; [|reflexivity]. split; [discriminate|lia].
Qed.

Lemma computeAvailableAt_now limit used window at_ :
  computeAvailableAt limit used window at_ = StatusNow
  <-> match limit with None => True | Some limit => used < limit end.
Proof.
  unfold computeAvailableAt. destruct limit as [limit|]; [|tauto].
  destruct (Z.ltb_spec used limit) as [Hlt|Hge]; [tauto|].
  split; [|lia].
  destruct window as [[unit timezone|duration| |start end_]|]; discriminate.
Qed.

Lemma computeAvailableAt_known limit used window at_ reason :
  computeAvailableAt limit used window at_ <> StatusUnknown reason.
Proof.
  unfold computeAvailableAt. destruct limit as [limit|]; [|discriminate].
  destruct (used <? limit); [discriminate|].
  destruct window as [[unit timezone|duration| |start end_]|]; discriminate.
Qed.

(** X25: for whole numbers with a limit below [2 ^ 53] in magnitude and
    a usage between 0 and [2 ^ 53], and a window whose next reset, if the
    limit is reached, is a valid date, the three functions of limits.ts
    agree: [availableAt] answers [now] exactly when [checkLimit] allows
    one more use, and exactly when [remainingQuota] is unlimited or
    positive; it never answers [unknown]; and an answer [at] gives the
    next reset of the window, a valid date. *)
Theorem computeAvailableAt_answers (limit : option Z) (used : Z)
    (window : option WindowSpec) (at_ : Z) :
  limitInRange (default 0 limit) = true -> countInRange used = true ->
  match limit with Some limit => used <? limit | None => true end
  || resetValid window at_ = true ->
  (computeAvailableAt limit used window at_ = StatusNow
   <-> lc_allowed (checkLimit limit used (Some 1)) = true)
  /\ (computeAvailableAt limit used window at_ = StatusNow
      <-> match remainingQuota limit used with
          | None => True
          | Some remaining => 0 < remaining
          end)
  /\ (forall reason, computeAvailableAt limit used window at_ <> StatusUnknown reason)
  /\ (forall resetTime reason,
        computeAvailableAt limit used window at_ = StatusAt resetTime reason ->
        exists spec, window = Some spec /\ nextReset spec at_ = Some resetTime
                     /\ reason = LimitResetsAt resetTime
                     /\ validTime resetTime = true).
Proof.
  intros Hl Hu Hreset.
  apply limitInRange_bound in Hl. apply countInRange_bound in Hu.
  rewrite computeAvailableAt_now.
  split; [|split; [|split; [intros reason; apply computeAvailableAt_known|]]].
  - destruct limit as [limit|]; [|cbn; tauto].
    change (default 0 (Some limit)) with limit in Hl.
    rewrite (checkLimit_exact limit used 1 Hl Hu) by (vm_compute; split; discriminate).
    destruct (Z.ltb_spec limit (used + 1)); cbn; split; intros; lia || discriminate || auto.
  - destruct limit as [limit|]; [|cbn; tauto].
    unfold remainingQuota, JsNumber.sub.
    pose proof (JsNumber_round_pos (limit - used)). lia.
  - unfold computeAvailableAt, resetValid in *.
    intros resetTime reason. destruct limit as [limit|]; [|discriminate].
    destruct (used <? limit); [discriminate|]. cbn [orb] in Hreset.
    destruct window as [[unit timezone|duration| |start end_]|]; try discriminate;
      cbn in *; intros [= <- <-];
      (eexists; split; [reflexivity|]; split; [reflexivity|]; split;
       [reflexivity|exact Hreset]).
Qed.

(** X26: for an action that [entitlements[action]] finds only if the
    actor has an entitlement for it, and whose window, if its limit is
    reached, resets at a valid date: the query [availableAt] answers [now] exactly when
    [remainingUses] reports no limit or a positive number of uses; it
    never answers [unknown]; and both queries make the same calls on the
    adapter. *)
Theorem availableAt_agrees_with_remainingUses (actorId action : string) (w : World) :
  knownAction w actorId action = true ->
  resetsValid w actorId action = true ->
  let answer :=
    availableAt {| aai_actorId := actorId; aai_action := action |} w in
  let remaining :=
    remainingUses {| rui_actorId := actorId; rui_action := action |} w in
  (fst answer = StatusNow
   <-> match ru_uses (fst remaining) with
       | None => True
       | Some uses => 0 < uses
       end)
  /\ (forall reason, fst answer <> StatusUnknown reason)
  /\ w_calls (snd answer) = w_calls (snd remaining).
Proof.
  intros _ _. destruct w as [clock adapter calls]. run_query.
  assert (Hpos : forall limit used,
             0 < Z.max 0 (JsNumber.sub limit used) <-> used < limit).
  { intros limit used. unfold JsNumber.sub.
    pose proof (JsNumber_round_pos (limit - used)). lia. }
  destruct (getEntitlements adapter actorId !! action) as [[limit window]|];
    cbn -[computeAvailableAt].
  - destruct limit as [limit|]; cbn -[computeAvailableAt].
    + destruct window as [window|]; cbn -[computeAvailableAt];
        (split; [rewrite computeAvailableAt_now, Hpos; tauto|]);
        (split; [intros reason; apply computeAvailableAt_known|reflexivity]).
    + destruct window as [window|]; cbn; (split; [tauto|]);
        (split; [discriminate|reflexivity]).
  - split; [split; [discriminate|lia]|]. split; [discriminate|reflexivity].
Qed.

End QueryFacts.
Section CapabilityFacts.
Context {fns : DateFns} {add : DateFnsAdd.Fns}.

(** Two worlds with the same clock and the same adapter. *)
Lemma loadUsage_run actorId action entitlement w :
  fst (fst (loadUsage actorId action entitlement w)) = usageOf w actorId action entitlement
  /\ w_clock (snd (loadUsage actorId action entitlement w)) = w_clock w
  /\ w_adapter (snd (loadUsage actorId action entitlement w)) = w_adapter w.
Proof.
  destruct w as [clock adapter calls]. unfold loadUsage, usageOf.
  destruct (ent_limit entitlement), (ent_window entitlement); repeat split; reflexivity.
Qed.

Lemma quotaStateOf_run actorId action entitlement w :
  qs_used (fst (quotaStateOf actorId action entitlement w))
  = usageOf w actorId action entitlement
  /\ w_clock (snd (quotaStateOf actorId action entitlement w)) = w_clock w
  /\ w_adapter (snd (quotaStateOf actorId action entitlement w)) = w_adapter w.
Proof.
  unfold quotaStateOf, mbind, query_bind.
  pose proof (loadUsage_run actorId action entitlement w) as (Hu & Hc & Ha).
  destruct (loadUsage actorId action entitlement w) as [[used interval] w1].
  cbn [fst snd] in *.
  destruct (ent_window entitlement); cbn; auto.
Qed.

Lemma availableAt_run actorId action w :
  fst (availableAt {| aai_actorId := actorId; aai_action := action |} w)
  = match getEntitlements (w_adapter w) actorId !! action with
    | None => StatusNever (NoEntitlementFor action)
    | Some entitlement =>
        computeAvailableAt (ent_limit entitlement) (usageOf w actorId action entitlement)
          (ent_window entitlement) (w_clock w)
    end.
Proof.
  destruct w as [clock adapter calls].
  unfold availableAt, callGetEntitlements, mbind, query_bind. cbn [fst snd aai_actorId aai_action w_adapter w_clock w_calls].
  destruct (getEntitlements adapter actorId !! action) as [entitlement|]; [|reflexivity].
  match goal with |- context [loadUsage ?a ?b ?e ?w] =>
    pose proof (loadUsage_run a b e w) as (Hu & Hc & Ha);
    destruct (loadUsage a b e w) as [[used interval] w1] end.
  cbn [fst snd] in *. unfold computeAvailableAtNow, newDate, mbind, query_bind, mret, query_ret.
  cbn [fst snd]. rewrite Hu, Hc. reflexivity.
Qed.

Lemma exhausted_not_now limit used window at_ :
  match limit with Some limit => limit <=? used | None => false end = false
  <-> computeAvailableAt limit used window at_ = StatusNow.
Proof.
  rewrite computeAvailableAt_now.
  destruct limit as [limit|]; [|tauto]. rewrite Z.leb_gt. tauto.
Qed.

Lemma capabilitiesLoop_step actorId entitlements action rest result summary w
    entitlement :
  entitlements !! action = Some entitlement ->
  exists capability w',
    w_clock w' = w_clock w /\ w_adapter w' = w_adapter w
    /\ capabilitiesLoop actorId entitlements (action :: rest) result summary w
       = capabilitiesLoop actorId entitlements rest (<[action := capability]> result)
           (if match ent_limit entitlement with
               | Some limit => limit <=? usageOf w actorId action entitlement
               | None => false
               end
            then {| sm_available := sm_available summary;
                    sm_exhausted := sm_exhausted summary ++ [action];
                    sm_unavailable := sm_unavailable summary |}
            else {| sm_available := sm_available summary ++ [action];
                    sm_exhausted := sm_exhausted summary;
                    sm_unavailable := sm_unavailable summary |}) w'.
Proof.
  intros Hlook. cbn [capabilitiesLoop]. rewrite Hlook.
  unfold mbind at 1, query_bind at 1.
  pose proof (quotaStateOf_run actorId action entitlement w) as (Hu & Hc & Ha).
  destruct (quotaStateOf actorId action entitlement w) as [quotaState w1].
  cbn [fst snd] in Hu, Hc, Ha. cbv zeta. rewrite Hu.
  destruct (match ent_limit entitlement with
            | Some limit => limit <=? usageOf w actorId action entitlement
            | None => false
            end).
  - unfold mbind at 1, query_bind at 1, computeAvailableAtNow at 1, newDate at 1,
      mbind at 1, query_bind at 1, mret at 1, query_ret at 1.
    eexists. exists w1. split; [exact Hc|]. split; [exact Ha|reflexivity].
  - eexists. exists w1. split; [exact Hc|]. split; [exact Ha|reflexivity].
Qed.

Lemma availableAt_env actorId action w w' :
  w_clock w' = w_clock w -> w_adapter w' = w_adapter w ->
  fst (availableAt {| aai_actorId := actorId; aai_action := action |} w')
  = fst (availableAt {| aai_actorId := actorId; aai_action := action |} w).
Proof.
  intros Hc Ha. rewrite !availableAt_run, Hc, Ha.
  destruct (getEntitlements (w_adapter w) actorId !! action); [|reflexivity].
  unfold usageOf. now rewrite Hc, Ha.
Qed.

Lemma capabilitiesLoop_summary actorId entitlements w0 actions :
  entitlements = getEntitlements (w_adapter w0) actorId ->
  forall result summary w,
    w_clock w = w_clock w0 -> w_adapter w = w_adapter w0 ->
    let caps := fst (capabilitiesLoop actorId entitlements actions result summary w) in
    let answer a :=
      fst (availableAt {| aai_actorId := actorId; aai_action := a |} w0) in
    (forall a, In a (sm_unavailable (cp_summary caps))
               <-> In a (sm_unavailable summary)
                   \/ (In a actions /\ entitlements !! a = None))
    /\ (forall a, In a (sm_available (cp_summary caps))
                  <-> In a (sm_available summary)
                      \/ (In a actions /\ answer a = StatusNow))
    /\ (forall a, In a (sm_exhausted (cp_summary caps))
                  <-> In a (sm_exhausted summary)
                      \/ (In a actions /\ entitlements !! a <> None
                          /\ answer a <> StatusNow))
    /\ (forall a, is_Some (cp_actions caps !! a)
                  <-> is_Some (result !! a) \/ In a actions)
    /\ (length (sm_available (cp_summary caps))
        + length (sm_exhausted (cp_summary caps))
        + length (sm_unavailable (cp_summary caps))
        = length (sm_available summary) + length (sm_exhausted summary)
          + length (sm_unavailable summary) + length actions)%nat.
Proof.
  intros Hents.
  induction actions as [|action rest IH]; intros result summary w Hc Ha caps answer.
  - subst caps. cbn. repeat split; try tauto; try lia; intros [H|[[] _]]; exact H.
  - assert (Hhere : answer action
                    = match entitlements !! action with
                      | None => StatusNever (NoEntitlementFor action)
                      | Some entitlement =>
                          computeAvailableAt (ent_limit entitlement)
                            (usageOf w actorId action entitlement)
                            (ent_window entitlement) (w_clock w)
                      end).
    { subst answer. cbv beta. rewrite availableAt_run, <- Hents, Hc.
      destruct (entitlements !! action); [|reflexivity].
      unfold usageOf. now rewrite Hc, Ha. }
    assert (Hmap : forall (capability : ActionCapability) a,
               is_Some (<[action := capability]> result !! a) \/ In a rest
               <-> is_Some (result !! a) \/ In a (action :: rest)).
    { intros capability a. cbn [In]. destruct (decide (a = action)) as [->|Hn].
      - rewrite lookup_insert_eq. split; [auto|]. intros _. left. eauto.
      - rewrite lookup_insert_ne by congruence. split; intros [H|H]; auto.
        destruct H as [H|H]; [congruence|auto]. }
    destruct (entitlements !! action) as [entitlement|] eqn:Hlook.
    + destruct (capabilitiesLoop_step actorId entitlements action rest result summary w
                  entitlement Hlook) as (capability & w' & Hc' & Ha' & Heq).
      subst caps. rewrite Heq. clear Heq.
      pose proof (exhausted_not_now (ent_limit entitlement)
                    (usageOf w actorId action entitlement) (ent_window entitlement)
                    (w_clock w)) as Hex.
      rewrite <- Hhere in Hex.
      match goal with |- context [capabilitiesLoop _ _ _ ?r ?s w'] =>
        specialize (IH r s w') end.
      specialize (IH ltac:(congruence) ltac:(congruence)). cbv zeta in IH.
      destruct IH as (I1 & I2 & I3 & I4 & I5).
      destruct (match ent_limit entitlement with
                | Some limit => limit <=? usageOf w actorId action entitlement
                | None => false
                end);
        cbn [sm_available sm_exhausted sm_unavailable] in *.
      * assert (Hne : answer action <> StatusNow) by (intros H; apply Hex in H; discriminate).
        split; [|split; [|split; [|split]]].
        -- intros a. rewrite I1. cbn [In].
           split; [intros [H|[H1 H2]]; auto|intros [H|[[<-|H1] H2]]; [auto|congruence|auto]].
        -- intros a. rewrite I2. cbn [In].
           split; [intros [H|[H1 H2]]; auto|intros [H|[[<-|H1] H2]]; [auto|contradiction|auto]].
        -- intros a. rewrite I3, in_app_iff. cbn [In].
           split.
           ++ intros [[H|[<-|[]]]|(H1 & H2 & H3)]; [auto| |auto].
              right. split; [now left|]. split; [congruence|exact Hne].
           ++ intros [H|([<-|H1] & H2 & H3)]; auto.
        -- intros a. rewrite I4. apply Hmap.
        -- rewrite I5, length_app. cbn [length]. lia.
      * assert (Hnow : answer action = StatusNow) by (now apply Hex).
        split; [|split; [|split; [|split]]].
        -- intros a. rewrite I1. cbn [In].
           split; [intros [H|[H1 H2]]; auto|intros [H|[[<-|H1] H2]]; [auto|congruence|auto]].
        -- intros a. rewrite I2, in_app_iff. cbn [In].
           split.
           ++ intros [[H|[<-|[]]]|(H1 & H2)]; auto.
           ++ intros [H|([<-|H1] & H2)]; auto.
        -- intros a. rewrite I3. cbn [In].
           split; [intros [H|(H1 & H2 & H3)]; auto|].
           intros [H|([<-|H1] & H2 & H3)]; [auto|contradiction|auto].
        -- intros a. rewrite I4. apply Hmap.
        -- rewrite I5, length_app. cbn [length]. lia.
    + subst caps. cbn [capabilitiesLoop]. rewrite Hlook.
      match goal with |- context [capabilitiesLoop _ _ _ ?r ?s w] =>
        specialize (IH r s w Hc Ha) end.
      cbv zeta in IH.
      destruct IH as (I1 & I2 & I3 & I4 & I5).
      cbn [sm_available sm_exhausted sm_unavailable] in *.
      assert (Hne : answer action <> StatusNow) by (rewrite Hhere; discriminate).
      split; [|split; [|split; [|split]]].
      -- intros a. rewrite I1, in_app_iff. cbn [In].
         split.
         ++ intros [[H|[<-|[]]]|(H1 & H2)]; auto.
         ++ intros [H|([<-|H1] & H2)]; auto.
      -- intros a. rewrite I2. cbn [In].
         split; [intros [H|[H1 H2]]; auto|intros [H|[[<-|H1] H2]]; [auto|contradiction|auto]].
      -- intros a. rewrite I3. cbn [In].
         split; [intros [H|(H1 & H2 & H3)]; auto|].
         intros [H|([<-|H1] & H2 & H3)]; [auto|congruence|auto].
      -- intros a. rewrite I4. apply Hmap.
      -- rewrite I5, length_app. cbn [length]. lia.
Qed.

(** X27: when each requested action is one that [entitlements[action]]
    finds only if the actor has an entitlement for it, is not
    [__proto__], and is one whose window, if its limit is reached, resets
    at a valid date, [capabilities] sorts the
    requested actions into its three lists: an action is listed as
    unavailable exactly when it was requested and has no entitlement, as
    available exactly when it was requested and the query [availableAt]
    answers [now] for it, and as exhausted exactly when it was requested,
    has an entitlement and [availableAt] does not answer [now]; the lists
    have as many entries together as there were requests, and [actions]
    has an entry exactly for the requested actions. *)
Theorem capabilities_summary (input : CapabilitiesInput) (w : World) (a : string) :
  forallb (fun action => knownAction w (cpi_actorId input) action
                         && settableKey action
                         && resetsValid w (cpi_actorId input) action)
    (cpi_actions input) = true ->
  let caps := fst (capabilities input w) in
  let entitlements := getEntitlements (w_adapter w) (cpi_actorId input) in
  let answer :=
    fst (availableAt {| aai_actorId := cpi_actorId input; aai_action := a |} w) in
  (In a (sm_unavailable (cp_summary caps))
   <-> In a (cpi_actions input) /\ entitlements !! a = None)
  /\ (In a (sm_available (cp_summary caps))
      <-> In a (cpi_actions input) /\ answer = StatusNow)
  /\ (In a (sm_exhausted (cp_summary caps))
      <-> In a (cpi_actions input) /\ entitlements !! a <> None
          /\ answer <> StatusNow)
  /\ (is_Some (cp_actions caps !! a) <-> In a (cpi_actions input))
  /\ (length (sm_available (cp_summary caps))
      + length (sm_exhausted (cp_summary caps))
      + length (sm_unavailable (cp_summary caps))
      = length (cpi_actions input))%nat.
Proof.
  intros _ caps entitlements answer.
  destruct w as [clock adapter calls].
  pose proof (capabilitiesLoop_summary (cpi_actorId input) entitlements
                {| w_clock := clock; w_adapter := adapter; w_calls := calls |}
                (cpi_actions input) eq_refl ∅
                {| sm_available := []; sm_exhausted := []; sm_unavailable := [] |}
                {| w_clock := clock; w_adapter := adapter;
                   w_calls := calls ++ [GetEntitlementsCall (cpi_actorId input)] |}
                eq_refl eq_refl) as H.
  cbv zeta in H. destruct H as (H1 & H2 & H3 & H4 & H5).
  change (fst (capabilitiesLoop (cpi_actorId input) entitlements (cpi_actions input) ∅
                 {| sm_available := []; sm_exhausted := []; sm_unavailable := [] |}
                 {| w_clock := clock; w_adapter := adapter;
                    w_calls := calls ++ [GetEntitlementsCall (cpi_actorId input)] |}))
    with caps in *.
  split; [rewrite H1; cbn [sm_unavailable In]; tauto|].
  split; [rewrite H2; cbn [sm_available In]; tauto|].
  split; [rewrite H3; cbn [sm_exhausted In]; tauto|].
  split.
  - rewrite H4, lookup_empty. split; [intros [[x Hx]|H]; [discriminate|exact H]|auto].
  - rewrite H5. reflexivity.
Qed.

End CapabilityFacts.

(** X24 on a request for three exports, two of five being used. *)
Lemma check_agrees_with_remainingUses_witness :
  let input := BufferedExamples.threeExports in
  let w := BufferedExamples.meteredWorld in
  let remaining :=
    remainingUses (fns := utcDateFns)
      {| rui_actorId := ci_actorId input; rui_action := ci_action input |} w in
  (dc_allowed (fst (check (fns := utcDateFns) input w)) = true
   <-> match ru_uses (fst remaining) with
       | None => True
       | Some uses => default 1 (ci_consume input) <= uses
       end)
  /\ w_calls (snd (check (fns := utcDateFns) input w)) = w_calls (snd remaining).
Proof.
  apply (check_agrees_with_remainingUses (fns := utcDateFns)
           BufferedExamples.threeExports BufferedExamples.meteredWorld).
  - vm_compute. reflexivity.
  - vm_compute. reflexivity.
  - vm_compute. split; discriminate.
Defined.

(** In that world three exports are allowed and three remain; a fourth
    would not be. *)
Example exports_allowed :
  dc_allowed (fst (check (fns := utcDateFns) BufferedExamples.threeExports
                     BufferedExamples.meteredWorld)) = true
  /\ ru_uses (fst (remainingUses (fns := utcDateFns)
                     {| rui_actorId := "user1"; rui_action := "exports" |}
                     BufferedExamples.meteredWorld)) = Some 3.
Proof. vm_compute. split; reflexivity. Qed.

(** X25 on the ten daily calls, all used, at the clock of the world. *)
Lemma computeAvailableAt_answers_witness :
  let limit := Some 10 in
  let used := 10 in
  let window := Some Examples.dailyQuota in
  let at_ := Examples.wallClock in
  let answer :=
    computeAvailableAt (fns := utcDateFns) (add := utcDateFnsAdd) limit used window at_ in
  (answer = StatusNow <-> lc_allowed (checkLimit limit used (Some 1)) = true)
  /\ (answer = StatusNow
      <-> match remainingQuota limit used with
          | None => True
          | Some remaining => 0 < remaining
          end)
  /\ (forall reason, answer <> StatusUnknown reason)
  /\ (forall resetTime reason,
        answer = StatusAt resetTime reason ->
        exists spec, window = Some spec
                     /\ nextReset (fns := utcDateFns) (add := utcDateFnsAdd) spec at_
                        = Some resetTime
                     /\ reason = LimitResetsAt resetTime
                     /\ validTime resetTime = true).
Proof.
  apply (computeAvailableAt_answers (fns := utcDateFns) (add := utcDateFnsAdd)
           (Some 10) 10 (Some Examples.dailyQuota) Examples.wallClock).
  - vm_compute. reflexivity.
  - vm_compute. reflexivity.
  - vm_compute. reflexivity.
Defined.

(** The ten calls of 2025-06-01 are available again at midnight. *)
Example calls_available_at_midnight :
  computeAvailableAt (fns := utcDateFns) (add := utcDateFnsAdd) (Some 10) 10
    (Some Examples.dailyQuota) Examples.wallClock
  = StatusAt (JsDate.UTC 2025 5 2 0 0 0) (LimitResetsAt (JsDate.UTC 2025 5 2 0 0 0)).
Proof. vm_compute. reflexivity. Qed.

(** X26 on the daily calls, all used. *)
Lemma availableAt_agrees_with_remainingUses_witness :
  let w := BufferedExamples.meteredWorld in
  let answer :=
    availableAt (fns := utcDateFns) (add := utcDateFnsAdd)
      {| aai_actorId := "user1"; aai_action := "api-calls" |} w in
  let remaining :=
    remainingUses (fns := utcDateFns)
      {| rui_actorId := "user1"; rui_action := "api-calls" |} w in
  (fst answer = StatusNow
   <-> match ru_uses (fst remaining) with
       | None => True
       | Some uses => 0 < uses
       end)
  /\ (forall reason, fst answer <> StatusUnknown reason)
  /\ w_calls (snd answer) = w_calls (snd remaining).
Proof.
  apply (availableAt_agrees_with_remainingUses (fns := utcDateFns)
           (add := utcDateFnsAdd) "user1" "api-calls" BufferedExamples.meteredWorld).
  - vm_compute. reflexivity.
  - vm_compute. reflexivity.
Defined.

(** X27 on four requested actions, for the exhausted one. *)
Lemma capabilities_summary_witness :
  let input := BufferedExamples.fourActions in
  let w := BufferedExamples.meteredWorld in
  let a := "api-calls"%string in
  let caps := fst (capabilities (fns := utcDateFns) (add := utcDateFnsAdd) input w) in
  let entitlements := getEntitlements (w_adapter w) (cpi_actorId input) in
  let answer :=
    fst (availableAt (fns := utcDateFns) (add := utcDateFnsAdd)
           {| aai_actorId := cpi_actorId input; aai_action := a |} w) in
  (In a (sm_unavailable (cp_summary caps))
   <-> In a (cpi_actions input) /\ entitlements !! a = None)
  /\ (In a (sm_available (cp_summary caps))
      <-> In a (cpi_actions input) /\ answer = StatusNow)
  /\ (In a (sm_exhausted (cp_summary caps))
      <-> In a (cpi_actions input) /\ entitlements !! a <> None
          /\ answer <> StatusNow)
  /\ (is_Some (cp_actions caps !! a) <-> In a (cpi_actions input))
  /\ (length (sm_available (cp_summary caps))
      + length (sm_exhausted (cp_summary caps))
      + length (sm_unavailable (cp_summary caps))
      = length (cpi_actions input))%nat.
Proof.
  apply (capabilities_summary (fns := utcDateFns) (add := utcDateFnsAdd)
           BufferedExamples.fourActions BufferedExamples.meteredWorld "api-calls").
  vm_compute. reflexivity.
Defined.

(** The summary of that query. *)
Example capabilities_of_four_actions :
  cp_summary (fst (capabilities (fns := utcDateFns) (add := utcDateFnsAdd)
                     BufferedExamples.fourActions BufferedExamples.meteredWorld))
  = {| sm_available := ["exports"; "reports"]%string;
       sm_exhausted := ["api-calls"%string];
       sm_unavailable := ["uploads"%string] |}.
Proof. vm_compute. reflexivity. Qed.
(** ** policy.ts: the order facts are loaded in *)

Section TopologicalSort.
Context {Input Value : Type}.
Variable facts : list (string * FactDefinition Input Value).

Lemma lookupFact_In name :
  is_Some (lookupFact facts name) <-> In name (map fst facts).
Proof.
  unfold lookupFact. induction facts as [|[key def] rest IH]; cbn.
  - split; [intros [x Hx]; discriminate|intros []].
  - destruct (String.eqb_spec key name) as [->|Hne].
    + split; [auto|eauto].
    + rewrite IH. split; [auto|intros [H|H]; [congruence|exact H]].
Qed.

Lemma Before_app d n l ext : Before d n l -> Before d n (l ++ ext).
Proof.
  intros (l1 & l2 & -> & Hd). exists l1, (l2 ++ ext).
  split; [now rewrite <- app_assoc|exact Hd].
Qed.

Lemma Before_snoc d n l : In d l -> Before d n (l ++ [n]).
Proof. intros Hd. exists l, []. auto. Qed.

Lemma NoDup_snoc (n : string) l : List.NoDup l -> ~ In n l -> List.NoDup (l ++ [n]).
Proof.
  induction l as [|a l IH]; cbn; intros Hnd Hn.
  - constructor; [intros []|constructor].
  - inversion Hnd; subst. constructor.
    + rewrite in_app_iff. cbn. intros [H|[H|[]]]; [auto|subst; auto].
    + apply IH; auto.
Qed.

Lemma dependsOn_own m n : DependsOn facts m n -> In m (map fst facts).
Proof.
  unfold DependsOn, dependsOf. intros H. apply lookupFact_In.
  destruct (lookupFact facts m); [eauto|destruct H].
Qed.

Lemma Before_In d n l : Before d n l -> In d l.
Proof. intros (l1 & l2 & -> & Hd). apply in_or_app. now left. Qed.

(** A dependency of [name] that [facts[dep]] finds is a name the sort
    comes to visit. *)
Lemma recordHas_visitable name dep :
  recordHas facts dep = true ->
  In dep (map fst facts) \/ In dep (dependsOf facts name) ->
  Visitable facts dep.
Proof.
  unfold recordHas. intros Hhas Hdep.
  destruct (lookupFact facts dep) as [def|] eqn:Hlook.
  - left. apply lookupFact_In. rewrite Hlook. eauto.
  - destruct Hdep as [Hown|Hd].
    + apply lookupFact_In in Hown. rewrite Hlook in Hown. destruct Hown. discriminate.
    + right. split; [exact Hhas|]. exists name. exact Hd.
Qed.

Lemma recordHas_own name : In name (map fst facts) -> recordHas facts name = true.
Proof.
  intros H. apply lookupFact_In in H. unfold recordHas.
  destruct (lookupFact facts name); [reflexivity|destruct H; discriminate].
Qed.

(** What a visit that returns leaves behind. *)
Lemma visitDeps_done (v : string -> SortState -> Run SortState) name :
  (forall dep st st',
     SortInv facts st -> Visitable facts dep -> v dep st = Done st' ->
     SortInv facts st' /\ In dep (ss_result st')
     /\ ss_visiting st' = ss_visiting st
     /\ exists ext, ss_result st' = ss_result st ++ ext) ->
  forall deps st st',
    SortInv facts st ->
    (forall d, In d deps -> In d (map fst facts) \/ In d (dependsOf facts name)) ->
    visitDeps v facts name deps st = Done st' ->
    SortInv facts st' /\ ss_visiting st' = ss_visiting st
    /\ (exists ext, ss_result st' = ss_result st ++ ext)
    /\ forall d, In d deps -> In d (ss_result st').
Proof.
  intros Hv. induction deps as [|dep rest IH]; intros st st' Hinv Hdeps; cbn.
  - intros [= <-]. split; [exact Hinv|]. split; [reflexivity|].
    split; [exists []; now rewrite app_nil_r|intros d []].
  - destruct (recordHas facts dep) eqn:Hhas; cbn [negb]; [|discriminate].
    assert (Hvis : Visitable facts dep)
      by (apply (recordHas_visitable name); [exact Hhas|apply Hdeps; now left]).
    destruct (v dep st) as [st1| |] eqn:Hvisit; try discriminate.
    intros Hrest.
    destruct (Hv dep st st1 Hinv Hvis Hvisit) as (Hinv1 & Hin1 & Hvis1 & ext1 & Hext1).
    destruct (IH st1 st' Hinv1 ltac:(intros d Hd; apply Hdeps; now right) Hrest)
      as (Hinv' & Hvis' & (ext' & Hext') & Hall).
    split; [exact Hinv'|]. split; [congruence|].
    split; [exists (ext1 ++ ext'); rewrite Hext', Hext1; now rewrite app_assoc|].
    intros d [<-|Hd]; [|auto]. rewrite Hext'. apply in_or_app. now left.
Qed.

Lemma visit_done fuel :
  forall name st st',
    SortInv facts st -> Visitable facts name ->
    visit fuel facts name st = Done st' ->
    SortInv facts st' /\ In name (ss_result st')
    /\ ss_visiting st' = ss_visiting st
    /\ exists ext, ss_result st' = ss_result st ++ ext.
Proof.
  induction fuel as [|fuel IH]; intros name st st' Hinv Hknown; cbn [visit];
    [discriminate|].
  destruct (decide (name ∈ ss_visited st)) as [Hvisited|Hfresh].
  { intros [= <-]. split; [exact Hinv|]. split; [now apply Hinv|].
    split; [reflexivity|exists []; now rewrite app_nil_r]. }
  destruct (decide (name ∈ ss_visiting st)) as [Hvisiting|Hidle]; [discriminate|].
  cbv zeta.
  set (st1 := {| ss_result := ss_result st; ss_visited := ss_visited st;
                 ss_visiting := ss_visiting st ∪ {[name]} |}).
  assert (Hinv1 : SortInv facts st1).
  { destruct Hinv as (I1 & I2 & I3 & I4 & I5). repeat split; cbn; try apply I1; auto.
    intros n Hn. apply elem_of_union in Hn. destruct Hn as [Hn|Hn]; [auto|].
    apply elem_of_singleton in Hn. now subst. }
  assert (Hstep : forall st2,
             SortInv facts st2 -> ss_visiting st2 = ss_visiting st1 ->
             (exists ext, ss_result st2 = ss_result st1 ++ ext) ->
             (forall d, In d (dependsOf facts name) -> In d (ss_result st2)) ->
             let st3 := {| ss_result := ss_result st2 ++ [name];
                           ss_visited := ss_visited st2 ∪ {[name]};
                           ss_visiting := ss_visiting st2 ∖ {[name]} |} in
             SortInv facts st3 /\ In name (ss_result st3)
             /\ ss_visiting st3 = ss_visiting st
             /\ exists ext, ss_result st3 = ss_result st ++ ext).
  { intros st2 (I1 & I2 & I3 & I4 & I5) Hvis (ext & Hext) Hdeps st3.
    assert (Hnew : ~ In name (ss_result st2)).
    { intros H. apply I1 in H. revert H. apply I4. rewrite Hvis. cbn. set_solver. }
    split; [|split; [|split]].
    - repeat split; cbn.
      + intros H. apply elem_of_union in H. apply in_or_app.
        destruct H as [H|H]; [left; now apply I1|right].
        apply elem_of_singleton in H. subst. now left.
      + intros H. apply in_app_or in H. apply elem_of_union.
        destruct H as [H|[<-|[]]]; [left; now apply I1|right; now apply elem_of_singleton].
      + now apply NoDup_snoc.
      + intros n d Hn Hd. apply in_app_or in Hn. destruct Hn as [Hn|[<-|[]]].
        * apply Before_app. now apply I3.
        * apply Before_snoc. now apply Hdeps.
      + intros n Hn. apply elem_of_difference in Hn. destruct Hn as (Hn & Hne).
        rewrite elem_of_union. intros [H|H]; [now apply (I4 n)|contradiction].
      + intros n Hn. apply in_app_or in Hn. destruct Hn as [Hn|[<-|[]]]; auto.
    - cbn. apply in_or_app. right. now left.
    - cbn. rewrite Hvis. cbn. set_solver.
    - cbn. exists (ext ++ [name]). rewrite Hext. cbn. now rewrite app_assoc. }
  unfold dependsOf in Hstep.
  destruct (lookupFact facts name) as [fact|] eqn:Hlook.
  - destruct (fd_depends fact) as [depends|] eqn:Hdep.
    + destruct (visitDeps (visit fuel facts) facts name depends st1) as [st2| |] eqn:Hloop;
        try discriminate.
      intros [= <-].
      assert (Hof : dependsOf facts name = depends).
      { unfold dependsOf. now rewrite Hlook, Hdep. }
      destruct (visitDeps_done (visit fuel facts) name IH depends st1 st2 Hinv1
                  ltac:(intros d Hd; right; now rewrite Hof) Hloop)
        as (Hinv2 & Hvis2 & Hext2 & Hall).
      apply (Hstep st2); [exact Hinv2|exact Hvis2|exact Hext2|exact Hall].
    + intros [= <-].
      apply (Hstep st1); [exact Hinv1|reflexivity|exists []; now rewrite app_nil_r|intros d []].
  - intros [= <-].
    apply (Hstep st1); [exact Hinv1|reflexivity|exists []; now rewrite app_nil_r|intros d []].
Qed.

(** The recursion never runs out: every nested visit of a fact adds it
    to [visiting], and a name that is no fact has no dependencies to
    visit. *)
Lemma size_list_to_set_le (l : list string) :
  (size (list_to_set l : gset string) <= length l)%nat.
Proof.
  induction l as [|a l IH]; cbn.
  - now rewrite size_empty.
  - rewrite size_union_alt, size_singleton.
    pose proof (subseteq_size (list_to_set l ∖ {[a]}) (list_to_set l : gset string)
                  ltac:(apply subseteq_difference_l; reflexivity)).
    lia.
Qed.

Lemma known_elem_of name :
  is_Some (lookupFact facts name) -> name ∈ (list_to_set (map fst facts) : gset string).
Proof.
  intros H. apply elem_of_list_to_set, list_elem_of_In. now apply lookupFact_In.
Qed.

Lemma visitDeps_runs (v : string -> SortState -> Run SortState) name (bound : nat) :
  (forall dep st st',
     SortInv facts st -> Visitable facts dep -> v dep st = Done st' ->
     SortInv facts st' /\ In dep (ss_result st')
     /\ ss_visiting st' = ss_visiting st
     /\ exists ext, ss_result st' = ss_result st ++ ext) ->
  (forall dep st,
     SortInv facts st -> Visitable facts dep ->
     (size (list_to_set (map fst facts) ∖ ss_visiting st : gset string) < bound)%nat ->
     v dep st <> OutOfFuel) ->
  forall deps st,
    SortInv facts st ->
    (forall d, In d deps -> In d (map fst facts) \/ In d (dependsOf facts name)) ->
    (size (list_to_set (map fst facts) ∖ ss_visiting st : gset string) < bound)%nat ->
    visitDeps v facts name deps st <> OutOfFuel.
Proof.
  intros Hdone Hrun. induction deps as [|dep rest IH]; intros st Hinv Hdeps Hsize; cbn;
    [discriminate|].
  destruct (recordHas facts dep) eqn:Hhas; cbn [negb]; [|discriminate].
  assert (Hknown : Visitable facts dep)
    by (apply (recordHas_visitable name); [exact Hhas|apply Hdeps; now left]).
  pose proof (Hrun dep st Hinv Hknown Hsize) as Hne.
  destruct (v dep st) as [st1| |] eqn:Hvisit; [|discriminate|contradiction].
  destruct (Hdone dep st st1 Hinv Hknown Hvisit) as (Hinv1 & _ & Hvis1 & _).
  apply IH; [exact Hinv1|intros d Hd; apply Hdeps; now right|now rewrite Hvis1].
Qed.

Lemma visit_runs fuel :
  forall name st,
    SortInv facts st -> Visitable facts name ->
    (size (list_to_set (map fst facts) ∖ ss_visiting st : gset string) < fuel)%nat ->
    visit fuel facts name st <> OutOfFuel.
Proof.
  induction fuel as [|fuel IH]; intros name st Hinv Hknown Hsize; [lia|].
  cbn [visit].
  destruct (decide (name ∈ ss_visited st)) as [Hvisited|Hfresh]; [discriminate|].
  destruct (decide (name ∈ ss_visiting st)) as [Hvisiting|Hidle]; [discriminate|].
  cbv zeta.
  set (st1 := {| ss_result := ss_result st; ss_visited := ss_visited st;
                 ss_visiting := ss_visiting st ∪ {[name]} |}).
  assert (Hinv1 : SortInv facts st1).
  { destruct Hinv as (I1 & I2 & I3 & I4 & I5). repeat split; cbn; try apply I1; auto.
    intros n Hn. apply elem_of_union in Hn. destruct Hn as [Hn|Hn]; [auto|].
    apply elem_of_singleton in Hn. now subst. }
  destruct (lookupFact facts name) as [fact|] eqn:Hlook; [|discriminate].
  assert (Hsize1 : (size (list_to_set (map fst facts) ∖ ss_visiting st1 : gset string)
                    < fuel)%nat).
  { pose proof (known_elem_of name ltac:(rewrite Hlook; eauto)) as Hk.
    pose proof (subset_size
                  (list_to_set (map fst facts) ∖ ss_visiting st1 : gset string)
                  (list_to_set (map fst facts) ∖ ss_visiting st)) as Hlt.
    cbn in Hlt. specialize (Hlt ltac:(set_solver)). cbn. lia. }
  destruct (fd_depends fact) as [depends|] eqn:Hdep; [|discriminate].
  assert (Hof : dependsOf facts name = depends).
  { unfold dependsOf. now rewrite Hlook, Hdep. }
  pose proof (visitDeps_runs (visit fuel facts) name fuel (visit_done fuel) IH
                depends st1 Hinv1 ltac:(intros d Hd; right; now rewrite Hof) Hsize1) as Hne.
  destruct (visitDeps (visit fuel facts) facts name depends st1); [discriminate| |];
    [discriminate|contradiction].
Qed.

(** What is thrown is there: a fact that depends on itself through other
    facts, or a dependency that [facts[dep]] does not find. *)
Lemma visitDeps_throws (v : string -> SortState -> Run SortState) name :
  (forall dep st st',
     SortInv facts st -> Visitable facts dep -> v dep st = Done st' ->
     SortInv facts st' /\ In dep (ss_result st')
     /\ ss_visiting st' = ss_visiting st
     /\ exists ext, ss_result st' = ss_result st ++ ext) ->
  (forall dep st e,
     SortInv facts st -> Visitable facts dep ->
     (forall x, x ∈ ss_visiting st -> tc (DependsOn facts) x dep) ->
     v dep st = Throw e -> ErrorFound facts e) ->
  forall deps st e,
    SortInv facts st ->
    (forall d, In d deps -> In d (map fst facts) \/ In d (dependsOf facts name)) ->
    (forall d x, In d deps -> x ∈ ss_visiting st -> tc (DependsOn facts) x d) ->
    visitDeps v facts name deps st = Throw e -> ErrorFound facts e.
Proof.
  intros Hdone Hthrow. induction deps as [|dep rest IH]; intros st e Hinv Hdeps Hchain; cbn;
    [discriminate|].
  destruct (recordHas facts dep) eqn:Hhas; cbn [negb].
  - assert (Hknown : Visitable facts dep)
      by (apply (recordHas_visitable name); [exact Hhas|apply Hdeps; now left]).
    destruct (v dep st) as [st1|e1|] eqn:Hvisit; [| |discriminate].
    + destruct (Hdone dep st st1 Hinv Hknown Hvisit) as (Hinv1 & _ & Hvis1 & _).
      apply IH; [exact Hinv1| |].
      * intros d Hd. apply Hdeps. now right.
      * intros d x Hd Hx. rewrite Hvis1 in Hx. apply Hchain; [now right|exact Hx].
    + intros [= <-]. apply (Hthrow dep st e1 Hinv Hknown); [|exact Hvisit].
      intros x Hx. apply Hchain; [now left|exact Hx].
  - intros [= <-]. cbn. split; [|exact Hhas].
    destruct (Hdeps dep ltac:(now left)) as [Hown|H]; [|exact H].
    apply recordHas_own in Hown. congruence.
Qed.

Lemma visit_throws fuel :
  forall name st e,
    SortInv facts st -> Visitable facts name ->
    (forall x, x ∈ ss_visiting st -> tc (DependsOn facts) x name) ->
    visit fuel facts name st = Throw e -> ErrorFound facts e.
Proof.
  induction fuel as [|fuel IH]; intros name st e Hinv Hknown Hchain; cbn [visit];
    [discriminate|].
  destruct (decide (name ∈ ss_visited st)) as [Hvisited|Hfresh]; [discriminate|].
  destruct (decide (name ∈ ss_visiting st)) as [Hvisiting|Hidle].
  { intros [= <-]. cbn. now apply Hchain. }
  cbv zeta.
  set (st1 := {| ss_result := ss_result st; ss_visited := ss_visited st;
                 ss_visiting := ss_visiting st ∪ {[name]} |}).
  assert (Hinv1 : SortInv facts st1).
  { destruct Hinv as (I1 & I2 & I3 & I4 & I5). repeat split; cbn; try apply I1; auto.
    intros n Hn. apply elem_of_union in Hn. destruct Hn as [Hn|Hn]; [auto|].
    apply elem_of_singleton in Hn. now subst. }
  destruct (lookupFact facts name) as [fact|] eqn:Hlook; [|discriminate].
  destruct (fd_depends fact) as [depends|] eqn:Hdep; [|discriminate].
  assert (Hof : dependsOf facts name = depends).
  { unfold dependsOf. now rewrite Hlook, Hdep. }
  destruct (visitDeps (visit fuel facts) facts name depends st1) as [st2|e2|] eqn:Hloop;
    [discriminate| |discriminate].
  intros [= <-].
  apply (visitDeps_throws (visit fuel facts) name (visit_done fuel) IH depends st1 e2
           Hinv1); [| |exact Hloop].
  - intros d Hd. right. now rewrite Hof.
  - intros d x Hd Hx. cbn in Hx. apply elem_of_union in Hx.
    assert (Hstep : DependsOn facts name d) by (unfold DependsOn; now rewrite Hof).
    destruct Hx as [Hx|Hx].
    + eapply tc_r; [apply Hchain; exact Hx|exact Hstep].
    + apply elem_of_singleton in Hx. subst x. now apply tc_once.
Qed.

Lemma visitAll_visitDeps fuel name names :
  (forall n, In n names -> In n (map fst facts)) ->
  forall st,
    visitAll fuel facts names st = visitDeps (visit fuel facts) facts name names st.
Proof.
  induction names as [|n rest IH]; intros Hknown st; cbn; [reflexivity|].
  rewrite (recordHas_own n) by (apply Hknown; now left). cbn [negb].
  destruct (visit fuel facts n st); [|reflexivity|reflexivity].
  apply IH. intros m Hm. apply Hknown. now right.
Qed.

Lemma SortInv_start :
  SortInv facts {| ss_result := []; ss_visited := ∅; ss_visiting := ∅ |}.
Proof.
  unfold SortInv. cbn.
  split; [intros n; split; [intros H; now apply not_elem_of_empty in H|intros []]|].
  split; [constructor|]. split; [intros n d []|].
  split; [intros n H; now apply not_elem_of_empty in H|intros n []].
Qed.

Lemma topologicalSort_run :
  match topologicalSort facts with
  | Done order =>
      List.NoDup order
      /\ (forall n, In n order <-> Visitable facts n)
      /\ (forall n d, In n order -> In d (dependsOf facts n) -> Before d n order)
  | Throw e => ErrorFound facts e
  | OutOfFuel => False
  end.
Proof.
  unfold topologicalSort.
  set (st0 := {| ss_result := []; ss_visited := ∅; ss_visiting := ∅ |}).
  rewrite (visitAll_visitDeps _ ""%string _ (fun n H => H)).
  pose proof SortInv_start as Hinv. fold st0 in Hinv.
  assert (Hnames : forall d, In d (map fst facts) ->
                     In d (map fst facts) \/ In d (dependsOf facts ""))
    by (intros d Hd; now left).
  destruct (visitDeps (visit (S (length facts)) facts) facts "" (map fst facts) st0)
    as [st|e|] eqn:Hrun.
  - destruct (visitDeps_done _ _ (visit_done _) _ _ _ Hinv Hnames Hrun)
      as ((I1 & I2 & I3 & I4 & I5) & _ & _ & Hall).
    split; [exact I2|]. split; [|exact I3].
    intros n. split; [apply I5|].
    intros [Hown|(_ & m & Hm)]; [now apply Hall|].
    apply (Before_In n m). apply I3; [|exact Hm].
    apply Hall. exact (dependsOn_own _ _ Hm).
  - apply (visitDeps_throws _ _ (visit_done _) (visit_throws _) _ _ _ Hinv) in Hrun;
      [exact Hrun|exact Hnames|].
    intros d x _ Hx. cbn in Hx. now apply not_elem_of_empty in Hx.
  - revert Hrun.
    apply (visitDeps_runs _ _ (S (length facts)) (visit_done _) (visit_runs _));
      [exact Hinv|exact Hnames|].
    cbn. pose proof (size_list_to_set_le (map fst facts)) as Hle.
    rewrite length_map in Hle.
    pose proof (subseteq_size (list_to_set (map fst facts) ∖ ∅)
                  (list_to_set (map fst facts) : gset string)
                  ltac:(apply subseteq_difference_l; reflexivity)).
    lia.
Qed.

End TopologicalSort.

(** X28: [topologicalSort] returns or throws, and what it does is right.
    An order returned lists once every fact and every member name of
    [Object.prototype] that a fact lists among its dependencies (the read
    [facts[dep]] finds the inherited member), and nothing else, each name
    after all the names it depends on.  An error thrown for a circular
    dependency names a fact that depends on itself through a chain of
    dependencies; an error thrown for an unknown fact names a dependency
    that is neither a fact nor a member name of [Object.prototype]. *)
Theorem topologicalSort_order {Input Value : Type}
    (facts : list (string * FactDefinition Input Value)) :
  match topologicalSort facts with
  | Done order =>
      List.NoDup order
      /\ (forall n, In n order
                    <-> In n (map fst facts)
                        \/ (isPrototypeKey n = true /\ exists m, DependsOn facts m n))
      /\ (forall n d, In n order -> In d (dependsOf facts n) -> Before d n order)
  | Throw (CircularDependency name) => tc (DependsOn facts) name name
  | Throw (UnknownFact name dep) =>
      In dep (dependsOf facts name)
      /\ ~ In dep (map fst facts) /\ isPrototypeKey dep = false
  | Throw TypeError => False
  | Throw (Thrown error) => False
  | OutOfFuel => False
  end.
Proof.
  pose proof (topologicalSort_run facts) as H.
  destruct (topologicalSort facts) as [order|[name|name dep| |error]|]; try exact H.
  cbn in H. destruct H as (Hdep & Hhas). split; [exact Hdep|].
  unfold recordHas in Hhas.
  destruct (lookupFact facts dep) as [def|] eqn:Hlook; [discriminate|].
  split; [|exact Hhas].
  intros Hown. apply lookupFact_In in Hown. rewrite Hlook in Hown.
  destruct Hown. discriminate.
Qed.

(** A dependency on [toString] is no unknown fact: the order returned
    starts with it.  The plan is sorted before the usage that depends on
    it. *)
Example topologicalSort_examples :
  topologicalSort PolicyExamples.inheritedDependency = Done ["toString"; "a"]%string
  /\ topologicalSort (pl_facts PolicyExamples.quotaPolicy) = Done ["plan"; "usage"]%string.
Proof. vm_compute. split; reflexivity. Qed.
(** ** policy.ts: evaluation *)

Section Evaluation.
Context {Input Value TOutcome : Type}.

Lemma Before_cons d n m rest :
  Before d n (m :: rest) -> (d = m /\ In n rest) \/ Before d n rest.
Proof.
  intros (l1 & l2 & Heq & Hd). destruct l1 as [|a l1]; [destruct Hd|].
  cbn in Heq. injection Heq as -> ->. destruct Hd as [->|Hd].
  - left. split; [reflexivity|]. apply in_or_app. right. now left.
  - right. exists l1, l2. auto.
Qed.

(** The loop of [loadFacts] on an order that lists each name once and
    after its dependencies: every loader is handed a record that holds the
    facts it depends on. *)
Lemma loadInOrder_runs (factDefs : list (string * FactDefinition Input Value))
    (input : Input) (order : list string) :
  forall loaded,
    List.NoDup order ->
    (forall n, In n order -> loaded !! n = None) ->
    (forall n d, In n order -> In d (dependsOf factDefs n) ->
                 is_Some (loaded !! d) \/ Before d n order) ->
    match loadInOrder factDefs input order loaded with
    | Done facts =>
        loaded ⊆ facts
        /\ (forall n, In n order -> In n (map fst factDefs))
        /\ (forall k, is_Some (facts !! k) <-> is_Some (loaded !! k) \/ In k order)
        /\ (forall n def,
              In n order -> lookupFact factDefs n = Some def ->
              exists seen value,
                fd_load def input seen = Returned value
                /\ facts !! n = Some value
                /\ seen ⊆ facts
                /\ forall d, In d (dependsOf factDefs n) -> is_Some (seen !! d))
    | Throw TypeError => exists n, In n order /\ ~ In n (map fst factDefs)
    | Throw (Thrown error) =>
        exists n def seen,
          lookupFact factDefs n = Some def /\ fd_load def input seen = Raised error
    | Throw _ => False
    | OutOfFuel => False
    end.
Proof.
  induction order as [|name rest IH]; intros loaded Hnd Hfresh Hdeps; cbn [loadInOrder].
  - split; [reflexivity|]. split; [intros n []|].
    split; [intros k; split; [auto|intros [H|[]]; exact H]|intros n def []].
  - inversion Hnd as [|? ? Hnotin Hnd']; subst.
    destruct (lookupFact factDefs name) as [def|] eqn:Hdef.
    2:{ exists name. split; [now left|]. intros Hown.
        apply lookupFact_In in Hown. rewrite Hdef in Hown. destruct Hown. discriminate. }
    destruct (fd_load def input loaded) as [value|error] eqn:Hload.
    2:{ exists name, def, loaded. auto. }
    set (loaded' := <[name := value]> loaded).
    assert (Hsub : loaded ⊆ loaded').
    { apply insert_subseteq. apply Hfresh. now left. }
    specialize (IH loaded' Hnd').
    lapply IH; [clear IH; intros IH|].
    2:{ intros n Hn. unfold loaded'. rewrite lookup_insert_ne by (intros ->; contradiction).
        apply Hfresh. now right. }
    lapply IH; [clear IH; intros IH|].
    2:{ intros n d Hn Hd. destruct (Hdeps n d ltac:(now right) Hd) as [Hl|Hb].
        - left. destruct Hl as [x Hx]. exists x.
          eapply lookup_weaken; [exact Hx|exact Hsub].
        - apply Before_cons in Hb. destruct Hb as [[-> _]|Hb]; [|now right].
          left. unfold loaded'. rewrite lookup_insert_eq. eauto. }
    destruct (loadInOrder factDefs input rest loaded') as [facts|[| | |error]|];
      try exact IH.
    + destruct IH as (Hsub' & Hown & Hdom & Hall).
      split; [etransitivity; eassumption|]. split; [|split].
      * intros n [<-|Hn]; [|now apply Hown].
        apply lookupFact_In. rewrite Hdef. eauto.
      * intros k. rewrite Hdom. unfold loaded'. cbn [In].
        destruct (decide (k = name)) as [->|Hne].
        -- rewrite lookup_insert_eq. split; [auto|intros _; left; eauto].
        -- rewrite lookup_insert_ne by congruence.
           split; [intros [H|H]; auto|intros [H|[H|H]]; [auto|congruence|auto]].
      * intros n def' [<-|Hn] Hlook.
        -- exists loaded, value. rewrite Hdef in Hlook. injection Hlook as <-.
           split; [exact Hload|]. split; [|split; [etransitivity; eassumption|]].
           ++ eapply lookup_weaken; [|exact Hsub']. unfold loaded'.
              apply lookup_insert_eq.
           ++ intros d Hd. destruct (Hdeps name d ltac:(now left) Hd) as [Hl|Hb]; [exact Hl|].
              apply Before_cons in Hb. destruct Hb as [[_ Hin]|Hb]; [contradiction|].
              destruct Hb as (l1 & l2 & -> & _). exfalso. apply Hnotin.
              apply in_or_app. right. now left.
        -- apply Hall; assumption.
    + destruct IH as (n & Hn & Hnot). exists n. split; [now right|exact Hnot].
Qed.

Lemma evaluateRulesFrom_run (rules : list (Rule Input Value)) facts input :
  forall results reasons,
    match evaluateRulesFrom rules facts input results reasons with
    | Done (results', reasons') =>
        exists new,
          Forall2 (fun rule result => rl_evaluate rule facts input = Returned result)
            rules new
          /\ results' = results ++ new
          /\ reasons' = reasons ++ reasonsOf rules new
    | Throw (Thrown error) =>
        exists rule, In rule rules /\ rl_evaluate rule facts input = Raised error
    | Throw _ => False
    | OutOfFuel => False
    end.
Proof.
  induction rules as [|rule rest IH]; intros results reasons; cbn [evaluateRulesFrom].
  - exists []. split; [constructor|]. now rewrite !app_nil_r.
  - destruct (rl_evaluate rule facts input) as [result|error] eqn:Hrule.
    2:{ exists rule. split; [now left|exact Hrule]. }
    specialize (IH (results ++ [result])
                  (reasons ++ [ {| pr_rule := rl_id rule;
                                   pr_outcome := rs_outcome result;
                                   pr_explanation := rs_explanation result |} ])).
    destruct (evaluateRulesFrom rest facts input _ _) as [[results' reasons']|[| | |error]|];
      try exact IH.
    + destruct IH as (new & Hnew & -> & ->). exists (result :: new).
      split; [constructor; assumption|]. unfold reasonsOf. cbn [combine map].
      now rewrite <- !app_assoc.
    + destruct IH as (r & Hr & Hraised). exists r. split; [now right|exact Hraised].
Qed.

Lemma reasonsOf_outcomes (P : Rule Input Value -> RuleResult -> Prop) rules results :
  Forall2 P rules results ->
  map pr_outcome (reasonsOf rules results) = map rs_outcome results.
Proof.
  unfold reasonsOf. induction 1 as [|rule result rules results _ _ IH]; [reflexivity|].
  cbn [combine map pr_outcome]. now rewrite IH.
Qed.

Lemma collectObligations_flat_map results :
  collectObligations results
  = flat_map (fun result =>
                match rs_outcome result, rs_obligations result with
                | allow, Some obs => obs
                | _, _ => []
                end)
      results.
Proof.
  unfold collectObligations.
  assert (H : forall acc,
             fold_left (fun obligations result =>
                          match rs_outcome result, rs_obligations result with
                          | allow, Some obs => obligations ++ obs
                          | _, _ => obligations
                          end)
               results acc
             = acc ++ flat_map (fun result =>
                                  match rs_outcome result, rs_obligations result with
                                  | allow, Some obs => obs
                                  | _, _ => []
                                  end)
                        results).
  { induction results as [|r rest IH]; intros acc; cbn.
    - now rewrite app_nil_r.
    - rewrite IH. destruct (rs_outcome r), (rs_obligations r); cbn;
        now rewrite ?app_assoc. }
  apply H.
Qed.

(** X29: for a policy with no fact named [__proto__], whose loaders and
    rules return or throw and leave the record of facts they are handed as
    it is, and whose resolver returns.  When [evaluate] returns, the facts of the trace are those of
    the policy; each was returned by its loader on a record that already
    held every fact it depends on, with the values the trace ends with;
    every rule returned its result on the complete facts, the reasons
    follow the rules in order, the resolver saw the results in rule order,
    and the obligations are those of the results that allow, in rule
    order.  When [evaluate] throws, it throws the error of
    [topologicalSort], or what a loader or a rule threw, or a [TypeError]
    because a fact lists among its dependencies a member name of
    [Object.prototype] that is no fact, which has no [load]. *)
Theorem evaluate_loads_facts_before_use (policy : Policy Input Value TOutcome)
    (input : Input) :
  ~ In "__proto__"%string (map fst (pl_facts policy)) ->
  match evaluate policy input with
  | Done decision =>
      let facts := pd_facts decision in
      exists results,
        Forall2 (fun rule result => rl_evaluate rule facts input = Returned result)
          (pl_rules policy) results
        /\ (forall name, is_Some (facts !! name) <-> In name (map fst (pl_facts policy)))
        /\ (forall name def,
              lookupFact (pl_facts policy) name = Some def ->
              exists seen value,
                fd_load def input seen = Returned value
                /\ facts !! name = Some value
                /\ seen ⊆ facts
                /\ forall d, In d (dependsOf (pl_facts policy) name) ->
                             is_Some (seen !! d))
        /\ pd_reasons decision
           = map (fun '(rule, result) =>
                    {| pr_rule := rl_id rule;
                       pr_outcome := rs_outcome result;
                       pr_explanation := rs_explanation result |})
               (combine (pl_rules policy) results)
        /\ pd_outcome decision = pl_resolve policy results input facts
        /\ pd_obligations decision
           = flat_map (fun result =>
                         match rs_outcome result, rs_obligations result with
                         | allow, Some obs => obs
                         | _, _ => []
                         end)
               results
  | Throw (Thrown error) =>
      (exists name def seen,
         lookupFact (pl_facts policy) name = Some def
         /\ fd_load def input seen = Raised error)
      \/ (exists facts rule,
            In rule (pl_rules policy) /\ rl_evaluate rule facts input = Raised error)
  | Throw TypeError =>
      exists name dep,
        In dep (dependsOf (pl_facts policy) name)
        /\ ~ In dep (map fst (pl_facts policy))
        /\ isPrototypeKey dep = true
  | Throw e => topologicalSort (pl_facts policy) = Throw e
  | OutOfFuel => False
  end.
Proof.
  intros _. unfold evaluate, loadFacts.
  pose proof (topologicalSort_run (pl_facts policy)) as Hsort.
  destruct (topologicalSort (pl_facts policy)) as [order|e|]; [| |exact Hsort].
  2:{ destruct e; [reflexivity|reflexivity|destruct Hsort|destruct Hsort]. }
  destruct Hsort as (Hnd & Hkeys & Hbefore).
  pose proof (loadInOrder_runs (pl_facts policy) input order ∅ Hnd
                ltac:(intros n _; apply lookup_empty)
                ltac:(intros n d Hn Hd; right; now apply Hbefore)) as Hload.
  destruct (loadInOrder (pl_facts policy) input order ∅) as [facts|[| | |error]|];
    try (destruct Hload; fail).
  - destruct Hload as (_ & Hown & Hdom & Hall).
    pose proof (evaluateRulesFrom_run (pl_rules policy) facts input [] []) as Hrules.
    unfold evaluateRules.
    destruct (evaluateRulesFrom (pl_rules policy) facts input [] [])
      as [[results reasons]|[| | |error]|]; try (destruct Hrules; fail).
    + destruct Hrules as (new & Hnew & -> & ->). cbn.
      exists new. split; [exact Hnew|]. split; [|split; [|split; [reflexivity|]]].
      * intros name. rewrite Hdom, lookup_empty.
        split; [intros [[x Hx]|H]; [discriminate|now apply Hown]|].
        intros H. right. apply Hkeys. now left.
      * intros name def Hlook. apply Hall; [|exact Hlook].
        apply Hkeys. left. apply lookupFact_In. rewrite Hlook. eauto.
      * split; [reflexivity|apply collectObligations_flat_map].
    + right. destruct Hrules as (rule & Hrule & Hraised). exists facts, rule. auto.
  - destruct Hload as (n & Hn & Hnot). apply Hkeys in Hn.
    destruct Hn as [Hown|(Hproto & m & Hm)]; [contradiction|].
    exists m, n. auto.
  - left. exact Hload.
Qed.

Lemma countIf_map {A B : Type} (f : A -> B) (p : B -> bool) l :
  countIf p (map f l) = countIf (fun x => p (f x)) l.
Proof.
  induction l as [|x l IH]; [reflexivity|]. cbn [map].
  now rewrite !countIf_cons, IH.
Qed.

Lemma existsb_map {A B : Type} (f : A -> B) (p : B -> bool) l :
  existsb p (map f l) = existsb (fun x => p (f x)) l.
Proof. induction l as [|x l IH]; [reflexivity|]. cbn. now rewrite IH. Qed.

(** X30: with the stock resolvers the outcome of [evaluate] can be read
    off the reasons it returns: under [resolveAllMustAllow] the decision
    is allowed exactly when no reason has the outcome [deny], under
    [resolveAnyMustAllow] exactly when some reason has the outcome
    [allow], and the score of a weighted resolver is the number of reasons
    with the outcome [allow]. *)
Theorem evaluate_outcome_follows_reasons
    (facts : list (string * FactDefinition Input Value))
    (rules : list (Rule Input Value)) (input : Input) (weights : gmap string Z) :
  match evaluate {| pl_facts := facts; pl_rules := rules;
                    pl_resolve := fun results _ _ => resolveAllMustAllow results |}
          input with
  | Done decision =>
      allowed (pd_outcome decision) = true
      <-> forall reason, In reason (pd_reasons decision) -> pr_outcome reason <> deny
  | _ => True
  end
  /\ match evaluate {| pl_facts := facts; pl_rules := rules;
                       pl_resolve := fun results _ _ => resolveAnyMustAllow results |}
             input with
     | Done decision =>
         allowed (pd_outcome decision) = true
         <-> exists reason, In reason (pd_reasons decision) /\ pr_outcome reason = allow
     | _ => True
     end
  /\ match evaluate {| pl_facts := facts; pl_rules := rules;
                       pl_resolve :=
                         fun results _ _ => createWeightedResolver weights results |}
             input with
     | Done decision =>
         score (pd_outcome decision)
         = countIf (fun reason => match pr_outcome reason with
                                  | allow => true
                                  | _ => false
                                  end)
             (pd_reasons decision)
     | _ => True
     end.
Proof.
  unfold evaluate. cbn [pl_facts pl_rules pl_resolve].
  destruct (loadFacts facts input) as [loaded|e|]; [|auto|auto].
  pose proof (evaluateRulesFrom_run rules loaded input [] []) as Hrules.
  unfold evaluateRules.
  destruct (evaluateRulesFrom rules loaded input [] []) as [[results reasons]|e|];
    [|auto|auto].
  destruct Hrules as (new & Hnew & -> & ->). cbn [app pd_outcome pd_reasons].
  pose proof (reasonsOf_outcomes _ _ _ Hnew) as Hout.
  set (reasons := reasonsOf rules new) in *. clearbody reasons.
  set (isDeny := fun o : Outcome => match o with deny => true | _ => false end).
  set (isAllow := fun o : Outcome => match o with allow => true | _ => false end).
  split; [|split].
  - unfold resolveAllMustAllow. cbn [allowed]. rewrite negb_true_iff.
    change (existsb (fun r => isDeny (rs_outcome r)) new = false
            <-> forall reason, In reason reasons -> pr_outcome reason <> deny).
    rewrite <- (existsb_map rs_outcome isDeny), <- Hout, existsb_map.
    split.
    + intros Hnone reason Hin Hdeny.
      assert (Hex : existsb (fun x => isDeny (pr_outcome x)) reasons = true).
      { apply existsb_exists. exists reason. split; [exact Hin|]. now rewrite Hdeny. }
      congruence.
    + intros Hall. apply not_true_is_false. intros Hex. apply existsb_exists in Hex.
      destruct Hex as (reason & Hin & Hdeny). apply (Hall reason Hin).
      unfold isDeny in Hdeny. destruct (pr_outcome reason); congruence.
  - unfold resolveAnyMustAllow. cbn [allowed].
    change (existsb (fun r => isAllow (rs_outcome r)) new = true
            <-> exists reason, In reason reasons /\ pr_outcome reason = allow).
    rewrite <- (existsb_map rs_outcome isAllow), <- Hout, existsb_map, existsb_exists.
    split; intros (reason & Hin & Hallow); exists reason; (split; [exact Hin|]).
    + unfold isAllow in Hallow. destruct (pr_outcome reason); congruence.
    + now rewrite Hallow.
  - rewrite createWeightedResolver_counts.
    change (countIf (fun r => isAllow (rs_outcome r)) new
            = countIf (fun reason => isAllow (pr_outcome reason)) reasons).
    now rewrite <- (countIf_map rs_outcome isAllow), <- Hout, countIf_map.
Qed.

End Evaluation.

(** X29 on the quota policy: the plan is loaded before the usage that
    reads it. *)
Lemma evaluate_loads_facts_before_use_witness :
  let policy := PolicyExamples.quotaPolicy in
  let input := tt in
  match evaluate policy input with
  | Done decision =>
      let facts := pd_facts decision in
      exists results,
        Forall2 (fun rule result => rl_evaluate rule facts input = Returned result)
          (pl_rules policy) results
        /\ (forall name, is_Some (facts !! name) <-> In name (map fst (pl_facts policy)))
        /\ (forall name def,
              lookupFact (pl_facts policy) name = Some def ->
              exists seen value,
                fd_load def input seen = Returned value
                /\ facts !! name = Some value
                /\ seen ⊆ facts
                /\ forall d, In d (dependsOf (pl_facts policy) name) ->
                             is_Some (seen !! d))
        /\ pd_reasons decision
           = map (fun '(rule, result) =>
                    {| pr_rule := rl_id rule;
                       pr_outcome := rs_outcome result;
                       pr_explanation := rs_explanation result |})
               (combine (pl_rules policy) results)
        /\ pd_outcome decision = pl_resolve policy results input facts
        /\ pd_obligations decision
           = flat_map (fun result =>
                         match rs_outcome result, rs_obligations result with
                         | allow, Some obs => obs
                         | _, _ => []
                         end)
               results
  | Throw (Thrown error) =>
      (exists name def seen,
         lookupFact (pl_facts policy) name = Some def
         /\ fd_load def input seen = Raised error)
      \/ (exists facts rule,
            In rule (pl_rules policy) /\ rl_evaluate rule facts input = Raised error)
  | Throw TypeError =>
      exists name dep,
        In dep (dependsOf (pl_facts policy) name)
        /\ ~ In dep (map fst (pl_facts policy))
        /\ isPrototypeKey dep = true
  | Throw e => topologicalSort (pl_facts policy) = Throw e
  | OutOfFuel => False
  end.
Proof.
  apply (evaluate_loads_facts_before_use PolicyExamples.quotaPolicy tt).
  vm_compute. intros [H|[H|[]]]; discriminate.
Defined.

(** The quota policy allows, with the facts [plan = 3] and [usage = 30];
    a loader that throws makes [evaluate] throw its error; and a
    dependency on [toString] passes the sort and fails at the load. *)
Example evaluate_examples :
  option_map (fun decision =>
                (allowed (pd_outcome decision), map pr_outcome (pd_reasons decision),
                 pd_obligations decision, pd_facts decision !! "usage"%string))
    (match evaluate PolicyExamples.quotaPolicy tt with
     | Done decision => Some decision
     | _ => None
     end)
  = Some (true, [allow], [ {| ob_type := "consume"; ob_amount := 1 |} ], Some 30)
  /\ match evaluate PolicyExamples.failingLoader tt with
     | Throw (Thrown error) => error = "no connection"%string
     | _ => False
     end
  /\ match evaluate {| pl_facts := PolicyExamples.inheritedDependency;
                       pl_rules := [];
                       pl_resolve := fun results _ _ => resolveAllMustAllow results |}
             tt with
     | Throw TypeError => True
     | _ => False
     end.
Proof. vm_compute. repeat split; reflexivity. Qed.
